(** * PcAutoAgent: the action loop, the tool-call parser, the coordinate
      transformer and the adapter adjustment, embedded from the Python sources

    Conventions of the embedding.

    - A Python [str] is a list of Unicode code points ([str]); literals are
      written as UTF-8 Rocq strings and decoded by [py].
    - The regular expressions of [utils/tool_utils.py] are values of [regex];
      [rmatch] is the backtracking matcher of Python's [re] for the operators
      these patterns use, [findall] and [re_match] are [re.findall] and
      [re.match].
    - Python floats are modelled by exact rationals ([Q]); ints by [Z].
    - The Unicode character database (which code points above 127 are white
      space, decimal digits, digits, alphanumeric, and how a string is
      lower-cased) is a parameter: the class [Unicode]. *)

From Stdlib Require Import ZArith NArith QArith Qround Qminmax List String Ascii Lia Bool.
From stdpp Require Import base option list gmap.
Import ListNotations.

Local Open Scope N_scope.

(** ** Python strings *)

Abbreviation str := (list N).

(** UTF-8 decoding of a Rocq string literal: [pending] continuation bytes are
    still expected for the code point accumulated in [acc]. *)
Fixpoint utf8_go (pending : nat) (acc : N) (bs : str) : str :=
  match bs with
  | [] => []
  | b :: bs' =>
      match pending with
      | O =>
          if b <? 128 then b :: utf8_go 0 0 bs'
          else if b <? 224 then utf8_go 1 (N.land b 31) bs'
          else if b <? 240 then utf8_go 2 (N.land b 15) bs'
          else utf8_go 3 (N.land b 7) bs'
      | S O => (acc * 64 + N.land b 63) :: utf8_go 0 0 bs'
      | S p => utf8_go p (acc * 64 + N.land b 63) bs'
      end
  end.

Definition py (s : string) : str :=
  utf8_go 0 0 (map N_of_ascii (list_ascii_of_string s)).

Definition str_eqb (a b : str) : bool := bool_decide (a = b).

(** [s.startswith(p)], returning what follows the prefix. *)
Fixpoint strip_prefix (p s : str) : option (str) :=
  match p, s with
  | [], _ => Some s
  | a :: p', b :: s' => if a =? b then strip_prefix p' s' else None
  | _ :: _, [] => None
  end.

(** [p in s] for strings. *)
Fixpoint contains (p s : str) : bool :=
  match strip_prefix p s with
  | Some _ => true
  | None => match s with [] => false | _ :: s' => contains p s' end
  end.

(** ** The Unicode character database, above code point 127 *)

Class Unicode := {
  uni_space : N -> bool;          (* str.isspace *)
  uni_decimal : N -> option N;    (* the value of a decimal digit (category Nd) *)
  uni_digit : N -> bool;          (* further digits: str.isdigit, not decimal *)
  uni_alnum : N -> bool;          (* further alphanumerics: str.isalnum *)
  uni_lower : str -> str;   (* str.lower of a string that is not ASCII *)
}.

(** The database that knows no character above 127. *)
Definition ascii_only : Unicode :=
  {| uni_space := fun _ => false; uni_decimal := fun _ => None;
     uni_digit := fun _ => false; uni_alnum := fun _ => false;
     uni_lower := fun s => s |}.

Definition in_range (lo hi c : N) : bool := (lo <=? c) && (c <=? hi).
Definition chr (s : string) : N := hd 0 (py s).

Definition is_upper_az (c : N) : bool := in_range 65 90 c.
Definition is_lower_az (c : N) : bool := in_range 97 122 c.
Definition is_09 (c : N) : bool := in_range 48 57 c.
(** [[a-zA-Z_]] and [[a-zA-Z0-9_]] *)
Definition ident_start (c : N) : bool := is_lower_az c || is_upper_az c || (c =? 95).
Definition ident_char (c : N) : bool := ident_start c || is_09 c.

Section Classes.
Context {U : Unicode}.

(** [\s]: Py_UNICODE_ISSPACE *)
Definition is_space (c : N) : bool :=
  if c <? 128 then in_range 9 13 c || in_range 28 32 c else uni_space c.

(** the value of a decimal digit; [\d] is [is_decimal] *)
Definition decimal_value (c : N) : option N :=
  if c <? 128 then (if is_09 c then Some (c - 48) else None) else uni_decimal c.
Definition is_decimal (c : N) : bool :=
  match decimal_value c with Some _ => true | None => false end.

(** one character of [str.isdigit] *)
Definition is_digit (c : N) : bool :=
  is_decimal c || (if c <? 128 then false else uni_digit c).

(** [\w]: alphanumeric or underscore *)
Definition is_word (c : N) : bool :=
  if c <? 128 then ident_char c else is_digit c || uni_alnum c.

(** [s.isdigit()] *)
Definition isdigit (s : str) : bool :=
  match s with [] => false | _ => forallb is_digit s end.

(** [int(s)] for a string of digits: [None] is ValueError. *)
Fixpoint int_digits (acc : N) (s : str) : option N :=
  match s with
  | [] => Some acc
  | c :: s' => match decimal_value c with
               | Some d => int_digits (acc * 10 + d) s'
               | None => None
               end
  end.
Definition py_int (s : str) : option Z :=
  match s with
  | [] => None
  | _ => match int_digits 0 s with Some n => Some (Z.of_N n) | None => None end
  end.

(** [s.lower()] *)
Definition ascii_lower (c : N) : N := if is_upper_az c then c + 32 else c.
Definition py_lower (s : str) : str :=
  if forallb (fun c => c <? 128) s then map ascii_lower s else uni_lower s.

(** [s.strip()] and [s.lstrip()] with no argument *)
Fixpoint lstrip (s : str) : str :=
  match s with
  | c :: s' => if is_space c then lstrip s' else s
  | [] => []
  end.
Definition strip (s : str) : str := rev (lstrip (rev (lstrip s))).

End Classes.

(** ** Regular expressions: the fragment of Python's [re] the parser uses *)

Inductive regex : Type :=
| Eps                                 (* the empty pattern *)
| Chr (p : N -> bool)                 (* one character of a class *)
| Lit (l : str)                    (* a literal string *)
| Cat (a b : regex)                   (* ab *)
| Alt (a b : regex)                   (* a|b *)
| Star (p : N -> bool)                (* p*  (greedy), p a class *)
| Lazy (p : N -> bool)                (* p*? (lazy) *)
| Group (i : nat) (a : regex)         (* the i-th capturing group *)
| Ahead (a : regex)                   (* (?=a) *)
| Eos.                                (* $ without MULTILINE *)

(** [p+] *)
Definition Plus (p : N -> bool) : regex := Cat (Chr p) (Star p).
Fixpoint Seq (l : list regex) : regex :=
  match l with [] => Eps | [a] => a | a :: l' => Cat a (Seq l') end.
Fixpoint Alts (l : list regex) : regex :=
  match l with [] => Eps | [a] => a | a :: l' => Alt a (Alts l') end.

(** The groups matched so far, the most recent first. *)
Abbreviation groups := (list (nat * str)).

Definition group (i : nat) (g : groups) : str :=
  match find (fun e => Nat.eqb (fst e) i) g with
  | Some e => snd e
  | None => []
  end.

(** [$]: at the end of the string, or before a newline that ends it. *)
Definition at_end (s : str) : bool :=
  match s with [] => true | [c] => c =? 10 | _ => false end.

Fixpoint star_greedy {R} (p : N -> bool) (s : str) (k : str -> option R) : option R :=
  match s with
  | c :: s' =>
      if p c then
        match star_greedy p s' k with Some x => Some x | None => k s end
      else k s
  | [] => k s
  end.

Fixpoint star_lazy {R} (p : N -> bool) (s : str) (k : str -> option R) : option R :=
  match k s with
  | Some x => Some x
  | None =>
      match s with
      | c :: s' => if p c then star_lazy p s' k else None
      | [] => None
      end
  end.

(** The backtracking matcher: [rmatch r s g k] matches [r] at the head of [s]
    and hands what is left, with the groups, to the continuation [k]; the
    alternatives are tried in Python's order and the first success wins. *)
Fixpoint rmatch {R} (r : regex) (s : str) (g : groups)
    (k : str -> groups -> option R) {struct r} : option R :=
  match r with
  | Eps => k s g
  | Chr p => match s with
             | c :: s' => if p c then k s' g else None
             | [] => None
             end
  | Lit l => match strip_prefix l s with
             | Some s' => k s' g
             | None => None
             end
  | Cat a b => rmatch a s g (fun s' g' => rmatch b s' g' k)
  | Alt a b => match rmatch a s g k with
               | Some x => Some x
               | None => rmatch b s g k
               end
  | Star p => star_greedy p s (fun s' => k s' g)
  | Lazy p => star_lazy p s (fun s' => k s' g)
  | Group i a =>
      rmatch a s g
        (fun s' g' => k s' ((i, take (length s - length s') s) :: g'))
  | Ahead a => match rmatch a s g (fun _ g' => Some g') with
               | Some g' => k s g'
               | None => None
               end
  | Eos => if at_end s then k s g else None
  end.

(** A match of [r] at the head of [s]: what is left and the groups. *)
Definition match_here (r : regex) (s : str) : option (str * groups) :=
  rmatch r s [] (fun s' g => Some (s', g)).

(** [re.match(r, s)] *)
Definition re_match (r : regex) (s : str) : option (groups) :=
  match match_here r s with Some (_, g) => Some g | None => None end.

(** [re.findall(r, s)], one entry (the groups) per match, scanning from the
    left; [skip] characters belong to the match found last.  A match that
    consumes nothing only moves the scan on by one character; no pattern of
    the parser can match the empty string. *)
Fixpoint findall_from (r : regex) (skip : nat) (s : str) : list (groups) :=
  match skip with
  | S n => match s with [] => [] | _ :: s' => findall_from r n s' end
  | O =>
      match match_here r s with
      | Some (rest, g) =>
          g :: match s with
               | [] => []
               | _ :: s' => findall_from r (length s - length rest - 1) s'
               end
      | None => match s with [] => [] | _ :: s' => findall_from r 0 s' end
      end
  end.

Definition findall (r : regex) (s : str) : list (groups) :=
  findall_from r 0 s.

(** ** Results of code that may raise *)

(** An exception (a subclass of Exception) with its message, str(e). *)
Inductive exn : Type :=
| ValueError (msg : str)
| PermissionError (msg : str)
| Error (msg : str).              (* any other subclass of Exception *)

Definition exn_str (e : exn) : str :=
  match e with ValueError m | PermissionError m | Error m => m end.

Inductive result (A : Type) : Type :=
| Ok (a : A)
| Raise (e : exn).
Arguments Ok {A} a.
Arguments Raise {A} e.

(** ** utils/tool_utils.py: the tool-call parser *)

Inductive value : Type :=
| VStr (s : str)
| VInt (z : Z)
| VFloat (q : Q).

(** A parsed call: the dict with the keys 'name' and 'arguments'. *)
Record ToolCall : Type := { name : str; arguments : list (str * value) }.

(** [d[key] = v] on a dict kept in insertion order: a key already present
    keeps its place and takes the new value. *)
Fixpoint dict_set {V} (key : str) (v : V) (d : list (str * V)) : list (str * V) :=
  match d with
  | [] => [(key, v)]
  | (k', v') :: d' =>
      if str_eqb k' key then (k', v) :: d' else (k', v') :: dict_set key v d'
  end.

(** [d.get(key)] *)
Fixpoint dict_get {V} (key : str) (d : list (str * V)) : option V :=
  match d with
  | [] => None
  | (k', v') :: d' => if str_eqb k' key then Some v' else dict_get key d'
  end.

Definition quote : N := 34.       (* the double quote *)
Definition newline : N := 10.
Definition marker : str := py "<|tool_call|>".

(** [[^<\|tool_call\|>]]: any character that is none of < | t o l _ c a > *)
Definition not_marker_char (c : N) : bool := negb (existsb (N.eqb c) marker).
(** The classes "any character but the closing parenthesis", "any character
    but the double quote", and the dot (without DOTALL: any but a newline) *)
Definition not_rparen (c : N) : bool := negb (c =? chr ")").
Definition not_quote (c : N) : bool := negb (c =? quote).
Definition not_newline (c : N) : bool := negb (c =? newline).

(** [[a-zA-Z_][a-zA-Z0-9_]*] *)
Definition identifier : regex := Cat (Chr ident_start) (Star ident_char).

(** The names the bare form is accepted for. *)
Definition bare_names : list str :=
  [py "mouse_click"; py "type_text"; py "scroll_window"; py "close_window";
   py "clear_input"; py "wait"; py "press_hotkey"; py "pause_task";
   py "complete_task"].

Section Parser.
Context {U : Unicode}.

(** [<\|tool_call\|>([^<\|tool_call\|>]*?)<\|tool_call\|>] *)
Definition pattern1 : regex :=
  Seq [Lit marker; Group 1 (Lazy not_marker_char); Lit marker].

(** [([a-zA-Z_][a-zA-Z0-9_]*\s*\([^)]*\))\s*<\|tool_call\|>] *)
Definition pattern2 : regex :=
  Seq [Group 1 (Seq [identifier; Star is_space; Lit (py "("); Star not_rparen; Lit (py ")")]);
       Star is_space; Lit marker].

(** [(?=\s*\n|$|\.)] *)
Definition bare_end : regex :=
  Ahead (Alts [Cat (Star is_space) (Lit [newline]); Eos; Lit (py ".")]).

(** [(mouse_click|...|complete_task)\s*\([^)]*\)(?=\s*\n|$|\.)] *)
Definition pattern3 : regex :=
  Seq [Group 1 (Alts (map Lit bare_names)); Star is_space; Lit (py "(");
       Star not_rparen; Lit (py ")"); bare_end].

(** [((mouse_click|...|complete_task)\s*\([^)]*\))(?=\s*\n|$|\.)] *)
Definition full_pattern3 : regex :=
  Seq [Group 1 (Seq [Group 2 (Alts (map Lit bare_names)); Star is_space; Lit (py "(");
                     Star not_rparen; Lit (py ")")]);
       bare_end].

(** [function_pattern] (line 95), used with [re.match]: at the start, [\s*],
    group 1 = an identifier, [\s*], an opening parenthesis, group 2 = [.*?],
    a closing parenthesis, [\s*], [$] *)
Definition function_pattern : regex :=
  Seq [Star is_space; Group 1 identifier; Star is_space; Lit (py "(");
       Group 2 (Lazy not_newline); Lit (py ")"); Star is_space; Eos].

(** [arg_pattern] (line 110): [\s*], group 1 = an identifier, [\s*=\s*],
    group 2 = [Q[^Q]*Q|\d+\.\d+|\d+|\w+] where Q stands for the double quote
    character, [\s*] *)
Definition arg_pattern : regex :=
  Seq [Star is_space; Group 1 identifier; Star is_space; Lit (py "="); Star is_space;
       Group 2 (Alts [Seq [Lit [quote]; Star not_quote; Lit [quote]];
                      Seq [Plus is_decimal; Lit (py "."); Plus is_decimal];
                      Plus is_decimal;
                      Plus is_word]);
       Star is_space].

(** [float(s)] of a literal [digits.digits]; [None] is ValueError.  An
    argument value that holds a dot and is not quoted was matched by
    [\d+\.\d+], so no other spelling reaches the call. *)
Fixpoint split_dot (s : str) : option (str * str) :=
  match s with
  | [] => None
  | c :: s' =>
      if c =? chr "." then Some ([], s')
      else match split_dot s' with
           | Some (a, b) => Some (c :: a, b)
           | None => None
           end
  end.
Definition py_float (s : str) : option Q :=
  match split_dot s with
  | Some (a, b) =>
      match py_int a, py_int b with
      | Some ia, Some ib =>
          Some (Qred (inject_Z ia + inject_Z ib / inject_Z (10 ^ Z.of_nat (length b))))
      | _, _ => None
      end
  | None => None
  end.

(** The coercion of one argument value (tool_utils.py, lines 114-124). *)
Definition coerce (arg_value : str) : result value :=
  if str_eqb (take 1 arg_value) [quote] && str_eqb (drop (length arg_value - 1) arg_value) [quote]
  then Ok (VStr (removelast (tl arg_value)))                  (* arg_value[1:-1] *)
  else if existsb (N.eqb (chr ".")) arg_value then
    match py_float arg_value with
    | Some q => Ok (VFloat q)
    | None => Ok (VStr arg_value)                              (* except ValueError: pass *)
    end
  else if isdigit arg_value then
    match py_int arg_value with
    | Some z => Ok (VInt z)
    | None =>
        Raise (ValueError (py "invalid literal for int() with base 10: '" ++ arg_value ++ py "'"))
    end
  else Ok (VStr arg_value).

(** The loop over [arg_matches]. *)
Fixpoint parse_args (arg_matches : list groups) (args : list (str * value))
  : result (list (str * value)) :=
  match arg_matches with
  | [] => Ok args
  | m :: rest =>
      match coerce (group 2 m) with
      | Ok v => parse_args rest (dict_set (group 1 m) v args)
      | Raise e => Raise e
      end
  end.

(** The body of the loop over [all_matches] for one match: [Ok None] is the
    [continue] of a match the function pattern rejects. *)
Definition parse_match (m : str) : result (option ToolCall) :=
  match re_match function_pattern m with
  | None => Ok None
  | Some g =>
      let function_name := group 1 g in
      let args_str := group 2 g in
      match strip args_str with
      | [] => Ok (Some {| name := function_name; arguments := [] |})
      | _ =>
          match parse_args (findall arg_pattern args_str) [] with
          | Ok args => Ok (Some {| name := function_name; arguments := args |})
          | Raise e => Raise e
          end
      end
  end.

Fixpoint parse_matches (all_matches : list str) : result (list ToolCall) :=
  match all_matches with
  | [] => Ok []
  | m :: rest =>
      match parse_match m with
      | Raise e => Raise e
      | Ok c =>
          match parse_matches rest with
          | Raise e => Raise e
          | Ok tool_calls =>
              Ok (match c with Some call => call :: tool_calls | None => tool_calls end)
          end
      end
  end.

(** The merge that avoids repeats: [all_matches] with [seen_matches]. *)
Definition merge_one (st : list str * gset str) (m : str) : list str * gset str :=
  if bool_decide (m ∈ st.2) then st else (st.1 ++ [m], {[ m ]} ∪ st.2).
Definition merge_matches (match_lists : list (list str)) : list str :=
  (fold_left (fun st match_list => fold_left merge_one match_list st) match_lists ([], ∅)).1.

Definition matches1 (response_text : str) : list str :=
  map (group 1) (findall pattern1 response_text).
Definition matches2 (response_text : str) : list str :=
  map (group 1) (findall pattern2 response_text).
Definition matches3 (response_text : str) : list str :=
  match map (group 1) (findall pattern3 response_text) with
  | [] => []
  | _ => map (group 1) (findall full_pattern3 response_text)
  end.

Definition all_matches (response_text : str) : list str :=
  merge_matches [matches1 response_text; matches2 response_text; matches3 response_text].

Definition parse_tool_calls (response_text : str) : result (list ToolCall) :=
  parse_matches (all_matches response_text).

End Parser.

(** ** utils/coordinate_utils.py *)

Local Open Scope Q_scope.

(** [max(a, b)] and [min(a, b)] of Python: the first argument is kept unless
    the second is strictly greater (smaller). *)
Definition Qltb (a b : Q) : bool := negb (Qle_bool b a).
Definition py_max (a b : Q) : Q := if Qltb a b then b else a.
Definition py_min (a b : Q) : Q := if Qltb b a then b else a.

(** [round(x)] to the nearest integer, a tie to the even one, and
    [round(x, ndigits)]. *)
Definition round_half_even (x : Q) : Z :=
  let f := Qfloor x in
  match Qcompare (x - inject_Z f) (1 # 2) with
  | Lt => f
  | Gt => (f + 1)%Z
  | Eq => if Z.even f then f else (f + 1)%Z
  end.
Definition py_round (x : Q) (ndigits : nat) : Q :=
  let scale := inject_Z (10 ^ Z.of_nat ndigits) in
  Qred (inject_Z (round_half_even (x * scale)) / scale).

Record CoordinateConverter : Type := {
  original_width : Z;
  original_height : Z;
  scaled_width : Z;
  scaled_height : Z;
}.

(** [CoordinateConverter.__init__] *)
Definition new_converter : CoordinateConverter :=
  {| original_width := 0; original_height := 0; scaled_width := 0; scaled_height := 0 |}.

Definition set_original_resolution (self : CoordinateConverter) (width height : Z)
  : CoordinateConverter :=
  {| original_width := width; original_height := height;
     scaled_width := scaled_width self; scaled_height := scaled_height self |}.

Definition set_scaled_resolution (self : CoordinateConverter) (width height : Z)
  : CoordinateConverter :=
  {| original_width := original_width self; original_height := original_height self;
     scaled_width := width; scaled_height := height |}.

Definition safe_margin : Z := 5.

Definition convert_proportion_to_actual (self : CoordinateConverter)
    (x_proportion y_proportion : Q) : Q * Q :=
  let x_proportion := py_max 0 (py_min 1 x_proportion) in
  let y_proportion := py_max 0 (py_min 1 y_proportion) in
  let actual_x := x_proportion * inject_Z (original_width self) in
  let actual_y := y_proportion * inject_Z (original_height self) in
  let max_x := inject_Z (original_width self - safe_margin) in
  let max_y := inject_Z (original_height self - safe_margin) in
  let actual_x := py_max (inject_Z safe_margin) (py_min max_x actual_x) in
  let actual_y := py_max (inject_Z safe_margin) (py_min max_y actual_y) in
  (py_round actual_x 4, py_round actual_y 4).

(** ** utils/adapter_utils.py *)

(** The adapter configuration: [{name, rules: [{type|target, adjustment: {x, y}}]}];
    a key that is absent is [None]. *)
Record Adjustment : Type := { adj_x : option Q; adj_y : option Q }.
Record Rule : Type := {
  rule_type : option str;
  rule_target : option str;
  rule_adjustment : option Adjustment;
}.
Record Adapter : Type := { adapter_name : option str; adapter_rules : option (list Rule) }.
Record AdapterUtils : Type := { adapters : gmap str Adapter }.

(** [not adapter_id]: None, the empty string and the number zero are false. *)
Definition falsy (v : option value) : bool :=
  match v with
  | None => true
  | Some (VStr s) => match s with [] => true | _ => false end
  | Some (VInt z) => (z =? 0)%Z
  | Some (VFloat q) => Qeq_bool q 0
  end.

(** [self.adapters.get(adapter_id)]: the keys are strings. *)
Definition get_adapter (self : AdapterUtils) (adapter_id : option value) : option Adapter :=
  match adapter_id with
  | Some (VStr s) => adapters self !! s
  | _ => None
  end.

(** [a == b] on [rule.get(...)] and [target_type] *)
Definition opt_str_eqb (a b : option str) : bool := bool_decide (a = b).

(** The loop over the rules of [apply_adjustment]. *)
Fixpoint apply_rules (rules : list Rule) (x y : Q) (target_type : option str) : Q * Q :=
  match rules with
  | [] => (x, y)
  | rule :: rest =>
      if opt_str_eqb (rule_type rule) target_type || opt_str_eqb (rule_target rule) target_type
      then
        let adjustment := default {| adj_x := None; adj_y := None |} (rule_adjustment rule) in
        let adjusted_x := x + default 0 (adj_x adjustment) in
        let adjusted_y := y + default 0 (adj_y adjustment) in
        let adjusted_x := py_max 0 (py_min 1 adjusted_x) in
        let adjusted_y := py_max 0 (py_min 1 adjusted_y) in
        (adjusted_x, adjusted_y)
      else apply_rules rest x y target_type
  end.

Definition apply_adjustment (self : AdapterUtils) (x y : Q)
    (adapter_id : option value) (target_type : option str) : Q * Q :=
  if falsy adapter_id then (x, y)
  else
    match get_adapter self adapter_id with
    | None => (x, y)
    | Some adapter => apply_rules (default [] (adapter_rules adapter)) x y target_type
    end.

(** ** Effects: programs that interact with their environment

    The screen, the model API, the tool handlers (pyautogui), the callbacks
    of the presentation layer, the voice output and the pause event are the
    environment of the action loop.  A program is a tree: it returns, or it
    performs an event and goes on with the environment's answer. *)

Local Open Scope N_scope.

Inductive update_kind : Type := task_paused | task_complete.

(** What the controller appends to the conversation transcript; the texts
    are the ones of vlm_agent.py, every user content but the tool results
    carries the current screenshot. *)
Inductive content : Type :=
| SystemPrompt (system_prompt : str)                        (* role system *)
| TaskAndImage (task_description : str) (base64_image : str)
| ScreenAndImage (base64_image : str)
| ResumedAndImage (reason : option value) (base64_image : str)
| Reply (response_text : str)                               (* role assistant *)
| ToolResults (tool_result : str)
| ToolFailure (e : exn)
| DetectedComplete.

(** The text handed to [step_callback]. *)
Inductive callback_arg : Type :=
| CbCaptureFailed (step : Z)
| CbStep (response_text : str) (step : Z)
| CbManual (intervention_type : str).

Inductive event : Type :=
| BuildSystemPrompt (task_description : str)   (* the prompt assembly of run_task, lines 296-386 *)
| Capture                                      (* capture_screenshot and encode_image_to_base64 *)
| ModelCall (messages : list content)          (* client.chat.completions.create *)
| Invoke (func_name : str) (args : list (str * value))   (* self.tools[func_name]( **args ) *)
| StepUpdate (kind : update_kind) (message : value)      (* self.step_update_callback, in try/except: pass *)
| StepCallback (arg : callback_arg)            (* step_callback *)
| Speak (text : str)                           (* voice_utils.speak / speak_async, in try/except *)
| Wait                                         (* self.pause_event.wait() *)
| Clear.                                       (* self.pause_event.clear() *)

Definition answer (e : event) : Type :=
  match e with
  | BuildSystemPrompt _ => str
  | Capture => result str
  | ModelCall _ => result str
  | Invoke _ _ => result str
  | StepCallback _ => result unit
  | StepUpdate _ _ | Speak _ | Wait | Clear => unit
  end.

Inductive prog (A : Type) : Type :=
| Ret (a : A)
| Vis (e : event) (k : answer e -> prog A).
Arguments Ret {A} a.
Arguments Vis {A} e k.

Fixpoint bind {A B} (p : prog A) (f : A -> prog B) : prog B :=
  match p with
  | Ret a => f a
  | Vis e k => Vis e (fun x => bind (k x) f)
  end.

(** ** utils/tool_utils.py: the executor *)

(** The keys of [self.tools]. *)
Definition tools : list str :=
  [py "mouse_click"; py "double_click"; py "right_click"; py "mouse_hover";
   py "mouse_down"; py "mouse_up"; py "type_text"; py "scroll_window";
   py "close_window"; py "press_windows_key"; py "press_enter"; py "delete_text";
   py "mouse_drag"; py "wait"; py "open_terminal"; py "press_hotkey";
   py "pause_task"; py "complete_task"].

Definition in_tools (func_name : str) : bool := bool_decide (func_name ∈ tools).

(** The three result lines of [execute_tool_calls]. *)
Definition line_result (func_name result : str) : str :=
  py "工具 " ++ func_name ++ py " 执行结果: " ++ result.
Definition line_error (func_name : str) (e : exn) : str :=
  py "执行工具 " ++ func_name ++ py " 时出错: " ++ exn_str e.
Definition line_unknown (func_name : str) : str :=
  py "未知工具: " ++ func_name.

(** [sep.join(l)] *)
Fixpoint join (sep : str) (l : list str) : str :=
  match l with
  | [] => []
  | [a] => a
  | a :: l' => a ++ sep ++ join sep l'
  end.

(** The loop of [execute_tool_calls]; [results] is the list built so far. *)
Fixpoint execute_loop (tool_calls : list ToolCall) (results : list str) : prog (list str) :=
  match tool_calls with
  | [] => Ret results
  | call :: rest =>
      let func_name := name call in
      let args := arguments call in
      if in_tools func_name then
        Vis (Invoke func_name args) (fun r =>
          match r with
          | Ok result => execute_loop rest (results ++ [line_result func_name result])
          | Raise e => execute_loop rest (results ++ [line_error func_name e])
          end)
      else execute_loop rest (results ++ [line_unknown func_name])
  end.

Definition execute_tool_calls (tool_calls : list ToolCall) : prog str :=
  bind (execute_loop tool_calls []) (fun results => Ret (join [newline] results)).

(** ** vlm_agent.py: the agent and the action loop *)

(** An entry of [operation_history]; the time stamp is left out. *)
Record OperationRecord : Type := {
  op_type : str;
  op_position : list (str * str);
  op_success : bool;
  op_result : str;
}.

(** The fields of [VLMAgent] the loop reads and writes.  [pause_event],
    [step_update_callback] and [voice_utils] say whether the object is set
    (not None); the flag of the event itself belongs to the environment. *)
Record VLMAgent : Type := {
  messages : list content;
  operation_history : list OperationRecord;
  last_successful_positions : list (str * list (list (str * str)));
  is_paused : bool;
  pause_event : bool;
  pause_reason : str;
  step_update_callback : bool;
  manual_intervention_detected : bool;
  voice_utils : bool;
}.

Definition set_messages (v : list content) (a : VLMAgent) : VLMAgent :=
  {| messages := v; operation_history := operation_history a;
     last_successful_positions := last_successful_positions a;
     is_paused := is_paused a; pause_event := pause_event a;
     pause_reason := pause_reason a; step_update_callback := step_update_callback a;
     manual_intervention_detected := manual_intervention_detected a;
     voice_utils := voice_utils a |}.
Definition set_history (h : list OperationRecord)
    (p : list (str * list (list (str * str)))) (a : VLMAgent) : VLMAgent :=
  {| messages := messages a; operation_history := h;
     last_successful_positions := p;
     is_paused := is_paused a; pause_event := pause_event a;
     pause_reason := pause_reason a; step_update_callback := step_update_callback a;
     manual_intervention_detected := manual_intervention_detected a;
     voice_utils := voice_utils a |}.
Definition set_paused (b : bool) (reason : str) (a : VLMAgent) : VLMAgent :=
  {| messages := messages a; operation_history := operation_history a;
     last_successful_positions := last_successful_positions a;
     is_paused := b; pause_event := pause_event a;
     pause_reason := reason; step_update_callback := step_update_callback a;
     manual_intervention_detected := manual_intervention_detected a;
     voice_utils := voice_utils a |}.
Definition set_detected (b : bool) (reason : str) (a : VLMAgent) : VLMAgent :=
  {| messages := messages a; operation_history := operation_history a;
     last_successful_positions := last_successful_positions a;
     is_paused := is_paused a; pause_event := pause_event a;
     pause_reason := reason; step_update_callback := step_update_callback a;
     manual_intervention_detected := b;
     voice_utils := voice_utils a |}.

(** What [run_task] returns. *)
Inductive task_result : Type :=
| Completed (message : value)     (* f"任务已完成: {message}" *)
| Failed                          (* "任务执行失败,可能是缺少额度" *)
| LastReply (response_text : str) (* the content of the last assistant message *)
| NoReply.                        (* "任务已完成，但没有可用的回复内容" *)

(** How one pass of the loop body ends. *)
Inductive control : Type :=
| Next                            (* the body ran to its end *)
| Break
| Return (r : task_result).

(** The monad of the agent's methods: the agent's fields are state, an
    exception ends the computation until a handler takes it. *)
Definition M (A : Type) : Type := VLMAgent -> prog (result A * VLMAgent).

Definition ret {A} (a : A) : M A := fun ag => Ret (Ok a, ag).
Definition raise {A} (e : exn) : M A := fun ag => Ret (Raise e, ag).
Definition of_result {A} (r : result A) : M A := fun ag => Ret (r, ag).
Definition mbind {A B} (m : M A) (f : A -> M B) : M B :=
  fun ag => bind (m ag) (fun ra =>
    match ra.1 with
    | Ok a => f a ra.2
    | Raise e => Ret (Raise e, ra.2)
    end).
Definition try_except {A} (m : M A) (handler : exn -> M A) : M A :=
  fun ag => bind (m ag) (fun ra =>
    match ra.1 with
    | Ok a => Ret (Ok a, ra.2)
    | Raise e => handler e ra.2
    end).
Definition perform (e : event) : M (answer e) := fun ag => Vis e (fun a => Ret (Ok a, ag)).
Definition lift {A} (p : prog A) : M A := fun ag => bind p (fun a => Ret (Ok a, ag)).
Definition get_self : M VLMAgent := fun ag => Ret (Ok ag, ag).
Definition modify (f : VLMAgent -> VLMAgent) : M unit := fun ag => Ret (Ok tt, f ag).

Notation "'let*' x ':=' c 'in' k" := (mbind c (fun x => k))
  (at level 10, x name, c at level 100, k at level 200).
Notation "c ';;' k" := (mbind c (fun _ => k))
  (at level 100, k at level 200, right associativity).

Definition append_message (c : content) : M unit :=
  modify (fun ag => set_messages (messages ag ++ [c]) ag).

(** [l[-n:]] *)
Definition last_n {A} (n : nat) (l : list A) : list A := drop (length l - n) l.

(** [record_operation] *)
Definition record_operation (operation_type : str) (position_info : list (str * str))
    (success : bool) (result_message : str) : M unit :=
  modify (fun ag =>
    let operation_record :=
      {| op_type := operation_type; op_position := position_info;
         op_success := success; op_result := result_message |} in
    let positions := last_successful_positions ag in
    let positions :=
      if success && negb (bool_decide (position_info = [])) then
        let old := default [] (dict_get operation_type positions) in
        dict_set operation_type (last_n 5 (old ++ [position_info])) positions
      else positions in
    set_history (operation_history ag ++ [operation_record]) positions ag).

(** [self.step_update_callback(...)] when one is set; what it raises is passed over. *)
Definition notify (kind : update_kind) (message : value) : M unit :=
  let* ag := get_self in
  if step_update_callback ag then perform (StepUpdate kind message) else ret tt.

(** [if self.pause_event: self.pause_event.wait(); self.pause_event.clear()] *)
Definition wait_for_continue : M unit :=
  let* ag := get_self in
  if pause_event ag then (perform Wait;; perform Clear) else ret tt.

Definition speak (text : str) : M unit :=
  let* ag := get_self in
  if voice_utils ag then perform (Speak text) else ret tt.

Definition call_step_callback (step_callback : bool) (arg : callback_arg) : M unit :=
  if step_callback then (let* r := perform (StepCallback arg) in of_result r) else ret tt.

Definition capture_screenshot : M str :=
  let* r := perform Capture in of_result r.

Definition manual_intervention_patterns : list str :=
  [py "登录"; py "login"; py "sign in"; py "登陆"; py "登录验证"; py "双因子验证"; py "2fa";
   py "账号"; py "密码"; py "用户名"; py "user"; py "password"; py "account";
   py "购买"; py "支付"; py "pay"; py "purchase"; py "付款"; py "结算"; py "确认支付"; py "支付方式";
   py "订单"; py "下单"; py "立即购买"; py "立即支付"; py "购物车"; py "结算";
   py "验证码"; py "captcha"; py "verification code"; py "验证"; py "安全验证"; py "security check";
   py "拖动验证"; py "滑块验证"; py "短信验证"; py "邮箱验证"; py "人机验证";
   py "授权"; py "permission"; py "权限"; py "同意"; py "accept"; py "确认授权";
   py "实名认证"; py "身份验证"; py "银行卡"; py "身份证"; py "实名";
   py "邮箱验证"; py "手机验证"; py "绑定手机"; py "绑定邮箱"].

Definition user_input_keywords : list str :=
  [py "需要用户"; py "请用户"; py "用户帮忙"; py "用户操作"; py "请输入"; py "请选择";
   py "等待"; py "请稍候"].

Section Agent.
Context {U : Unicode}.

(** [detect_manual_intervention_required]: the first pattern found, if any. *)
Definition detect_manual_intervention_required (model_response : str) : option str :=
  let response_lower := py_lower model_response in
  find (fun pattern => contains pattern response_lower) manual_intervention_patterns.

(** [handle_manual_intervention_pause] *)
Definition handle_manual_intervention_pause (intervention_type : str)
    (step_callback : bool) (step : Z) : M unit :=
  record_operation (py "manual_intervention") [(py "type", intervention_type)] false
    (py "检测到需要手动干预: " ++ intervention_type);;
  speak (py "检测到" ++ intervention_type ++ py "操作，任务已暂停。请手动完成操作后继续。");;
  call_step_callback step_callback (CbManual intervention_type);;
  modify (set_paused true intervention_type);;
  notify task_paused (VStr intervention_type);;
  wait_for_continue;;
  modify (set_paused false []).

(** [check_and_handle_pause] *)
Definition check_and_handle_pause (step_callback : bool) (step : Z) : M bool :=
  let* ag := get_self in
  if manual_intervention_detected ag then
    modify (fun ag => set_detected false (pause_reason ag) ag);;
    handle_manual_intervention_pause (pause_reason ag) step_callback step;;
    ret true
  else ret false.

(** The loop over [tool_calls] after their execution (lines 569-623):
    [Some r] is the return of run_task at a complete_task call. *)
Fixpoint scan_calls (tool_calls : list ToolCall) : M (option task_result) :=
  match tool_calls with
  | [] => ret None
  | call :: rest =>
      if str_eqb (name call) (py "pause_task") then
        let reason := default (VStr (py "用户手动操作")) (dict_get (py "reason") (arguments call)) in
        notify task_paused reason;;
        wait_for_continue;;
        let* base64_image := capture_screenshot in
        append_message (ResumedAndImage (Some reason) base64_image);;
        scan_calls rest                                         (* continue *)
      else if str_eqb (name call) (py "complete_task") then
        let message := default (VStr (py "任务已完成")) (dict_get (py "message") (arguments call)) in
        notify task_complete message;;
        ret (Some (Completed message))
      else scan_calls rest
  end.

(** The branch of the body for a response with tool calls (lines 557-638). *)
Definition run_tool_calls (tool_calls : list ToolCall) : M control :=
  let* r :=
    try_except
      (let* tool_result := lift (execute_tool_calls tool_calls) in
       let* returned := scan_calls tool_calls in
       match returned with
       | Some res => ret (inr res)
       | None => ret (inl (ToolResults tool_result))
       end)
      (fun e => ret (inl (ToolFailure e))) in
  match r with
  | inr res => ret (Return res)
  | inl tool_result => append_message tool_result;; ret Next
  end.

(** The branch of the body for a response without tool calls (lines 639-725). *)
Definition run_no_tool_calls (response_text : str) : M control :=
  match detect_manual_intervention_required response_text with
  | Some intervention_type =>
      modify (set_detected true intervention_type);;
      notify task_paused (VStr intervention_type);;
      wait_for_continue;;
      ret Next
  | None =>
      let need_user_input :=
        existsb (fun keyword => contains keyword (py_lower response_text)) user_input_keywords in
      if need_user_input then
        speak (py "需要用户操作，请查看屏幕并完成操作，完成后请点击继续");;
        notify task_paused (VStr (py "需要用户操作"));;
        wait_for_continue;;
        let* base64_image := capture_screenshot in
        append_message (ResumedAndImage None base64_image);;
        ret Next
      else
        append_message DetectedComplete;;
        ret Break
  end.

(** The first part of the loop body (lines 397-500): the screenshot, the
    user message that carries it, and the pause that a detected intervention
    of the step before asked for. *)
Definition perceive (task_description : str) (step_callback : bool) (step : Z) : M unit :=
  let* base64_image :=
    try_except capture_screenshot
      (fun e =>
         match e with
         | PermissionError _ =>
             speak (py "屏幕截图失败，任务已暂停。请手动处理后继续。");;
             record_operation (py "screenshot") [(py "error", exn_str e)] false
               (py "屏幕截图失败，任务暂停");;
             call_step_callback step_callback (CbCaptureFailed step);;
             raise e
         | _ =>
             record_operation (py "screenshot") [(py "error", exn_str e)] false
               (py "屏幕截图其他错误");;
             raise e
         end) in
  append_message (if (step =? 1)%Z then TaskAndImage task_description base64_image
                  else ScreenAndImage base64_image);;
  let* paused := check_and_handle_pause step_callback step in
  if paused : bool then
    let* base64_image := capture_screenshot in
    append_message (ResumedAndImage None base64_image)
  else ret tt.

(** The last part of the loop body (lines 510-725): what is done with the
    model's response. *)
Definition act (step_callback : bool) (step : Z) (response : result str) : M control :=
  let* response_text := of_result response in
  append_message (Reply response_text);;
  call_step_callback step_callback (CbStep response_text step);;
  let* tool_calls := of_result (parse_tool_calls response_text) in
  match tool_calls with
  | _ :: _ => run_tool_calls tool_calls
  | [] => run_no_tool_calls response_text
  end.

(** The body of the while loop of [run_task] (lines 394-732): perceive, call
    the model, act; any exception ends the task as failed. *)
Definition step_body (task_description : str) (step_callback : bool) (step : Z) : M control :=
  try_except
    (perceive task_description step_callback step;;
     let* ag := get_self in
     let* response := perform (ModelCall (messages ag)) in
     act step_callback step response)
    (fun _ => ret (Return Failed)).

(** [while step < max_steps: step += 1; ...]; [None] when [fuel] passes of
    the body were not enough to leave the loop. *)
Fixpoint while_loop (fuel : nat) (task_description : str) (max_steps : Z)
    (step_callback : bool) (step : Z) : M (option (option task_result)) :=
  match fuel with
  | O => ret None
  | S fuel' =>
      if (step <? max_steps)%Z then
        let step := (step + 1)%Z in
        let* c := step_body task_description step_callback step in
        match c with
        | Next => while_loop fuel' task_description max_steps step_callback step
        | Break => ret (Some None)
        | Return r => ret (Some (Some r))
        end
      else ret (Some None)
  end.

(** The lines after the loop: the last reply of the assistant. *)
Definition last_reply (msgs : list content) : task_result :=
  match find (fun m => match m with Reply _ => true | _ => false end) (rev msgs) with
  | Some (Reply response_text) => LastReply response_text
  | _ => NoReply
  end.

Definition run_task_fuel (fuel : nat) (task_description : str) (max_steps : Z)
    (step_callback : bool) : M (option task_result) :=
  let* system_prompt := perform (BuildSystemPrompt task_description) in
  modify (set_messages [SystemPrompt system_prompt]);;
  let* exit := while_loop fuel task_description max_steps step_callback 0 in
  match exit with
  | None => ret None
  | Some (Some r) => ret (Some r)
  | Some None => let* ag := get_self in ret (Some (last_reply (messages ag)))
  end.

(** [run_task]: the loop leaves within [max_steps] passes, one more is
    given for the test that ends it. *)
Definition run_task (task_description : str) (max_steps : Z) (step_callback : bool)
  : M (option task_result) :=
  run_task_fuel (S (Z.to_nat max_steps)) task_description max_steps step_callback.

End Agent.

(** ** Running a program against an environment

    A run is observed as a trace of labels: the events of the program with
    the environment's answers, and the firings of the release signal
    ([pause_event.set()], the Continue button of the presentation layer). *)

Inductive label : Type :=
| LPrompt (task_description system_prompt : str)
| LCapture (r : result str)
| LModelCall (messages : list content) (r : result str)
| LInvoke (func_name : str) (args : list (str * value)) (r : result str)
| LStepUpdate (kind : update_kind) (message : value)
| LStepCallback (arg : callback_arg) (r : result unit)
| LSpeak (text : str)
| LWait
| LClear
| LRelease.

Definition label_of (e : event) : answer e -> label :=
  match e with
  | BuildSystemPrompt t => fun a => LPrompt t a
  | Capture => fun a => LCapture a
  | ModelCall m => fun a => LModelCall m a
  | Invoke f args => fun a => LInvoke f args a
  | StepUpdate k m => fun _ => LStepUpdate k m
  | StepCallback c => fun a => LStepCallback c a
  | Speak t => fun _ => LSpeak t
  | Wait => fun _ => LWait
  | Clear => fun _ => LClear
  end.

(** The environment: its answer to the i-th event of the run, and whether
    the release signal fires while the program is at its i-th event. *)
Record env : Type := {
  answers : nat -> forall e : event, answer e;
  releases : nat -> bool;
}.

(** The flag of the pause event (threading.Event): [wait] returns only once
    the flag is set, [clear] resets it, nothing else touches it. *)
Definition gate (e : event) (flag : bool) : option bool :=
  match e with
  | Wait => if flag then Some flag else None
  | Clear => Some false
  | _ => Some flag
  end.

Inductive outcome (A : Type) : Type :=
| Done (a : A)
| Blocked.              (* waiting at pause_event.wait() for a signal that never comes *)
Arguments Done {A} a.
Arguments Blocked {A}.

Fixpoint interp {A} (w : env) (p : prog A) (i : nat) (flag : bool) : outcome A * list label :=
  match p with
  | Ret a => (Done a, [])
  | Vis e k =>
      let fired := if releases w i then [LRelease] else [] in
      match gate e (flag || releases w i) with
      | None => (Blocked, fired)
      | Some flag' =>
          let a := answers w i e in
          let r := interp w (k a) (S i) flag' in
          (r.1, fired ++ label_of e a :: r.2)
      end
  end.

(** The flag after a trace. *)
Fixpoint flag_after (flag : bool) (t : list label) : bool :=
  match t with
  | [] => flag
  | LRelease :: t' => flag_after true t'
  | LClear :: t' => flag_after false t'
  | _ :: t' => flag_after flag t'
  end.

Definition is_release (l : label) : bool :=
  match l with LRelease => true | _ => false end.
Definition is_model_call (l : label) : bool :=
  match l with LModelCall _ _ => true | _ => false end.
Definition is_wait (l : label) : bool :=
  match l with LWait => true | _ => false end.

(** The events of a trace: the labels of the program itself. *)
Definition events (t : list label) : list label :=
  List.filter (fun l => negb (is_release l)) t.

(** ** A program logic over the history of events

    [wp I p h Q]: started after the history [h] (the latest event first),
    every event of [p] leaves a history that satisfies [I], and when [p]
    returns [a] after the history [h'], [Q a h'] holds; whatever the
    environment answers. *)
Fixpoint wp {A} (I : list label -> Prop) (p : prog A) (h : list label)
    (Q : A -> list label -> Prop) : Prop :=
  match p with
  | Ret a => Q a h
  | Vis e k => forall a, I (label_of e a :: h) /\ wp I (k a) (label_of e a :: h) Q
  end.

(** ** utils/tool_utils.py: mouse_click on a pointer device

    pyautogui is modelled as a device that does what it is asked and never
    raises: [moveTo] leaves the pointer at the requested point (cut to
    integers), [click] presses at the pointer.  The log keeps the input
    events in the order they happen. *)

Inductive input_event : Type :=
| Moved (x y : Z)
| Clicked (x y : Z) (button : str) (clicks : Z).

Record Device : Type := {
  screen_size : Z * Z;            (* pyautogui.size() *)
  pointer : Z * Z;                (* pyautogui.position() *)
  input_log : list input_event;
}.

(** [int(x)] of a float: towards zero. *)
Definition py_trunc (x : Q) : Z := if Qle_bool 0 x then Qfloor x else Qceiling x.

Definition moveTo (x y : Q) (d : Device) : Device :=
  {| screen_size := screen_size d; pointer := (py_trunc x, py_trunc y);
     input_log := input_log d ++ [Moved (py_trunc x) (py_trunc y)] |}.

(** [pyautogui.click(button=..., clicks=...)] at the pointer *)
Definition click (button : str) (clicks : Z) (d : Device) : Device :=
  {| screen_size := screen_size d; pointer := pointer d;
     input_log := input_log d ++ [Clicked (pointer d).1 (pointer d).2 button clicks] |}.

(** [pyautogui.click(x, y, button=..., clicks=...)] *)
Definition click_at (x y : Z) (button : str) (clicks : Z) (d : Device) : Device :=
  click button clicks (moveTo (inject_Z x) (inject_Z y) d).

(** [str(n)] of an int *)
Fixpoint digits_of (fuel : nat) (n : N) (acc : str) : str :=
  match fuel with
  | O => acc
  | S fuel' =>
      let acc := (48 + n mod 10) :: acc in
      if n <? 10 then acc else digits_of fuel' (n / 10) acc
  end.
Definition str_of_Z (z : Z) : str :=
  let n := Z.to_N (Z.abs z) in
  (if (z <? 0)%Z then py "-" else []) ++ digits_of (S (N.to_nat (N.log2 n))) n [].

(** [int(v ** 0.5)] for [v >= 0] *)
Definition int_sqrt (v : Q) : Z := Z.sqrt (Qfloor v).

(** The micro-corrections, [for i in range(steps)], from [i] on. *)
Fixpoint correction_moves (n : nat) (i : Z) (final_x final_y step_x step_y : Q)
    (d : Device) : Device :=
  match n with
  | O => d
  | S n' =>
      let temp_x := (final_x + step_x * inject_Z (i + 1))%Q in
      let temp_y := (final_y + step_y * inject_Z (i + 1))%Q in
      correction_moves n' (i + 1) final_x final_y step_x step_y (moveTo temp_x temp_y d)
  end.

Definition Qabs' (x : Q) : Q := if Qltb x 0 then Qopp x else x.

(** The [try] block of [mouse_click] (lines 188-251): [Raise] is the
    exception the [except] clause takes. *)
Definition mouse_click_try (actual_x actual_y : Q) (button : str) (clicks : Z)
    (move_first : bool) (d : Device) : Device * result str :=
  let current_x := inject_Z (pointer d).1 in
  let current_y := inject_Z (pointer d).2 in
  let distance_sq := ((current_x - actual_x) * (current_x - actual_x)
                      + (current_y - actual_y) * (current_y - actual_y))%Q in
  let click_x := round_half_even actual_x in
  let click_y := round_half_even actual_y in
  if move_first || Qltb (50 * 50) distance_sq then
    let intermediate_x := (actual_x + (actual_x - current_x) * (8 # 10))%Q in
    let intermediate_y := (actual_y + (actual_y - current_y) * (8 # 10))%Q in
    let d :=
      if Qltb 10 (Qabs' (intermediate_x - current_x)) || Qltb 10 (Qabs' (intermediate_y - current_y))
      then moveTo intermediate_x intermediate_y d else d in
    let d := moveTo actual_x actual_y d in
    let final_x := inject_Z (pointer d).1 in
    let final_y := inject_Z (pointer d).2 in
    let x_error := Qabs' (final_x - actual_x) in
    let y_error := Qabs' (final_y - actual_y) in
    let d :=
      if Qltb 2 x_error || Qltb 2 y_error then
        let correction_x := (actual_x - final_x)%Q in
        let correction_y := (actual_y - final_y)%Q in
        let steps := Z.max (py_trunc (py_max x_error y_error / 2)) 1 in
        let step_x := (correction_x / inject_Z steps)%Q in
        let step_y := (correction_y / inject_Z steps)%Q in
        correction_moves (Z.to_nat steps) 0 final_x final_y step_x step_y d
      else d in
    let final_x := (pointer d).1 in
    let final_y := (pointer d).2 in
    let d := click button clicks d in
    (d, Ok (py "已移动并" ++ py "在坐标 (" ++ str_of_Z click_x ++ py ", " ++ str_of_Z click_y
            ++ py ") 处" ++ str_of_Z clicks ++ py "次" ++ button ++ py "键点击（实际位置: ("
            ++ str_of_Z final_x ++ py ", " ++ str_of_Z final_y ++ py ")，移动距离: "
            ++ str_of_Z (int_sqrt distance_sq) ++ py "像素，误差: X"
            ++ str_of_Z (py_trunc x_error) ++ py "px, Y" ++ str_of_Z (py_trunc y_error)
            ++ py "px）"))
  else
    (* the pointer is near: click where it is; x_error and y_error were never
       assigned, so building the result raises UnboundLocalError *)
    let d := click button clicks d in
    (d, Raise (Error (py "local variable 'x_error' referenced before assignment"))).

(** [mouse_click(x, y, button, clicks, adapter_id, move_first)] *)
Definition mouse_click (adapter_utils : AdapterUtils) (coordinate_converter : CoordinateConverter)
    (x y : Q) (button : str) (clicks : Z) (adapter_id : option value) (move_first : bool)
    (d : Device) : Device * str :=
  let '(adjusted_x, adjusted_y) := apply_adjustment adapter_utils x y adapter_id (Some (py "click")) in
  let '(actual_x, actual_y) :=
    convert_proportion_to_actual coordinate_converter adjusted_x adjusted_y in
  let '(screen_width, screen_height) := screen_size d in
  let actual_x := py_max (inject_Z safe_margin) (py_min (inject_Z (screen_width - safe_margin)) actual_x) in
  let actual_y := py_max (inject_Z safe_margin) (py_min (inject_Z (screen_height - safe_margin)) actual_y) in
  match mouse_click_try actual_x actual_y button clicks move_first d with
  | (d, Ok text) => (d, text)
  | (d, Raise e) =>
      let backup_x := round_half_even actual_x in
      let backup_y := round_half_even actual_y in
      let d := click_at backup_x backup_y button clicks d in
      (d, py "使用备用方式在坐标 (" ++ str_of_Z backup_x ++ py ", " ++ str_of_Z backup_y
          ++ py ") 处" ++ str_of_Z clicks ++ py "次" ++ button ++ py "键点击")
  end.


(** ** Notions the statements below use *)

(** Both coordinates lie in [[margin, dimension - margin]]. *)
Definition in_safe_area (self : CoordinateConverter) (p : Q * Q) : Prop :=
  (inject_Z safe_margin <= p.1 <= inject_Z (original_width self - safe_margin))%Q /\
  (inject_Z safe_margin <= p.2 <= inject_Z (original_height self - safe_margin))%Q.

Definition in_unit_square (p : Q * Q) : Prop :=
  (0 <= p.1 <= 1)%Q /\ (0 <= p.2 <= 1)%Q.

(** The adjustment as the specification words it: the first rule whose type
    or target equals the target type, its offset added, the result clamped. *)
Definition rule_matches (target_type : option str) (rule : Rule) : bool :=
  opt_str_eqb (rule_type rule) target_type || opt_str_eqb (rule_target rule) target_type.
Definition rule_offset (rule : Rule) : Q * Q :=
  match rule_adjustment rule with
  | Some a => (default 0%Q (adj_x a), default 0%Q (adj_y a))
  | None => (0%Q, 0%Q)
  end.
Definition clamp01 (v : Q) : Q := py_max 0 (py_min 1 v).
Definition adjustment_spec (self : AdapterUtils) (x y : Q)
    (adapter_id : option value) (target_type : option str) : Q * Q :=
  match get_adapter self adapter_id with
  | None => (x, y)
  | Some adapter =>
      match find (rule_matches target_type) (default [] (adapter_rules adapter)) with
      | Some rule => (clamp01 (x + (rule_offset rule).1), clamp01 (y + (rule_offset rule).2))
      | None => (x, y)
      end
  end.

Definition is_click (ev : input_event) : bool :=
  match ev with Clicked _ _ _ _ => true | Moved _ _ => false end.

(** An adapter registry with one adapter, as an adapter file
    [browser.json] gives it. *)
Definition example_adapters : AdapterUtils :=
  {| adapters :=
       {[ py "browser" :=
            {| adapter_name := Some (py "Browser");
               adapter_rules :=
                 Some [ {| rule_type := Some (py "scroll"); rule_target := None;
                           rule_adjustment := Some {| adj_x := Some (1 # 10); adj_y := None |} |};
                        {| rule_type := None; rule_target := Some (py "click");
                           rule_adjustment :=
                             Some {| adj_x := Some (6 # 10); adj_y := Some (-(1 # 10))%Q |} |} ] |} ]} |}.

(** What it means for a pattern to match, stated without a search order:
    [matched r u rest g g'] says that [r] can consume [u] when [rest] follows,
    taking the groups from [g] to [g']. *)
Fixpoint matched (r : regex) (u rest : str) (g g' : groups) : Prop :=
  match r with
  | Eps => u = [] /\ g' = g
  | Chr p => exists c, u = [c] /\ p c = true /\ g' = g
  | Lit l => u = l /\ g' = g
  | Cat a b =>
      exists u1 u2 g1, u = u1 ++ u2 /\ matched a u1 (u2 ++ rest) g g1 /\ matched b u2 rest g1 g'
  | Alt a b => matched a u rest g g' \/ matched b u rest g g'
  | Star p | Lazy p => forallb p u = true /\ g' = g
  | Group i a => exists g1, matched a u rest g g1 /\ g' = (i, u) :: g1
  | Ahead a => u = [] /\ exists v rest', rest = v ++ rest' /\ matched a v rest' g g'
  | Eos => u = [] /\ at_end rest = true /\ g' = g
  end.

(** Patterns without lookahead: for these the matcher finds a match
    whenever one exists. *)
Fixpoint no_lookahead (r : regex) : Prop :=
  match r with
  | Cat a b | Alt a b => no_lookahead a /\ no_lookahead b
  | Group _ a => no_lookahead a
  | Ahead _ => False
  | _ => True
  end.

(** An identifier, and a span [fname ws ( body )] whose body holds no
    closing parenthesis: what the call patterns isolate. *)
Definition is_identifier (s : str) : Prop :=
  exists c cs, s = c :: cs /\ ident_start c = true /\ forallb ident_char cs = true.

Definition call_span {U : Unicode} (fname m : str) : Prop :=
  exists ws body,
    forallb is_space ws = true /\ forallb not_rparen body = true /\
    m = fname ++ ws ++ py "(" ++ body ++ py ")".

Definition option_list {A} (o : option A) : list A :=
  match o with Some a => [a] | None => [] end.

(** The trace of a run respects the gate: every return of [wait] happens
    with the flag set. *)
Fixpoint gate_ok (flag : bool) (t : list label) : Prop :=
  match t with
  | [] => True
  | LRelease :: t' => gate_ok true t'
  | LClear :: t' => gate_ok false t'
  | LWait :: t' => flag = true /\ gate_ok flag t'
  | _ :: t' => gate_ok flag t'
  end.

(** The executor as the specification words it: one result line per call,
    in parse order; [rs] are the outcomes of the handlers that were run. *)
Fixpoint exec_lines (tool_calls : list ToolCall) (rs : list (result str)) : list str :=
  match tool_calls with
  | [] => []
  | call :: rest =>
      if in_tools (name call) then
        match rs with
        | Ok result :: rs' => line_result (name call) result :: exec_lines rest rs'
        | Raise e :: rs' => line_error (name call) e :: exec_lines rest rs'
        | [] => []
        end
      else line_unknown (name call) :: exec_lines rest rs
  end.

(** The handler invocations of a batch, in order. *)
Fixpoint exec_labels (tool_calls : list ToolCall) (rs : list (result str)) : list label :=
  match tool_calls with
  | [] => []
  | call :: rest =>
      if in_tools (name call) then
        match rs with
        | r :: rs' => LInvoke (name call) (arguments call) r :: exec_labels rest rs'
        | [] => []
        end
      else exec_labels rest rs
  end.

(** The calls of a batch that have a handler. *)
Definition known_calls (tool_calls : list ToolCall) : list ToolCall :=
  List.filter (fun call => in_tools (name call)) tool_calls.

(** The number of model calls in a history. *)
Definition model_calls (h : list label) : nat := length (List.filter is_model_call h).

(** The result line a call may get: unknown tool, result, or error. *)
Definition line_for (call : ToolCall) (line : str) : Prop :=
  (in_tools (name call) = false /\ line = line_unknown (name call)) \/
  (in_tools (name call) = true /\
   ((exists result, line = line_result (name call) result) \/
    (exists e, line = line_error (name call) e))).

(** Every event so far was the run of a handler. *)
Definition only_invokes (h : list label) : Prop :=
  Forall (fun l => match l with LInvoke _ _ _ => True | _ => False end) h.

(** The labels every part of the loop body but the model call itself may
    produce, for an agent whose pause event is set ([pe]) or not: no model
    call, and no [wait] or [clear] without a pause event. *)
Definition quiet (pe : bool) (l : label) : bool :=
  match l with
  | LModelCall _ _ | LPrompt _ _ | LRelease => false
  | LWait | LClear => pe
  | _ => true
  end.

(** [emits pe S m]: run by an agent whose pause event is set or not as [pe]
    says, the method [m] produces only labels of [S] and leaves the pause
    event as it is.  Stated for the program logic: any property [P] of the
    history that labels of [S] preserve, while establishing the invariant
    [I], is preserved by [m]. *)
Definition emits {A} (pe : bool) (S : label -> bool) (m : M A) : Prop :=
  forall (I P : list label -> Prop) (ag : VLMAgent) (h : list label)
         (Q : result A * VLMAgent -> list label -> Prop),
    pause_event ag = pe ->
    (forall l h', S l = true -> P h' -> I (l :: h') /\ P (l :: h')) ->
    P h ->
    (forall r ag' h', P h' -> pause_event ag' = pe -> Q (r, ag') h') ->
    wp I (m ag) h Q.

(** A label of the gate: the return of a [wait], or a [clear]. *)
Definition is_gate (l : label) : bool :=
  match l with LWait | LClear => true | _ => false end.

(** ** Example environments and agents *)

Definition count_replies (msgs : list content) : nat :=
  length (List.filter (fun c => match c with Reply _ => true | _ => false end) msgs).

(** An environment whose model gives the responses of a script, one after
    the other (and fails once the script is over), whose screen captures and
    tool handlers succeed, and whose release signal fires as [rel] says. *)
Definition scripted (responses : list str) (rel : nat -> bool) : env :=
  {| answers := fun _ e =>
       match e return answer e with
       | BuildSystemPrompt _ => py "system prompt"
       | Capture => Ok (py "screenshot")
       | ModelCall msgs =>
           match nth_error responses (count_replies msgs) with
           | Some response => Ok response
           | None => Raise (Error (py "insufficient quota"))
           end
       | Invoke _ _ => Ok (py "done")
       | StepCallback _ => Ok tt
       | StepUpdate _ _ | Speak _ | Wait | Clear => tt
       end;
     releases := rel |}.

(** A fresh agent, as [VLMAgent.__init__] leaves it, with the pause event
    and the callback of the presentation layer set or not. *)
Definition new_agent (with_pause_event with_callback : bool) : VLMAgent :=
  {| messages := []; operation_history := []; last_successful_positions := [];
     is_paused := false; pause_event := with_pause_event; pause_reason := [];
     step_update_callback := with_callback; manual_intervention_detected := false;
     voice_utils := false |}.

(** A response that asks for a pause, and one that reports an intervention
    in prose. *)
Definition pause_response : str :=
  py "pause_task(reason=" ++ [quote] ++ py "login" ++ [quote] ++ py ")<|tool_call|>".
Definition login_response : str := py "Please login first".

(** A response whose batch lists a click, then complete_task, then one more call. *)
Definition complete_response : str :=
  py "mouse_click(x=0.1, y=0.1)<|tool_call|> complete_task(message=" ++ [quote] ++ py "done"
  ++ [quote] ++ py ")<|tool_call|> type_text(x=0.1, y=0.2, text=" ++ [quote] ++ py "hi"
  ++ [quote] ++ py ")<|tool_call|>".

(** ** Monitors of the history (the latest event first) *)

(** The kind of a label, to display traces. *)
Inductive tag : Type :=
| TPrompt | TCapture | TModel | TInvoke (func_name : str) | TUpdate | TCallback | TSpeak
| TWait | TClear | TRelease.

Definition tag_of (l : label) : tag :=
  match l with
  | LPrompt _ _ => TPrompt
  | LCapture _ => TCapture
  | LModelCall _ _ => TModel
  | LInvoke f _ _ => TInvoke f
  | LStepUpdate _ _ => TUpdate
  | LStepCallback _ _ => TCallback
  | LSpeak _ => TSpeak
  | LWait => TWait
  | LClear => TClear
  | LRelease => TRelease
  end.

(** The responses of the model calls of a trace. *)
Definition responses_of (t : list label) : list (result str) :=
  flat_map (fun l => match l with LModelCall _ r => [r] | _ => [] end) t.

Definition is_invoke (l : label) : bool :=
  match l with LInvoke _ _ _ => true | _ => false end.

(** A capture or a progress callback that raised. *)
Definition is_failure (l : label) : bool :=
  match l with
  | LCapture (Raise _) | LStepCallback _ (Raise _) => true
  | _ => false
  end.

(** The batch has a call of that name. *)
Definition has_call (func_name : str) (tool_calls : list ToolCall) : bool :=
  existsb (fun call => str_eqb (name call) func_name) tool_calls.

(** The message [run_task] returns for a batch: that of its first
    complete_task call (the default when the call names none). *)
Definition completion_message (tool_calls : list ToolCall) : value :=
  match find (fun call => str_eqb (name call) (py "complete_task")) tool_calls with
  | Some call => default (VStr (py "任务已完成")) (dict_get (py "message") (arguments call))
  | None => VStr (py "任务已完成")
  end.

Section Monitors.
Context {U : Unicode}.

(** The parsed batch of a response holds a pause_task (complete_task) call. *)
Definition response_has (func_name : str) (r : result str) : bool :=
  match r with
  | Ok response_text =>
      match parse_tool_calls response_text with
      | Ok tool_calls => has_call func_name tool_calls
      | Raise _ => false
      end
  | Raise _ => false
  end.

(** Since the latest model call, if its batch asked for a pause, a [wait]
    has returned. *)
Fixpoint waited (h : list label) : bool :=
  match h with
  | [] => true
  | LWait :: _ => true
  | LModelCall _ r :: _ => negb (response_has (py "pause_task") r)
  | _ :: h' => waited h'
  end.

(** The latest model call gave a batch with complete_task, and no capture
    and no progress callback has failed since. *)
Fixpoint completing (h : list label) : bool :=
  match h with
  | [] => false
  | LModelCall _ r :: _ => response_has (py "complete_task") r
  | l :: h' => if is_failure l then false else completing h'
  end.

End Monitors.

(** The response of the latest model call, and the events since (the
    latest first). *)
Fixpoint last_response (h : list label) : option (result str) :=
  match h with
  | [] => None
  | LModelCall _ r :: _ => Some r
  | _ :: h' => last_response h'
  end.
Fixpoint since_call (h : list label) : list label :=
  match h with
  | [] => []
  | LModelCall _ _ :: _ => []
  | l :: h' => l :: since_call h'
  end.

(** Every [wait] of a program is followed at once by a [clear]. *)
Fixpoint paired {A} (p : prog A) : Prop :=
  match p with
  | Ret _ => True
  | Vis e k =>
      (match e as e0 return (answer e0 -> prog A) -> Prop with
       | Wait => fun k0 => exists k', k0 tt = Vis Clear k'
       | _ => fun _ => True
       end k) /\
      forall a, paired (k a)
  end.

(** The invariant of the pause gate: a model call is issued only once a
    [wait] has returned since the batch that asked for a pause. *)
Definition waits_before_call {U : Unicode} (h : list label) : Prop :=
  match h with
  | LModelCall _ _ :: h' => waited h' = true
  | _ => True
  end.

(** [paired], for a method of the agent. *)
Definition pairedM {A} (m : M A) : Prop := forall ag, paired (m ag).

Definition is_wait_event (e : event) : bool :=
  match e with Wait => true | _ => false end.

(** The pause gate as the specification words it: once a response with a
    pause_task call has come, every later model call is preceded by a firing
    of the release signal that came after that response. *)
Definition pause_gate_property {U : Unicode} (t : list label) : Prop :=
  forall t1 m text t2 m' r' t3,
    t = t1 ++ LModelCall m (Ok text) :: t2 ++ LModelCall m' r' :: t3 ->
    response_has (py "pause_task") (Ok text) = true ->
    In LRelease t2.

(** Two runs of an agent with a pause event, the flag down at the start.  In
    the first the model asks for a pause once and the release signal fires
    once, during the wait.  In the second the model asks twice, and the
    signal fires twice around the first resume: during the wait, and once
    more right after the [clear]. *)
Definition run_released_once : outcome (result (option task_result) * VLMAgent) * list label :=
  interp (scripted [pause_response; py "all set"] (fun i => Nat.eqb i 5))
    (run_task (U := ascii_only) (py "open the mail") 5 false (new_agent true true)) 0 false.

Definition run_released_twice : outcome (result (option task_result) * VLMAgent) * list label :=
  interp (scripted [pause_response; pause_response; py "all set"]
            (fun i => Nat.eqb i 5 || Nat.eqb i 7))
    (run_task (U := ascii_only) (py "open the mail") 5 false (new_agent true true)) 0 false.

(** The messages and the response of a model call. *)
Definition call_messages (l : label) : list content :=
  match l with LModelCall m _ => m | _ => [] end.
Definition call_response (l : label) : result str :=
  match l with LModelCall _ r => r | _ => Raise (Error []) end.

(** ** The end of a run at complete_task *)

(** The history [h'] extends [h] by a model call and, since, by the labels
    [pre] (the latest first): no model call and no failure among them, the
    handler invocations among them being [k]. *)
Definition since (m : list content) (r : result str) (h : list label) (k : list label)
    (h' : list label) : Prop :=
  exists pre,
    h' = pre ++ LModelCall m r :: h /\
    Forall (fun l => is_model_call l = false /\ is_failure l = false) pre /\
    List.filter is_invoke pre = k.

Section Completion.
Context {U : Unicode}.

(** The invariant: no model call is issued once a batch with complete_task
    has come (unless a capture or a progress callback failed since). *)
Definition no_call_after_complete (h : list label) : Prop :=
  match h with
  | LModelCall _ _ :: h' => completing h' = false
  | _ => True
  end.

(** What is known of the result [x] of run_task after the history [h]: when
    the latest batch holds complete_task (and nothing failed since), [x] is
    the success with the message of its first complete_task call, and the
    handlers invoked since that model call are those of all the known calls
    of the batch, in order. *)
Definition completed_as (x : task_result) (h : list label) : Prop :=
  completing h = true ->
  forall text calls,
    last_response h = Some (Ok text) -> parse_tool_calls text = Ok calls ->
    x = Completed (completion_message calls) /\
    exists rs, length rs = length (known_calls calls) /\
               List.filter is_invoke (since_call h) = rev (exec_labels calls rs).

(** The claim as the specification words it: in a batch with complete_task,
    the handler of no call listed after it is run. *)
Definition later_calls_ignored (t : list label) : Prop :=
  forall t1 m text t2 calls before call after,
    t = t1 ++ LModelCall m (Ok text) :: t2 ->
    parse_tool_calls text = Ok calls ->
    calls = before ++ call :: after ->
    name call = py "complete_task" ->
    forall later r, In later after -> ~ In (LInvoke (name later) (arguments later) r) t2.

End Completion.

(** A run whose first response lists a click, complete_task, and one more call. *)
Definition run_completed : outcome (result (option task_result) * VLMAgent) * list label :=
  interp (scripted [complete_response] (fun _ => false))
    (run_task (U := ascii_only) (py "open the mail") 5 false (new_agent true true)) 0 false.

(** The batch of [complete_response]. *)
Definition click_call : ToolCall :=
  {| name := py "mouse_click";
     arguments := [(py "x", VFloat (1 # 10)); (py "y", VFloat (1 # 10))] |}.
Definition complete_call : ToolCall :=
  {| name := py "complete_task"; arguments := [(py "message", VStr (py "done"))] |}.
Definition type_call : ToolCall :=
  {| name := py "type_text";
     arguments := [(py "x", VFloat (1 # 10)); (py "y", VFloat (1 # 5));
                   (py "text", VStr (py "hi"))] |}.

(** ** utils/coordinate_utils.py: coordinates relative to the scaled screenshot *)

(** [convert_relative_to_actual] *)
Definition convert_relative_to_actual (self : CoordinateConverter)
    (x_relative y_relative : Q) : Q * Q :=
  if ((scaled_width self =? 0) || (scaled_height self =? 0))%Z then (x_relative, y_relative)
  else
    let x_ratio := (inject_Z (original_width self) / inject_Z (scaled_width self))%Q in
    let y_ratio := (inject_Z (original_height self) / inject_Z (scaled_height self))%Q in
    let actual_x := (x_relative * x_ratio)%Q in
    let actual_y := (y_relative * y_ratio)%Q in
    let actual_x :=
      py_max (inject_Z safe_margin)
        (py_min (inject_Z (original_width self - safe_margin)) actual_x) in
    let actual_y :=
      py_max (inject_Z safe_margin)
        (py_min (inject_Z (original_height self - safe_margin)) actual_y) in
    (actual_x, actual_y).

(** ** Notions for the further properties *)

(** No operation type keeps more than five successful positions. *)
Definition positions_bounded (ag : VLMAgent) : Prop :=
  forall operation_type positions,
    dict_get operation_type (last_successful_positions ag) = Some positions ->
    (length positions <= 5)%nat.

(** A model call that raised is in the history. *)
Definition is_failed_call (l : label) : bool :=
  match l with LModelCall _ (Raise _) => true | _ => false end.
Definition call_failed (h : list label) : bool := existsb is_failed_call h.

(** The invariant: no event follows a model call that raised. *)
Definition nothing_after_failed_call (h : list label) : Prop :=
  match h with
  | _ :: h' => call_failed h' = false
  | [] => True
  end.

(** A run whose model has no response to give: the first call raises. *)
Definition run_out_of_quota : outcome (result (option task_result) * VLMAgent) * list label :=
  interp (scripted [] (fun _ => false))
    (run_task (U := ascii_only) (py "open the mail") 5 false (new_agent true true)) 0 false.

(** [keeps J m]: the method [m] preserves the property [J] of the agent and
    the history, for every [J] that the labels other than model calls
    preserve; stated for the program logic as [emits] is. *)
Definition keeps {A} (J : VLMAgent -> list label -> Prop) (m : M A) : Prop :=
  forall (I : list label -> Prop) (ag : VLMAgent) (h : list label)
         (Q : result A * VLMAgent -> list label -> Prop),
    J ag h ->
    (forall l ag' h', quiet true l = true -> J ag' h' -> I (l :: h') /\ J ag' (l :: h')) ->
    (forall r ag' h', J ag' h' -> Q (r, ag') h') ->
    wp I (m ag) h Q.

Definition is_reply (c : content) : bool :=
  match c with Reply _ => true | _ => false end.

(** The screenshot a user message carries. *)
Definition image_of (c : content) : option str :=
  match c with
  | TaskAndImage _ img | ScreenAndImage img | ResumedAndImage _ img => Some img
  | _ => None
  end.

(** The transcript begins with the system prompt. *)
Definition starts_with_prompt (msgs : list content) : Prop :=
  exists system_prompt rest, msgs = SystemPrompt system_prompt :: rest.

(** A model call is handed the screen as it is: the transcript begins with
    the system prompt, the event just before the call is a successful
    capture, and the last message carries its image. *)
Definition sees_current_screen (h : list label) : Prop :=
  match h with
  | LModelCall msgs _ :: h' =>
      starts_with_prompt msgs /\
      exists img h'', h' = LCapture (Ok img) :: h'' /\
                      exists c, last msgs = Some c /\ image_of c = Some img
  | _ => True
  end.

(** The text of the latest model response that did not raise. *)
Fixpoint last_ok_response (h : list label) : option str :=
  match h with
  | [] => None
  | LModelCall _ (Ok response_text) :: _ => Some response_text
  | _ :: h' => last_ok_response h'
  end.

(** The result of a task that neither completes nor fails: the last reply. *)
Definition reply_result (h : list label) : task_result :=
  match last_ok_response h with
  | Some response_text => LastReply response_text
  | None => NoReply
  end.

(** A return from inside the loop: success at complete_task, or failure. *)
Definition is_return_result (x : task_result) : Prop :=
  (exists message, x = Completed message) \/ x = Failed.

(** [returns R m]: a value [m] returns satisfies [R]. *)
Definition returns {A} (R : A -> Prop) (m : M A) : Prop :=
  forall ag h, wp (fun _ => True) (m ag) h (fun ra _ =>
    match ra.1 with Ok a => R a | Raise _ => True end).

(** The point [mouse_click] aims at (tool_utils.py, lines 173-186): the
    adjusted and converted coordinates, clamped to the screen of the device. *)
Definition click_target (adapter_utils : AdapterUtils) (coordinate_converter : CoordinateConverter)
    (x y : Q) (adapter_id : option value) (d : Device) : Q * Q :=
  let '(adjusted_x, adjusted_y) := apply_adjustment adapter_utils x y adapter_id (Some (py "click")) in
  let '(actual_x, actual_y) :=
    convert_proportion_to_actual coordinate_converter adjusted_x adjusted_y in
  let '(screen_width, screen_height) := screen_size d in
  (py_max (inject_Z safe_margin) (py_min (inject_Z (screen_width - safe_margin)) actual_x),
   py_max (inject_Z safe_margin) (py_min (inject_Z (screen_height - safe_margin)) actual_y)).

(** A device with a 1920 x 1080 screen, the pointer at its centre. *)
Definition centred_device : Device :=
  {| screen_size := (1920, 1080)%Z; pointer := (960, 540)%Z; input_log := [] |}.

(** ** The pause after a detected intervention *)

(** [keeps], for the labels of an alphabet [S]. *)
Definition keeps_in {A} (S : label -> bool) (J : VLMAgent -> list label -> Prop) (m : M A)
  : Prop :=
  forall (I : list label -> Prop) (ag : VLMAgent) (h : list label)
         (Q : result A * VLMAgent -> list label -> Prop),
    J ag h ->
    (forall l ag' h', S l = true -> J ag' h' -> I (l :: h') /\ J ag' (l :: h')) ->
    (forall r ag' h', J ag' h' -> Q (r, ag') h') ->
    wp I (m ag) h Q.

(** The number of waits that returned since the latest model call. *)
Fixpoint waits_since (h : list label) : nat :=
  match h with
  | [] => 0
  | LModelCall _ _ :: _ => 0
  | LWait :: h' => S (waits_since h')
  | _ :: h' => waits_since h'
  end.

Section Intervention.
Context {U : Unicode}.

(** A response in prose (no tool call) in which an intervention pattern is
    detected. *)
Definition response_intervenes (r : result str) : bool :=
  match r with
  | Ok response_text =>
      match parse_tool_calls response_text with
      | Ok [] =>
          match detect_manual_intervention_required response_text with
          | Some _ => true
          | None => false
          end
      | _ => false
      end
  | Raise _ => false
  end.

(** The invariant: a model call that follows such a response comes after
    two waits. *)
Definition waits_twice_before_call (h : list label) : Prop :=
  match h with
  | LModelCall _ _ :: h' =>
      forall r, last_response h' = Some r -> response_intervenes r = true -> waits_since h' = 2%nat
  | _ => True
  end.

(** The states of the agent between two model calls: no intervention is
    pending; one was detected and has been waited for once; the pause before
    the next call is under way, [n] waits done. *)
Definition calm (ag : VLMAgent) (h : list label) : Prop :=
  pause_event ag = true /\ manual_intervention_detected ag = false /\
  forall r, last_response h = Some r -> response_intervenes r = false.

Definition counted (n : nat) (ag : VLMAgent) (h : list label) : Prop :=
  pause_event ag = true /\ manual_intervention_detected ag = false /\
  (exists r, last_response h = Some r /\ response_intervenes r = true) /\
  waits_since h = n.

Definition pending (ag : VLMAgent) (h : list label) : Prop :=
  pause_event ag = true /\ manual_intervention_detected ag = true /\
  (exists r, last_response h = Some r /\ response_intervenes r = true) /\
  waits_since h = 1%nat.

End Intervention.

(** A run in which the model reports a login in prose; the release signal
    fires at the two waits that follow. *)
Definition run_login : outcome (result (option task_result) * VLMAgent) * list label :=
  interp (scripted [login_response; py "all set"] (fun i => Nat.eqb i 4 || Nat.eqb i 8))
    (run_task (U := ascii_only) (py "open the mail") 5 false (new_agent true true)) 0 false.

(** What the first part of a pass of the body establishes on such an
    agent: the model may be called. *)
Definition ready {U : Unicode} (ag : VLMAgent) (h : list label) : Prop :=
  pause_event ag = true /\ manual_intervention_detected ag = false /\
  forall m r, waits_twice_before_call (LModelCall m r :: h).

(** ** utils/tool_utils.py: press_hotkey on a pointer device and a keyboard

    The keyboard is the log of the key combinations sent with
    [pyautogui.hotkey], the latest last. *)

(** [s.replace(' ', '')] *)
Definition remove_spaces (s : str) : str := List.filter (fun c => negb (c =? 32)) s.

(** [s.split('+')]: the pieces between the plus signs, the empty ones kept. *)
Fixpoint split_plus (s : str) : list str :=
  match s with
  | [] => [[]]
  | c :: s' =>
      if c =? 43 then [] :: split_plus s'
      else match split_plus s' with
           | part :: parts => (c :: part) :: parts
           | [] => [[c]]
           end
  end.

Section Hotkey.
Context {U : Unicode}.

(** One pass of the loop over [hotkey_parts] (lines 928-940). *)
Definition normalize_part (part : str) : str :=
  let part := py_lower part in
  if str_eqb part (py "ctrl") then py "ctrl"
  else if str_eqb part (py "alt") then py "alt"
  else if str_eqb part (py "shift") then py "shift"
  else if str_eqb part (py "win") || str_eqb part (py "windows") then py "winleft"
  else part.

(** [press_hotkey(x, y, hotkey)] for a [hotkey] that is a str: the device,
    the keyboard and the text returned.  Nothing in the [try] block raises on
    a device that never does, so the [except] clause is not taken. *)
Definition press_hotkey (coordinate_converter : CoordinateConverter) (x y : Q) (hotkey : str)
    (d : Device) (keyboard : list (list str)) : Device * list (list str) * str :=
  let '(actual_x, actual_y) := convert_proportion_to_actual coordinate_converter x y in
  let actual_x := round_half_even actual_x in
  let actual_y := round_half_even actual_y in
  let d := click_at actual_x actual_y (py "left") 1 d in
  let hotkey := remove_spaces hotkey in
  let hotkey_parts := split_plus hotkey in
  let normalized_parts := map normalize_part hotkey_parts in
  (d, keyboard ++ [normalized_parts],
   py "在坐标 (" ++ str_of_Z actual_x ++ py ", " ++ str_of_Z actual_y ++ py ") 处执行快捷键: "
   ++ hotkey).

End Hotkey.

(** The text is ASCII. *)
Definition is_ascii (s : str) : bool := forallb (fun c => c <? 128) s.


(** ** mouse_click where pyautogui's fail-safe stays out of the way

    pyautogui raises when it is called while the pointer rests in a corner of
    the screen; the device above does not.  The statements on [mouse_click]
    keep to the states in which no move of the code can bring the pointer
    there. *)

(** The pointer rests in a corner of the screen. *)
Definition at_corner (d : Device) (p : Z * Z) : bool :=
  (((p.1 =? 0) || (p.1 =? (screen_size d).1 - 1))
   && ((p.2 =? 0) || (p.2 =? (screen_size d).2 - 1)))%Z.

(** The point keeps the margin from every edge of the screen. *)
Definition within_margins (d : Device) (p : Q * Q) : Prop :=
  (inject_Z safe_margin <= p.1 <= inject_Z ((screen_size d).1 - safe_margin))%Q /\
  (inject_Z safe_margin <= p.2 <= inject_Z ((screen_size d).2 - safe_margin))%Q.

(** The point of the first move of [mouse_click] (lines 196-197): the
    target, and eight tenths of the way from the pointer to it beyond. *)
Definition overshoot_point (d : Device) (t : Q * Q) : Q * Q :=
  ((t.1 + (t.1 - inject_Z (pointer d).1) * (8 # 10))%Q,
   (t.2 + (t.2 - inject_Z (pointer d).2) * (8 # 10))%Q).

(** ** Where an extracted call stands in the text *)

Section BareForm.
Context {U : Unicode}.





End BareForm.


(** ** Without a pause event the loop goes on *)

Section GoesOn.
Context {U : Unicode}.






End GoesOn.


Section GoesOnAsWorded.
Context {U : Unicode}.


End GoesOnAsWorded.


(* ================================================================== *)
(** * Verification *)

(** ** Arithmetic of the clamps and of [round] *)

Section Clamp.
Local Open Scope Q_scope.

Lemma Qltb_true (a b : Q) : Qltb a b = true <-> a < b.
Proof.
  unfold Qltb. rewrite negb_true_iff.
  split; intros H.
  - apply Qnot_le_lt. intros Hle. apply Qle_bool_iff in Hle. congruence.
  - destruct (Qle_bool b a) eqn:E; [|reflexivity].
    apply Qle_bool_iff in E. exfalso. eapply Qlt_not_le; eassumption.
Qed.

Lemma Qltb_false (a b : Q) : Qltb a b = false <-> b <= a.
Proof.
  unfold Qltb. rewrite negb_false_iff. apply Qle_bool_iff.
Qed.

Lemma py_max_lower (a b : Q) : a <= py_max a b.
Proof.
  unfold py_max. destruct (Qltb a b) eqn:E.
  - apply Qltb_true in E. apply Qlt_le_weak, E.
  - apply Qle_refl.
Qed.

Lemma py_max_upper (a b c : Q) : a <= c -> b <= c -> py_max a b <= c.
Proof. unfold py_max. destruct (Qltb a b); auto. Qed.

Lemma py_min_upper (a b : Q) : py_min a b <= a.
Proof.
  unfold py_min. destruct (Qltb b a) eqn:E.
  - apply Qltb_true in E. apply Qlt_le_weak, E.
  - apply Qle_refl.
Qed.

(** A clamp [max(lo, min(hi, v))] lies in [[lo, hi]] as soon as [lo <= hi]. *)
Lemma clamp_bounds (lo hi v : Q) :
  lo <= hi -> lo <= py_max lo (py_min hi v) <= hi.
Proof.
  intros H. split.
  - apply py_max_lower.
  - apply py_max_upper; [exact H | apply py_min_upper].
Qed.

(** The lower clamp is applied last: it wins when the interval is empty. *)
Lemma clamp_empty (lo hi v : Q) :
  hi < lo -> py_max lo (py_min hi v) = lo.
Proof.
  intros H. unfold py_max.
  destruct (Qltb lo (py_min hi v)) eqn:E; [|reflexivity].
  apply Qltb_true in E. exfalso.
  apply (Qlt_irrefl lo). eapply Qlt_le_trans; [exact E|].
  eapply Qle_trans; [apply py_min_upper | apply Qlt_le_weak, H].
Qed.

Lemma round_half_even_bounds (x : Q) (lo hi : Z) :
  inject_Z lo <= x -> x <= inject_Z hi -> (lo <= round_half_even x <= hi)%Z.
Proof.
  intros Hlo Hhi.
  assert (Hf1 : (lo <= Qfloor x)%Z).
  { rewrite <- (Qfloor_Z lo). apply Qfloor_resp_le, Hlo. }
  assert (Hf2 : (Qfloor x <= hi)%Z).
  { rewrite <- (Qfloor_Z hi). apply Qfloor_resp_le, Hhi. }
  assert (Hup : 0 < x - inject_Z (Qfloor x) -> (Qfloor x + 1 <= hi)%Z).
  { intros Hpos.
    assert (Hlt : inject_Z (Qfloor x) < inject_Z hi).
    { eapply Qlt_le_trans; [|exact Hhi].
      apply (Qplus_lt_l _ _ (- inject_Z (Qfloor x))).
      rewrite Qplus_opp_r. exact Hpos. }
    rewrite <- Zlt_Qlt in Hlt. lia. }
  unfold round_half_even.
  destruct (Qcompare (x - inject_Z (Qfloor x)) (1 # 2)) eqn:E.
  - apply Qeq_alt in E.
    assert (Hpos : 0 < x - inject_Z (Qfloor x)) by (rewrite E; reflexivity).
    specialize (Hup Hpos). destruct (Z.even (Qfloor x)); lia.
  - lia.
  - apply Qgt_alt in E.
    assert (Hpos : 0 < x - inject_Z (Qfloor x)).
    { eapply Qlt_trans; [|exact E]. reflexivity. }
    specialize (Hup Hpos). lia.
Qed.

(** [round(x, n)] keeps a value between two integer bounds between them. *)
Lemma py_round_bounds (x : Q) (n : nat) (lo hi : Z) :
  inject_Z lo <= x -> x <= inject_Z hi ->
  inject_Z lo <= py_round x n <= inject_Z hi.
Proof.
  intros Hlo Hhi. unfold py_round.
  set (s := (10 ^ Z.of_nat n)%Z).
  assert (Hs : (0 < s)%Z) by (apply Z.pow_pos_nonneg; lia).
  assert (HsQ : 0 < inject_Z s).
  { change (inject_Z 0 < inject_Z s). rewrite <- Zlt_Qlt. exact Hs. }
  destruct (round_half_even_bounds (x * inject_Z s) (lo * s) (hi * s)) as [H1 H2].
  { rewrite inject_Z_mult. apply Qmult_le_compat_r; [exact Hlo | apply Qlt_le_weak, HsQ]. }
  { rewrite inject_Z_mult. apply Qmult_le_compat_r; [exact Hhi | apply Qlt_le_weak, HsQ]. }
  rewrite Qred_correct.
  split.
  - apply Qle_shift_div_l; [exact HsQ|].
    rewrite <- inject_Z_mult, <- Zle_Qle. exact H1.
  - apply Qle_shift_div_r; [exact HsQ|].
    rewrite <- inject_Z_mult, <- Zle_Qle. exact H2.
Qed.

End Clamp.

(** ** The coordinate transformer *)

(** C4, as stated, fails on a converter whose resolution was never set (the
    constructor's 0 x 0): the result is the margin itself, above
    [dimension - margin]. *)
Lemma convert_default_geometry_outside :
  (0 <= 1 # 2 <= 1)%Q /\
  ~ in_safe_area new_converter (convert_proportion_to_actual new_converter (1 # 2) (1 # 2)).
Proof.
  split; [split; discriminate|].
  intros [[_ H] _]. vm_compute in H. apply H. reflexivity.
Qed.

(** C4, amended: for every proportional pair in the unit square, on a screen
    of at least twice the margin (10 pixels) in each dimension, the converted
    coordinates lie within [[margin, dimension - margin]] on both axes. *)
Theorem convert_within_safe_area (self : CoordinateConverter) (x y : Q) :
  (0 <= x <= 1)%Q -> (0 <= y <= 1)%Q ->
  (2 * safe_margin <= original_width self)%Z ->
  (2 * safe_margin <= original_height self)%Z ->
  in_safe_area self (convert_proportion_to_actual self x y).
Proof.
  intros _ _ Hw Hh. unfold convert_proportion_to_actual, in_safe_area; cbn [fst snd].
  split; apply py_round_bounds; apply clamp_bounds; rewrite <- Zle_Qle;
    unfold safe_margin in *; lia.
Qed.

Lemma convert_within_safe_area_witness :
  in_safe_area (set_original_resolution new_converter 1920 1080)
    (convert_proportion_to_actual (set_original_resolution new_converter 1920 1080) (1 # 3) 1).
Proof.
  apply convert_within_safe_area.
  - split; discriminate.
  - split; discriminate.
  - vm_compute; discriminate.
  - vm_compute; discriminate.
Defined.

(** Below twice the margin the lower clamp, applied last, decides. *)
Lemma convert_small_screen (self : CoordinateConverter) (x y : Q) :
  (original_width self < 2 * safe_margin)%Z ->
  ((convert_proportion_to_actual self x y).1 == inject_Z safe_margin)%Q.
Proof.
  intros Hw. unfold convert_proportion_to_actual; cbn [fst].
  rewrite clamp_empty.
  - vm_compute. reflexivity.
  - rewrite <- Zlt_Qlt. unfold safe_margin in *. lia.
Qed.

(** ** The adapter adjustment *)

Lemma apply_rules_find (rules : list Rule) (x y : Q) (target_type : option str) :
  apply_rules rules x y target_type =
  match find (rule_matches target_type) rules with
  | Some rule => (clamp01 (x + (rule_offset rule).1), clamp01 (y + (rule_offset rule).2))
  | None => (x, y)
  end.
Proof.
  induction rules as [|rule rest IH]; [reflexivity|].
  cbn [apply_rules find]. unfold rule_matches at 1.
  destruct (opt_str_eqb (rule_type rule) target_type || opt_str_eqb (rule_target rule) target_type).
  - unfold rule_offset, clamp01. destruct (rule_adjustment rule); reflexivity.
  - exact IH.
Qed.

Lemma falsy_get_adapter (self : AdapterUtils) (adapter_id : option value) :
  adapters self !! ([] : str) = None ->
  falsy adapter_id = true -> get_adapter self adapter_id = None.
Proof.
  intros Hwf Hf. destruct adapter_id as [[s|z|q]|]; try reflexivity.
  destruct s; [exact Hwf | discriminate].
Qed.

(** C9: with no adapter registered under the identifier the input comes back
    unchanged; otherwise the first rule whose type or target equals the
    target type has its offset added and the result is clamped into [[0,1]]
    on both axes, and the input comes back unchanged when no rule matches.
    Adapter identifiers are the base names of the configuration files, so
    none is the empty string. *)
Theorem apply_adjustment_correct (self : AdapterUtils) (x y : Q)
    (adapter_id : option value) (target_type : option str) :
  adapters self !! ([] : str) = None ->
  apply_adjustment self x y adapter_id target_type
    = adjustment_spec self x y adapter_id target_type
  /\ (get_adapter self adapter_id = None ->
      apply_adjustment self x y adapter_id target_type = (x, y))
  /\ (forall adapter rule,
        get_adapter self adapter_id = Some adapter ->
        find (rule_matches target_type) (default [] (adapter_rules adapter)) = Some rule ->
        in_unit_square (apply_adjustment self x y adapter_id target_type)).
Proof.
  intros Hwf.
  assert (Heq : apply_adjustment self x y adapter_id target_type
                = adjustment_spec self x y adapter_id target_type).
  { unfold apply_adjustment, adjustment_spec.
    destruct (falsy adapter_id) eqn:Hf.
    - rewrite (falsy_get_adapter _ _ Hwf Hf). reflexivity.
    - destruct (get_adapter self adapter_id); [apply apply_rules_find | reflexivity]. }
  split; [exact Heq|]. rewrite Heq. unfold adjustment_spec. split.
  - intros ->. reflexivity.
  - intros adapter rule -> ->. unfold in_unit_square, clamp01; cbn [fst snd].
    split; apply clamp_bounds; discriminate.
Qed.

Lemma apply_adjustment_correct_witness :
  apply_adjustment example_adapters (1 # 2) (1 # 2) (Some (VStr (py "browser"))) (Some (py "click"))
    = adjustment_spec example_adapters (1 # 2) (1 # 2) (Some (VStr (py "browser"))) (Some (py "click"))
  /\ (get_adapter example_adapters (Some (VStr (py "browser"))) = None ->
      apply_adjustment example_adapters (1 # 2) (1 # 2) (Some (VStr (py "browser"))) (Some (py "click"))
        = (1 # 2, 1 # 2)%Q)
  /\ (forall adapter rule,
        get_adapter example_adapters (Some (VStr (py "browser"))) = Some adapter ->
        find (rule_matches (Some (py "click"))) (default [] (adapter_rules adapter)) = Some rule ->
        in_unit_square
          (apply_adjustment example_adapters (1 # 2) (1 # 2) (Some (VStr (py "browser")))
             (Some (py "click")))).
Proof.
  apply (apply_adjustment_correct example_adapters). vm_compute. reflexivity.
Defined.

(** On the example registry the click rule moves (0.5, 0.5) to (1, 0.4): the
    sum 1.1 is clamped. *)
Example apply_adjustment_example :
  let p := apply_adjustment example_adapters (1 # 2) (1 # 2)
             (Some (VStr (py "browser"))) (Some (py "click")) in
  (p.1 == 1)%Q /\ (p.2 == 4 # 10)%Q.
Proof. vm_compute. split; reflexivity. Qed.

(** ** The mouse_click scenario *)

Lemma py_trunc_inject_Z (z : Z) : py_trunc (inject_Z z) = z.
Proof.
  unfold py_trunc. destruct (Qle_bool 0 (inject_Z z)); [apply Qfloor_Z | apply Qceiling_Z].
Qed.



Section Scenario.
Context {U : Unicode}.


End Scenario.

(** ** The matcher against the declarative reading of a pattern *)

Lemma strip_prefix_Some (p s s' : str) : strip_prefix p s = Some s' -> s = p ++ s'.
Proof.
  revert s. induction p as [|a p IH]; intros s H.
  - cbn in H. injection H as ->. reflexivity.
  - destruct s as [|b s]; cbn in H; [discriminate|].
    destruct (N.eqb_spec a b); [|discriminate].
    subst. cbn. f_equal. apply IH, H.
Qed.

Lemma strip_prefix_app (p s : str) : strip_prefix p (p ++ s) = Some s.
Proof.
  induction p as [|a p IH]; cbn; [reflexivity|]. rewrite N.eqb_refl. exact IH.
Qed.

Lemma contains_unfold (p s : str) :
  contains p s =
  match strip_prefix p s with
  | Some _ => true
  | None => match s with [] => false | _ :: s' => contains p s' end
  end.
Proof. destruct s; reflexivity. Qed.

Lemma contains_app (p pre rest : str) : contains p (pre ++ p ++ rest) = true.
Proof.
  induction pre as [|c pre IH]; rewrite contains_unfold.
  - cbn [app]. rewrite strip_prefix_app. reflexivity.
  - cbn [app]. destruct (strip_prefix p (c :: pre ++ p ++ rest)); [reflexivity | exact IH].
Qed.

Lemma star_greedy_sound {R} (p : N -> bool) (s : str) (k : str -> option R) (x : R) :
  star_greedy p s k = Some x ->
  exists u rest, s = u ++ rest /\ forallb p u = true /\ k rest = Some x.
Proof.
  induction s as [|c s IH]; cbn; intros H.
  - exists [], []. auto.
  - destruct (p c) eqn:Hc.
    + destruct (star_greedy p s k) as [y|] eqn:E.
      * injection H as ->. destruct (IH eq_refl) as (u & rest & -> & Hu & Hk).
        exists (c :: u), rest. cbn. rewrite Hc, Hu. auto.
      * exists [], (c :: s). auto.
    + exists [], (c :: s). auto.
Qed.

Lemma star_lazy_sound {R} (p : N -> bool) (s : str) (k : str -> option R) (x : R) :
  star_lazy p s k = Some x ->
  exists u rest, s = u ++ rest /\ forallb p u = true /\ k rest = Some x.
Proof.
  induction s as [|c s IH]; cbn; intros H.
  - destruct (k []) eqn:E; [|discriminate]. exists [], []. rewrite E. auto.
  - destruct (k (c :: s)) eqn:E.
    + exists [], (c :: s). rewrite E. auto.
    + destruct (p c) eqn:Hc; [|discriminate].
      destruct (IH H) as (u & rest & -> & Hu & Hk).
      exists (c :: u), rest. cbn. rewrite Hc, Hu. auto.
Qed.

Lemma take_app_length_diff (u rest : str) :
  take (length (u ++ rest) - length rest) (u ++ rest) = u.
Proof.
  rewrite length_app. replace (length u + length rest - length rest)%nat with (length u) by lia.
  apply take_app_length.
Qed.

(** Soundness: a success of the matcher is a match, and the continuation
    succeeded on what the match left. *)
Lemma rmatch_sound (r : regex) :
  forall {R} (s : str) (g : groups) (k : str -> groups -> option R) (x : R),
    rmatch r s g k = Some x ->
    exists u rest g', s = u ++ rest /\ matched r u rest g g' /\ k rest g' = Some x.
Proof.
  induction r as [|p|l|a IHa b IHb|a IHa b IHb|p|p|i a IHa|a IHa|]; intros R s g k x H; cbn in H.
  - exists [], s, g. cbn. auto.
  - destruct s as [|c s]; [discriminate|]. destruct (p c) eqn:Hc; [|discriminate].
    exists [c], s, g. cbn. eauto 6.
  - destruct (strip_prefix l s) as [s'|] eqn:E; [|discriminate].
    apply strip_prefix_Some in E. exists l, s', g. cbn. auto.
  - apply IHa in H as (u1 & r1 & g1 & -> & Ha & H).
    apply IHb in H as (u2 & r2 & g2 & -> & Hb & H).
    exists (u1 ++ u2), r2, g2. rewrite <- app_assoc. cbn. eauto 10.
  - destruct (rmatch a s g k) as [y|] eqn:E.
    + injection H as ->. apply IHa in E as (u & rest & g' & -> & Ha & Hk).
      exists u, rest, g'. cbn. auto.
    + apply IHb in H as (u & rest & g' & -> & Hb & Hk).
      exists u, rest, g'. cbn. auto.
  - apply star_greedy_sound in H as (u & rest & -> & Hu & Hk).
    exists u, rest, g. cbn. auto.
  - apply star_lazy_sound in H as (u & rest & -> & Hu & Hk).
    exists u, rest, g. cbn. auto.
  - apply IHa in H as (u & rest & g1 & -> & Ha & Hk).
    rewrite take_app_length_diff in Hk.
    exists u, rest, ((i, u) :: g1). cbn. eauto.
  - destruct (rmatch a s g (fun _ g' => Some g')) as [g1|] eqn:E; [|discriminate].
    apply IHa in E as (v & rest' & g' & -> & Ha & Hk). injection Hk as ->.
    exists [], (v ++ rest'), g1. cbn. eauto 10.
  - destruct (at_end s) eqn:E; [|discriminate].
    exists [], s, g. cbn. auto.
Qed.

Lemma match_here_sound (r : regex) (s rest : str) (g : groups) :
  match_here r s = Some (rest, g) -> exists u, s = u ++ rest /\ matched r u rest [] g.
Proof.
  unfold match_here. intros H.
  apply rmatch_sound in H as (u & rest' & g' & -> & Hm & Hk).
  injection Hk as -> ->. eauto.
Qed.

(** Every entry of [findall] is a match of the pattern somewhere in the text. *)
Lemma findall_from_sound (r : regex) (s : str) :
  forall (skip : nat) (g : groups),
    In g (findall_from r skip s) ->
    exists pre u rest, s = pre ++ u ++ rest /\ matched r u rest [] g.
Proof.
  assert (Hcons : forall (c : N) (s' : str) (g : groups),
             (exists pre u rest, s' = pre ++ u ++ rest /\ matched r u rest [] g) ->
             exists pre u rest, c :: s' = pre ++ u ++ rest /\ matched r u rest [] g).
  { intros c s' g (pre & u & rest & -> & Hm). exists (c :: pre), u, rest. auto. }
  induction s as [|c s IH]; intros skip g H.
  - destruct skip; cbn in H; [|contradiction].
    destruct (match_here r []) as [[rest g0]|] eqn:E; [|contradiction].
    destruct H as [<-|[]]. apply match_here_sound in E as (u & Hs & Hm).
    exists [], u, rest. auto.
  - destruct skip; cbn [findall_from] in H.
    + destruct (match_here r (c :: s)) as [[rest g0]|] eqn:E.
      * destruct H as [<-|H].
        -- apply match_here_sound in E as (u & Hs & Hm). exists [], u, rest. auto.
        -- apply Hcons. eapply IH, H.
      * apply Hcons. eapply IH, H.
    + apply Hcons. eapply IH, H.
Qed.

Lemma findall_sound (r : regex) (s : str) (g : groups) :
  In g (findall r s) -> exists pre u rest, s = pre ++ u ++ rest /\ matched r u rest [] g.
Proof. apply findall_from_sound. Qed.

(** ** The merge of the three match lists *)

(** The merge keeps [seen_matches] equal to the set of [all_matches], which
    never holds a text twice. *)
Definition merge_inv (st : list str * gset str) : Prop :=
  NoDup st.1 /\ forall x, x ∈ st.2 <-> In x st.1.

Lemma merge_one_inv (st : list str * gset str) (m : str) :
  merge_inv st ->
  merge_inv (merge_one st m) /\
  (forall x, In x (merge_one st m).1 <-> In x st.1 \/ x = m).
Proof.
  intros [Hnd Hset]. unfold merge_one. case_bool_decide as Hm.
  - split; [split; assumption|]. intros x. split; [auto|].
    intros [H| ->]; [exact H | apply Hset, Hm].
  - unfold merge_inv. cbn [fst snd]. split; [split|].
    + apply NoDup_app. split; [exact Hnd|]. split.
      * intros x Hx Hx'. apply list_elem_of_singleton in Hx'. subst x.
        apply Hm, Hset, list_elem_of_In, Hx.
      * apply NoDup_singleton.
    + intros x. rewrite elem_of_union, elem_of_singleton, Hset, in_app_iff. cbn. intuition.
    + intros x. rewrite in_app_iff. cbn. intuition.
Qed.

Lemma merge_list_inv (l : list str) :
  forall st, merge_inv st ->
    merge_inv (fold_left merge_one l st) /\
    (forall x, In x (fold_left merge_one l st).1 <-> In x st.1 \/ In x l).
Proof.
  induction l as [|m l IH]; intros st Hst; cbn [fold_left].
  - split; [exact Hst|]. intros x. cbn. intuition.
  - destruct (merge_one_inv st m Hst) as [H1 H2].
    destruct (IH _ H1) as [H3 H4]. split; [exact H3|].
    intros x. rewrite H4, H2. cbn. intuition.
Qed.

Lemma merge_lists_inv (ls : list (list str)) :
  forall st, merge_inv st ->
    let st' := fold_left (fun st match_list => fold_left merge_one match_list st) ls st in
    merge_inv st' /\ (forall x, In x st'.1 <-> In x st.1 \/ exists l, In l ls /\ In x l).
Proof.
  induction ls as [|l ls IH]; intros st Hst; cbn [fold_left].
  - split; [exact Hst|]. intros x. split; [auto|]. intros [H|(l & [] & _)]. exact H.
  - destruct (merge_list_inv l st Hst) as [H1 H2].
    destruct (IH _ H1) as [H3 H4]. split; [exact H3|].
    intros x. rewrite H4, H2. split.
    + intros [[H|H]|(l' & Hl' & Hx)]; [auto | right; exists l; cbn; auto | right; exists l'; cbn; auto].
    + intros [H|(l' & [<-|Hl'] & Hx)]; [auto | auto | right; exists l'; auto].
Qed.

Lemma merge_matches_NoDup (ls : list (list str)) : NoDup (merge_matches ls).
Proof.
  unfold merge_matches. apply (merge_lists_inv ls ([], ∅)).
  split; [constructor|]. intros x. cbn. rewrite elem_of_empty. reflexivity.
Qed.

Lemma merge_matches_In (ls : list (list str)) (x : str) :
  In x (merge_matches ls) <-> exists l, In l ls /\ In x l.
Proof.
  unfold merge_matches.
  destruct (merge_lists_inv ls ([], ∅)) as [_ H].
  { split; [constructor|]. intros y. cbn. rewrite elem_of_empty. reflexivity. }
  rewrite H. cbn. intuition.
Qed.

(** A text that is in the merge stands there exactly once. *)
Lemma merge_matches_split (ls : list (list str)) (m : str) :
  In m (merge_matches ls) ->
  exists before after,
    merge_matches ls = before ++ m :: after /\ ~ In m before /\ ~ In m after.
Proof.
  intros H. destruct (in_split _ _ H) as (before & after & E).
  exists before, after. split; [exact E|].
  pose proof (merge_matches_NoDup ls) as Hnd. rewrite E in Hnd.
  apply NoDup_app in Hnd as (_ & Hdis & Hnd2).
  apply NoDup_cons in Hnd2 as [Hnot _]. split.
  - intros Hin. apply (Hdis m); [apply list_elem_of_In, Hin | left].
  - intros Hin. apply Hnot, list_elem_of_In, Hin.
Qed.

(** ** What the call patterns isolate *)

Ltac nbool :=
  repeat match goal with
  | |- context [N.leb ?a ?b] => destruct (N.leb_spec a b)
  | |- context [N.ltb ?a ?b] => destruct (N.ltb_spec a b)
  | |- context [N.eqb ?a ?b] => destruct (N.eqb_spec a b)
  | H : context [N.leb ?a ?b] |- _ => destruct (N.leb_spec a b)
  | H : context [N.ltb ?a ?b] |- _ => destruct (N.ltb_spec a b)
  | H : context [N.eqb ?a ?b] |- _ => destruct (N.eqb_spec a b)
  end; cbn in *; try congruence; try lia.

Ltac break_matched :=
  repeat match goal with
  | H : exists _, _ |- _ => destruct H
  | H : _ /\ _ |- _ => destruct H
  end; subst.

(** Two splits of one string into a run of [p]-characters and a rest that
    does not start with one are the same split. *)
Lemma run_unique (p : N -> bool) (l1 l2 r1 r2 : str) :
  forallb p l1 = true -> forallb p l2 = true ->
  (forall c t, r1 = c :: t -> p c = false) ->
  (forall c t, r2 = c :: t -> p c = false) ->
  l1 ++ r1 = l2 ++ r2 -> l1 = l2.
Proof.
  revert l2. induction l1 as [|a l1 IH]; intros [|b l2] H1 H2 Hr1 Hr2 E; cbn in *.
  - reflexivity.
  - apply andb_true_iff in H2 as [Hb _]. rewrite (Hr1 _ _ E) in Hb. discriminate.
  - apply andb_true_iff in H1 as [Ha _]. rewrite (Hr2 _ _ (eq_sym E)) in Ha. discriminate.
  - apply andb_true_iff in H1 as [_ H1]. apply andb_true_iff in H2 as [_ H2].
    injection E as -> E. f_equal. eapply IH; eassumption.
Qed.

Section Shapes.
Context {U : Unicode}.

Lemma ident_char_ascii (c : N) :
  ident_char c = true -> is_space c = false /\ c <> chr "(".
Proof.
  unfold ident_char, ident_start, is_lower_az, is_upper_az, is_09, is_space, in_range.
  change (chr "(") with 40.
  intros H. nbool.
Qed.

Lemma ident_start_char (c : N) : ident_start c = true -> ident_char c = true.
Proof. unfold ident_char. intros ->. reflexivity. Qed.

(** What follows the name in a call span starts with no identifier character. *)
Lemma after_name_no_ident (ws t : str) (c : N) (t' : str) :
  forallb is_space ws = true -> ws ++ py "(" ++ t = c :: t' -> ident_char c = false.
Proof.
  intros Hws E. destruct (ident_char c) eqn:Hc; [|reflexivity].
  apply ident_char_ascii in Hc as [Hs Hp].
  change (py "(") with [chr "("] in E.
  destruct ws as [|w ws]; cbn [app forallb] in *.
  - injection E as E _. congruence.
  - injection E as -> _. apply andb_true_iff in Hws as [Hw _]. congruence.
Qed.

Lemma pattern1_shape (u rest : str) (g : groups) :
  matched pattern1 u rest [] g -> u = marker ++ group 1 g ++ marker.
Proof.
  intros H. cbn -[marker py] in H. break_matched. reflexivity.
Qed.

Lemma pattern2_shape (u rest : str) (g : groups) :
  matched pattern2 u rest [] g ->
  exists f ws, is_identifier f /\ call_span f (group 1 g) /\ u = group 1 g ++ ws ++ marker.
Proof.
  intros H. cbn -[marker py] in H. break_matched.
  cbn [group find fst snd Nat.eqb].
  match goal with
  | |- context [([?c] ++ ?cs) ++ ?ws ++ py "(" ++ ?body ++ py ")"] =>
      exists (c :: cs); eexists; split; [exists c, cs; auto|]; split;
        [exists ws, body; split; [assumption|]; split; [assumption|]|]
  end; reflexivity.
Qed.

Lemma bare_end_groups (u rest : str) (g g' : groups) :
  matched bare_end u rest g g' -> u = [] /\ g' = g.
Proof.
  intros H. cbn -[py] in H.
  destruct H as (-> & v & rest' & -> & [H|[H|H]]); break_matched; auto.
Qed.

Lemma bare_name_groups (u rest : str) (g g' : groups) :
  matched (Alts (map Lit bare_names)) u rest g g' -> In u bare_names /\ g' = g.
Proof.
  intros H. cbn -[py] in H. unfold bare_names. cbn [In].
  repeat (destruct H as [[-> ->]|H]; [intuition|]). destruct H as [-> ->]. intuition.
Qed.

Lemma full_pattern3_shape (u rest : str) (g : groups) :
  matched full_pattern3 u rest [] g ->
  exists f, In f bare_names /\ call_span f (group 1 g).
Proof.
  intros H. unfold full_pattern3 in H. cbn [Seq matched] in H.
  destruct H as (u1 & u2 & g1 & -> & (g2 & Hspan & ->) & Hend).
  apply bare_end_groups in Hend as [-> ->].
  destruct Hspan as (f & u4 & g3 & -> & (g4 & Hname & ->) & Hrest).
  apply bare_name_groups in Hname as [Hf ->].
  cbn -[py] in Hrest. break_matched.
  exists f. split; [exact Hf|].
  cbn [group find fst snd Nat.eqb].
  match goal with
  | |- context [f ++ ?ws ++ py "(" ++ ?body ++ py ")"] => exists ws, body; auto
  end.
Qed.

Lemma matches2_shape (text m : str) :
  In m (matches2 text) ->
  (exists f, is_identifier f /\ call_span f m) /\
  exists pre ws rest, text = pre ++ m ++ ws ++ marker ++ rest.
Proof.
  unfold matches2. intros H. apply in_map_iff in H as (g & <- & Hg).
  apply findall_sound in Hg as (pre & u & rest & -> & Hm).
  apply pattern2_shape in Hm as (f & ws & Hf & Hspan & ->).
  split; [eauto|]. exists pre, ws, rest. rewrite <- !app_assoc. reflexivity.
Qed.

Lemma matches1_shape (text m : str) :
  In m (matches1 text) -> exists pre rest, text = pre ++ marker ++ m ++ marker ++ rest.
Proof.
  unfold matches1. intros H. apply in_map_iff in H as (g & <- & Hg).
  apply findall_sound in Hg as (pre & u & rest & -> & Hm).
  apply pattern1_shape in Hm as ->.
  exists pre, rest. rewrite <- !app_assoc. reflexivity.
Qed.

Lemma matches3_shape (text m : str) :
  In m (matches3 text) -> exists f, In f bare_names /\ call_span f m.
Proof.
  unfold matches3. intros H.
  destruct (map (group 1) (findall pattern3 text)); [contradiction|].
  apply in_map_iff in H as (g & <- & Hg).
  apply findall_sound in Hg as (pre & u & rest & -> & Hm).
  eapply full_pattern3_shape, Hm.
Qed.

End Shapes.

(** ** From a matched span to a call *)

Section ParseMatch.
Context {U : Unicode}.

Lemma re_match_sound (r : regex) (s : str) (g : groups) :
  re_match r s = Some g -> exists u rest, s = u ++ rest /\ matched r u rest [] g.
Proof.
  unfold re_match. destruct (match_here r s) as [[rest g0]|] eqn:E; [|discriminate].
  intros [= ->]. apply match_here_sound in E as (u & -> & Hm). eauto.
Qed.

Lemma function_pattern_shape (u rest : str) (g : groups) :
  matched function_pattern u rest [] g ->
  exists ws1 f ws2 a ws3,
    forallb is_space ws1 = true /\ is_identifier f /\ forallb is_space ws2 = true /\
    u = ws1 ++ f ++ ws2 ++ py "(" ++ a ++ py ")" ++ ws3 /\
    group 1 g = f /\ group 2 g = a.
Proof.
  intros H. cbn -[py] in H. break_matched.
  cbn [group find fst snd Nat.eqb].
  match goal with
  | |- context [?ws1 ++ ([?c] ++ ?cs) ++ ?ws2 ++ py "(" ++ ?a ++ py ")" ++ ?ws3 ++ []] =>
      exists ws1, (c :: cs), ws2, a, ws3;
      assert (Hid : is_identifier (c :: cs)) by (exists c, cs; auto)
  end.
  rewrite app_nil_r. repeat split; assumption.
Qed.

(** A call that comes out of a match carries the name the function pattern
    captured. *)
Lemma parse_match_group (m : str) (c : ToolCall) :
  parse_match m = Ok (Some c) ->
  exists g, re_match function_pattern m = Some g /\ name c = group 1 g.
Proof.
  unfold parse_match. destruct (re_match function_pattern m) as [g|]; [|discriminate].
  intros H. exists g. split; [reflexivity|].
  destruct (strip (group 2 g)).
  - injection H as <-. reflexivity.
  - destruct (parse_args _ _); [|discriminate]. injection H as <-. reflexivity.
Qed.

(** The name of the call parsed from a span [fname ws ( body )] is [fname]. *)
Lemma parse_match_name (f m : str) (c : ToolCall) :
  is_identifier f -> call_span f m -> parse_match m = Ok (Some c) -> name c = f.
Proof.
  intros (c0 & cs0 & -> & Hc0 & Hcs0) (ws & body & Hws & Hbody & ->) H.
  apply parse_match_group in H as (g & Hg & ->).
  apply re_match_sound in Hg as (u & rest & E & Hm).
  apply function_pattern_shape in Hm
    as (ws1 & f' & ws2 & a & ws3 & Hws1 & (c1 & cs1 & -> & Hc1 & Hcs1) & Hws2 & -> & -> & _).
  destruct ws1 as [|w ws1].
  - cbn [app] in E. rewrite <- !app_assoc in E. cbn [app] in E.
    injection E as -> E. f_equal. symmetry.
    eapply (run_unique ident_char); [exact Hcs0 | exact Hcs1 | | | exact E].
    + intros x t Ec. eapply after_name_no_ident; [exact Hws | exact Ec].
    + intros x t Ec. eapply after_name_no_ident; [exact Hws2 | exact Ec].
  - cbn [app forallb] in *. injection E as -> _.
    apply andb_true_iff in Hws1 as [Hw _].
    apply ident_start_char, ident_char_ascii in Hc0 as [Hs _]. congruence.
Qed.

Lemma parse_matches_In (l : list str) :
  forall calls c, parse_matches l = Ok calls -> In c calls ->
    exists m, In m l /\ parse_match m = Ok (Some c).
Proof.
  induction l as [|m l IH]; intros calls c H Hc; cbn in H.
  - injection H as <-. contradiction.
  - destruct (parse_match m) as [o|] eqn:Em; [|discriminate].
    destruct (parse_matches l) as [rest|] eqn:El; [|discriminate].
    injection H as <-. destruct o as [call|].
    + destruct Hc as [<-|Hc]; [exists m; cbn; auto|].
      destruct (IH _ _ eq_refl Hc) as (m' & Hm' & Hp). exists m'. cbn. auto.
    + destruct (IH _ _ eq_refl Hc) as (m' & Hm' & Hp). exists m'. cbn. auto.
Qed.

Lemma all_matches_In (text m : str) :
  In m (all_matches text) <->
  In m (matches1 text) \/ In m (matches2 text) \/ In m (matches3 text).
Proof.
  unfold all_matches. rewrite merge_matches_In. cbn [In]. split.
  - intros (l & [<-|[<-|[<-|[]]]] & H); auto.
  - intros [H|[H|H]]; eauto 6.
Qed.

Lemma bare_name_identifier (f : str) : In f bare_names -> is_identifier f.
Proof.
  unfold bare_names. cbn [In]. intros H.
  repeat (destruct H as [<-|H]; [eexists _, _; split; [reflexivity|]; split; reflexivity|]).
  contradiction.
Qed.

(** Every call parsed from a span of the bare form has one of the nine
    names of the allow-list. *)
Lemma bare_span_name (text m : str) (c : ToolCall) :
  In m (matches3 text) -> parse_match m = Ok (Some c) -> In (name c) bare_names.
Proof.
  intros Hm Hp. apply matches3_shape in Hm as (f & Hf & Hspan).
  rewrite (parse_match_name f m c); auto using bare_name_identifier.
Qed.

(** Without a marker in the text, neither marker pattern matches. *)
Lemma no_marker_no_matches (text : str) :
  contains marker text = false -> matches1 text = [] /\ matches2 text = [].
Proof.
  intros Hno. split.
  - destruct (matches1 text) as [|m l] eqn:E; [reflexivity|].
    destruct (matches1_shape text m) as (pre & rest & Ht); [rewrite E; left; reflexivity|].
    rewrite Ht, contains_app in Hno. discriminate.
  - destruct (matches2 text) as [|m l] eqn:E; [reflexivity|].
    destruct (matches2_shape text m) as (_ & pre & ws & rest & Ht); [rewrite E; left; reflexivity|].
    replace (pre ++ m ++ ws ++ marker ++ rest) with ((pre ++ m ++ ws) ++ marker ++ rest) in Ht
      by (rewrite <- !app_assoc; reflexivity).
    rewrite Ht, contains_app in Hno. discriminate.
Qed.

(** In a response text that carries no tool-call marker, every call
    parse_tool_calls extracts has a name of the fixed allow-list. *)
Theorem bare_calls_allow_listed (response_text : str) (calls : list ToolCall) :
  contains marker response_text = false ->
  parse_tool_calls response_text = Ok calls ->
  Forall (fun c => In (name c) bare_names) calls.
Proof.
  intros Hno Hparse. apply Forall_forall. intros c Hc.
  apply list_elem_of_In in Hc.
  destruct (parse_matches_In _ _ _ Hparse Hc) as (m & Hm & Hp).
  apply all_matches_In in Hm.
  destruct (no_marker_no_matches _ Hno) as [E1 E2]. rewrite E1, E2 in Hm.
  destruct Hm as [[]|[[]|Hm]]. eapply bare_span_name; eassumption.
Qed.

End ParseMatch.

(** A response with one allow-listed bare call at the end of a line, and
    bare calls of other names (one of them a tool of the registry) at the
    end of a line, at the end of the text and before a full stop. *)
Definition bare_text : str :=
  py "I will wait(seconds=2)" ++ [newline] ++ py "then double_click(x=0.5, y=0.5)"
  ++ [newline] ++ py "and foo(bar=1). At last open_terminal()".

Example bare_text_parse :
  parse_tool_calls (U := ascii_only) bare_text
  = Ok [ {| name := py "wait"; arguments := [(py "seconds", VInt 2)] |} ].
Proof. vm_compute. reflexivity. Qed.

Lemma bare_calls_allow_listed_witness :
  Forall (fun c => In (name c) bare_names)
    [ {| name := py "wait"; arguments := [(py "seconds", VInt 2)] |} ].
Proof.
  apply (bare_calls_allow_listed (U := ascii_only) bare_text).
  - vm_compute. reflexivity.
  - vm_compute. reflexivity.
Defined.

(** The names of the allow-list are searched at every position, with no
    word boundary before them: of a bare call whose name only ends in an
    allow-listed name, the call under that shorter name is extracted. *)
Example bare_suffix_parse :
  parse_tool_calls (U := ascii_only) (py "await(seconds=2)")
  = Ok [ {| name := py "wait"; arguments := [(py "seconds", VInt 2)] |} ].
Proof. vm_compute. reflexivity. Qed.

(** ** The bare form and the marker: where an extracted call stands *)

Section Origin.
Context {U : Unicode}.






End Origin.



(** ** Completeness of the matcher on patterns without lookahead *)

Lemma star_greedy_some {R} (p : N -> bool) (s : str) (k : str -> option R) :
  k s <> None -> star_greedy p s k <> None.
Proof.
  intros Hk. destruct s as [|c s]; cbn; [exact Hk|].
  destruct (p c); [|exact Hk]. destruct (star_greedy p s k); [discriminate | exact Hk].
Qed.

Lemma star_greedy_complete {R} (p : N -> bool) (u rest : str) (k : str -> option R) :
  forallb p u = true -> k rest <> None -> star_greedy p (u ++ rest) k <> None.
Proof.
  intros Hu Hk. induction u as [|c u IH]; cbn [app].
  - apply star_greedy_some, Hk.
  - cbn in Hu. apply andb_true_iff in Hu as [Hc Hu]. cbn. rewrite Hc.
    specialize (IH Hu). destruct (star_greedy p (u ++ rest) k); [discriminate | congruence].
Qed.

Lemma star_lazy_complete {R} (p : N -> bool) (u rest : str) (k : str -> option R) :
  forallb p u = true -> k rest <> None -> star_lazy p (u ++ rest) k <> None.
Proof.
  intros Hu Hk. induction u as [|c u IH]; cbn [app].
  - destruct rest; cbn; destruct (k _); congruence.
  - cbn in Hu. apply andb_true_iff in Hu as [Hc Hu]. cbn. rewrite Hc.
    destruct (k (c :: u ++ rest)); [discriminate | exact (IH Hu)].
Qed.

(** When a pattern without lookahead can match so that the continuation
    succeeds, the matcher succeeds. *)
Lemma rmatch_complete (r : regex) :
  no_lookahead r ->
  forall {R} (u rest : str) (g g' : groups) (k : str -> groups -> option R),
    matched r u rest g g' -> k rest g' <> None -> rmatch r (u ++ rest) g k <> None.
Proof.
  induction r as [|p|l|a IHa b IHb|a IHa b IHb|p|p|i a IHa|a IHa|];
    intros Hno R u rest g g' k Hm Hk; cbn in Hm, Hno; cbn [rmatch].
  - destruct Hm as [-> ->]. exact Hk.
  - destruct Hm as (c & -> & Hc & ->). cbn. rewrite Hc. exact Hk.
  - destruct Hm as [-> ->]. rewrite strip_prefix_app. exact Hk.
  - destruct Hm as (u1 & u2 & g1 & -> & Ha & Hb). destruct Hno as [Hna Hnb].
    rewrite <- app_assoc. eapply IHa; [exact Hna | exact Ha|].
    eapply IHb; eassumption.
  - destruct Hno as [Hna Hnb]. destruct Hm as [Ha|Hb].
    + pose proof (IHa Hna _ _ _ _ _ k Ha Hk) as H.
      destruct (rmatch a (u ++ rest) g k); congruence.
    + destruct (rmatch a (u ++ rest) g k); [discriminate|].
      eapply IHb; eassumption.
  - destruct Hm as [Hu ->]. apply star_greedy_complete; assumption.
  - destruct Hm as [Hu ->]. apply star_lazy_complete; assumption.
  - destruct Hm as (g1 & Ha & ->). eapply IHa; [exact Hno | exact Ha|].
    rewrite take_app_length_diff. exact Hk.
  - contradiction.
  - destruct Hm as (-> & Hend & ->). cbn [app]. rewrite Hend. exact Hk.
Qed.

Lemma re_match_complete (r : regex) (s : str) (g : groups) :
  no_lookahead r -> matched r s [] [] g -> re_match r s <> None.
Proof.
  intros Hno Hm. unfold re_match, match_here.
  pose proof (rmatch_complete r Hno s [] [] g (fun s' g0 => Some (s', g0)) Hm) as H.
  rewrite app_nil_r in H.
  destruct (rmatch r s [] (fun s' g0 => Some (s', g0))) as [[? ?]|]; [discriminate|].
  exfalso. apply H; [discriminate | reflexivity].
Qed.

(** ** The merge keeps one copy of a span: one call at most *)

Section Dedup.
Context {U : Unicode}.

(** The function pattern accepts every call span that holds no newline. *)
Lemma function_pattern_accepts (f m : str) :
  is_identifier f -> call_span f m -> ~ In newline m ->
  re_match function_pattern m <> None.
Proof.
  intros (c & cs & -> & Hc & Hcs) (ws & body & Hws & Hbody & ->) Hnl.
  eapply re_match_complete with (g := [(2%nat, body); (1%nat, c :: cs)]).
  - cbn. tauto.
  - cbn -[py]. exists [], (((c :: cs) ++ ws ++ py "(" ++ body ++ py ")")), [].
    split; [reflexivity|]. split; [auto|].
    exists (c :: cs), (ws ++ py "(" ++ body ++ py ")"), [(1%nat, c :: cs)].
    split; [reflexivity|]. split.
    { exists []. split; [|reflexivity]. exists [c], cs, []. split; [reflexivity|].
      split; [exists c; auto | auto]. }
    exists ws, (py "(" ++ body ++ py ")"), [(1%nat, c :: cs)].
    split; [reflexivity|]. split; [auto|].
    exists (py "("), (body ++ py ")"), [(1%nat, c :: cs)].
    split; [reflexivity|]. split; [auto|].
    exists body, (py ")"), [(2%nat, body); (1%nat, c :: cs)].
    split; [reflexivity|]. split.
    { exists [(1%nat, c :: cs)]. split; [|reflexivity]. split; [|reflexivity].
      apply forallb_forall. intros x Hx. unfold not_newline.
      destruct (N.eqb_spec x newline) as [->|]; [|reflexivity].
      exfalso. apply Hnl. rewrite !in_app_iff. cbn [In]. auto 10. }
    exists (py ")"), [], [(2%nat, body); (1%nat, c :: cs)].
    split; [reflexivity|]. split; [auto|].
    exists [], [], [(2%nat, body); (1%nat, c :: cs)]. cbn. auto.
Qed.

Lemma parse_matches_app (l1 l2 : list str) (m : str) (calls : list ToolCall) :
  parse_matches (l1 ++ m :: l2) = Ok calls ->
  exists calls1 call calls2,
    parse_matches l1 = Ok calls1 /\ parse_match m = Ok call /\
    parse_matches l2 = Ok calls2 /\ calls = calls1 ++ option_list call ++ calls2.
Proof.
  revert calls. induction l1 as [|m1 l1 IH]; intros calls H; cbn [app parse_matches] in H.
  - destruct (parse_match m) as [call|]; [|discriminate].
    destruct (parse_matches l2) as [calls2|]; [|discriminate].
    injection H as <-. exists [], call, calls2. destruct call; cbn; auto.
  - destruct (parse_match m1) as [call1|] eqn:E1; [|discriminate].
    destruct (parse_matches (l1 ++ m :: l2)) as [rest|] eqn:E; [|discriminate].
    injection H as <-.
    destruct (IH _ eq_refl) as (calls1 & call & calls2 & H1 & Hm & H2 & ->).
    cbn [parse_matches]. rewrite E1, H1.
    eexists _, call, calls2. split; [reflexivity|]. split; [exact Hm|]. split; [exact H2|].
    destruct call1; reflexivity.
Qed.

(** C5, amended: a span matched by both the delimited and the
    marker-suffixed pattern stands exactly once in the merged match list
    (the first occurrence is kept), so it contributes at most one ToolCall:
    exactly one when the span holds no line break, none when the function
    pattern rejects it. *)
Theorem merged_span_one_call (response_text m : str) :
  In m (matches1 response_text) -> In m (matches2 response_text) ->
  exists before after,
    all_matches response_text = before ++ m :: after /\
    ~ In m before /\ ~ In m after /\
    forall calls, parse_tool_calls response_text = Ok calls ->
      exists calls_before call calls_after,
        parse_matches before = Ok calls_before /\
        parse_match m = Ok call /\
        parse_matches after = Ok calls_after /\
        calls = calls_before ++ option_list call ++ calls_after /\
        (~ In newline m -> exists c, call = Some c).
Proof.
  intros H1 H2.
  destruct (merge_matches_split [matches1 response_text; matches2 response_text;
                                 matches3 response_text] m)
    as (before & after & E & Hb & Ha).
  { apply all_matches_In. auto. }
  exists before, after. split; [exact E|]. split; [exact Hb|]. split; [exact Ha|].
  intros calls Hcalls. unfold parse_tool_calls, all_matches in Hcalls. rewrite E in Hcalls.
  apply parse_matches_app in Hcalls as (c1 & call & c2 & Hc1 & Hm & Hc2 & ->).
  exists c1, call, c2. repeat (split; [assumption|]). split; [reflexivity|].
  intros Hnl. apply matches2_shape in H2 as [(f & Hf & Hspan) _].
  pose proof (function_pattern_accepts f m Hf Hspan Hnl) as Hacc.
  unfold parse_match in Hm. destruct (re_match function_pattern m) as [g|]; [|congruence].
  destruct (strip (group 2 g)); [injection Hm as <-; eauto|].
  destruct (parse_args _ _); [injection Hm as <-; eauto | discriminate].
Qed.

End Dedup.

(** A delimited call whose argument list runs over two lines. *)
Definition two_line_text : str :=
  py "<|tool_call|>f(x=1," ++ [newline] ++ py "y=2)<|tool_call|>".
Definition two_line_span : str := py "f(x=1," ++ [newline] ++ py "y=2)".

(** C5, as stated, fails on it: both patterns match the span, the merge
    keeps it once, and it contributes no ToolCall at all, since the function
    pattern's dot matches no newline and the span is skipped. *)
Lemma merged_span_without_call :
  In two_line_span (matches1 two_line_text) /\
  In two_line_span (matches2 (U := ascii_only) two_line_text) /\
  all_matches (U := ascii_only) two_line_text = [two_line_span] /\
  parse_tool_calls (U := ascii_only) two_line_text = Ok [].
Proof. vm_compute. repeat split; left; reflexivity. Qed.

Definition one_line_text : str := py "<|tool_call|>f(x=1)<|tool_call|>".

Lemma merged_span_one_call_witness :
  exists before after,
    all_matches (U := ascii_only) one_line_text = before ++ py "f(x=1)" :: after /\
    ~ In (py "f(x=1)") before /\ ~ In (py "f(x=1)") after /\
    forall calls, parse_tool_calls (U := ascii_only) one_line_text = Ok calls ->
      exists calls_before call calls_after,
        parse_matches (U := ascii_only) before = Ok calls_before /\
        parse_match (U := ascii_only) (py "f(x=1)") = Ok call /\
        parse_matches (U := ascii_only) after = Ok calls_after /\
        calls = calls_before ++ option_list call ++ calls_after /\
        (~ In newline (py "f(x=1)") -> exists c, call = Some c).
Proof.
  apply (merged_span_one_call (U := ascii_only) one_line_text (py "f(x=1)")).
  - vm_compute. left. reflexivity.
  - vm_compute. left. reflexivity.
Defined.

Example one_line_parse :
  parse_tool_calls (U := ascii_only) one_line_text
  = Ok [ {| name := py "f"; arguments := [(py "x", VInt 1)] |} ].
Proof. vm_compute. reflexivity. Qed.

(** ** The program logic: rules, and what it says about runs *)

Lemma wp_bind {A B} (I : list label -> Prop) (p : prog A) (f : A -> prog B)
    (h : list label) (Q : B -> list label -> Prop) :
  wp I p h (fun a h' => wp I (f a) h' Q) -> wp I (bind p f) h Q.
Proof.
  revert h. induction p as [a|e k IH]; intros h H; cbn in *.
  - exact H.
  - intros a. destruct (H a) as [Hi Hk]. split; [exact Hi | apply IH, Hk].
Qed.

Lemma wp_mono {A} (I I' : list label -> Prop) (p : prog A) (h : list label)
    (Q Q' : A -> list label -> Prop) :
  (forall h', I h' -> I' h') -> (forall a h', Q a h' -> Q' a h') ->
  wp I p h Q -> wp I' p h Q'.
Proof.
  intros HI HQ. revert h. induction p as [a|e k IH]; intros h H; cbn in *.
  - apply HQ, H.
  - intros a. destruct (H a) as [Hi Hk]. split; [apply HI, Hi | apply IH, Hk].
Qed.

Lemma wp_mbind {A B} (I : list label -> Prop) (m : M A) (f : A -> M B) (ag : VLMAgent)
    (h : list label) (Q : result B * VLMAgent -> list label -> Prop) :
  wp I (m ag) h (fun ra h' =>
    match ra.1 with
    | Ok a => wp I (f a ra.2) h' Q
    | Raise e => Q (Raise e, ra.2) h'
    end) ->
  wp I (mbind m f ag) h Q.
Proof.
  intros H. unfold mbind. apply wp_bind. eapply wp_mono; [| |exact H].
  - auto.
  - intros [r ag'] h' Hr. cbn in *. destruct r; exact Hr.
Qed.

Lemma wp_try_except {A} (I : list label -> Prop) (m : M A) (handler : exn -> M A)
    (ag : VLMAgent) (h : list label) (Q : result A * VLMAgent -> list label -> Prop) :
  wp I (m ag) h (fun ra h' =>
    match ra.1 with
    | Ok a => Q (Ok a, ra.2) h'
    | Raise e => wp I (handler e ra.2) h' Q
    end) ->
  wp I (try_except m handler ag) h Q.
Proof.
  intros H. unfold try_except. apply wp_bind. eapply wp_mono; [| |exact H].
  - auto.
  - intros [r ag'] h' Hr. cbn in *. destruct r; exact Hr.
Qed.

Lemma wp_lift {A} (I : list label -> Prop) (p : prog A) (ag : VLMAgent)
    (h : list label) (Q : result A * VLMAgent -> list label -> Prop) :
  wp I p h (fun a h' => Q (Ok a, ag) h') -> wp I (lift p ag) h Q.
Proof. intros H. unfold lift. apply wp_bind. exact H. Qed.

Lemma label_of_not_release (e : event) (a : answer e) : is_release (label_of e a) = false.
Proof. destruct e; reflexivity. Qed.

Lemma events_cons_event (e : event) (a : answer e) (fired : list label) (t : list label) :
  (fired = [] \/ fired = [LRelease]) ->
  events (fired ++ label_of e a :: t) = label_of e a :: events t.
Proof.
  intros [-> | ->]; cbn; rewrite label_of_not_release; reflexivity.
Qed.

(** What [wp] promises holds of every run: the invariant after each event,
    and the postcondition when the run returns. *)
Lemma wp_interp {A} (I : list label -> Prop) (p : prog A) :
  forall (h : list label) (Q : A -> list label -> Prop) (w : env) (i : nat) (flag : bool),
    wp I p h Q ->
    (forall t1 l t2, events (interp w p i flag).2 = t1 ++ l :: t2 -> I (l :: rev t1 ++ h)) /\
    (forall a, (interp w p i flag).1 = Done a -> Q a (rev (events (interp w p i flag).2) ++ h)).
Proof.
  induction p as [a|e k IH]; intros h Q w i flag H; cbn [interp].
  - cbn. split.
    + intros [|? ?] ? t2 E; discriminate.
    + intros a' [= <-]. exact H.
  - cbn in H. destruct (gate e (flag || releases w i)) as [flag'|].
    + cbn [fst snd]. destruct (H (answers w i e)) as [Hi Hk].
      destruct (IH _ _ Q w (S i) flag' Hk) as [IH1 IH2].
      rewrite events_cons_event by (destruct (releases w i); auto). split.
      * intros [|l1 t1] l0 t2 E; injection E as <- E.
        -- exact Hi.
        -- cbn [rev]. rewrite <- app_assoc. cbn [app]. apply IH1 with t2. exact E.
      * intros a Ha. specialize (IH2 a Ha). cbn [rev]. rewrite <- app_assoc. exact IH2.
    + cbn [fst snd]. split.
      * intros t1 l t2 E. destruct (releases w i); destruct t1; discriminate.
      * discriminate.
Qed.

(** A run is blocked only at a [wait]: a program whose invariant allows no
    [wait] runs to its end. *)
Lemma wp_not_blocked {A} (I : list label -> Prop) (p : prog A) :
  (forall h, ~ I (LWait :: h)) ->
  forall (h : list label) (Q : A -> list label -> Prop) (w : env) (i : nat) (flag : bool),
    wp I p h Q -> (interp w p i flag).1 <> Blocked.
Proof.
  intros Hw. induction p as [a|e k IH]; intros h Q w i flag H; cbn [interp].
  - discriminate.
  - cbn in H. destruct (H (answers w i e)) as [Hi Hk].
    destruct (gate e (flag || releases w i)) as [flag'|] eqn:E.
    + cbn [fst]. eapply IH, Hk.
    + destruct e; cbn in E; try discriminate. exfalso. exact (Hw _ Hi).
Qed.

Lemma interp_gate_ok {A} (p : prog A) :
  forall (w : env) (i : nat) (flag : bool), gate_ok flag (interp w p i flag).2.
Proof.
  induction p as [a|e k IH]; intros w i flag; cbn [interp].
  - exact Logic.I.
  - destruct (releases w i) eqn:Er; rewrite ?orb_true_r, ?orb_false_r.
    + destruct (gate e true) as [flag'|] eqn:E; cbn; [|exact Logic.I].
      specialize (IH (answers w i e) w (S i) flag').
      destruct e; cbn in *; injection E as <-; auto.
    + destruct (gate e flag) as [flag'|] eqn:E; cbn; [|exact Logic.I].
      specialize (IH (answers w i e) w (S i) flag').
      destruct e; cbn in *; try (injection E as <-; auto).
      destruct flag; [injection E as <-; auto | discriminate].
Qed.

Lemma gate_ok_wait (t1 t2 : list label) :
  forall flag, gate_ok flag (t1 ++ LWait :: t2) -> flag_after flag t1 = true.
Proof.
  induction t1 as [|l t1 IH]; intros flag H; cbn in *.
  - destruct H as [-> _]. reflexivity.
  - destruct l; cbn in *; try (apply IH; tauto).
Qed.

(** No flag is set without a release. *)
Lemma flag_after_release (t : list label) :
  forall flag, flag_after flag t = true -> flag = true \/ In LRelease t.
Proof.
  induction t as [|l t IH]; intros flag H; cbn in *; [auto|].
  destruct l; try (destruct (IH _ H); auto).
  discriminate.
Qed.

(** ** The executor *)

(** The loop of the executor runs the handler of every known call, in order,
    whatever the handlers answer; [P] is any property of the history that
    handler runs preserve. *)
Lemma wp_execute_loop (I P : list label -> Prop) (tool_calls : list ToolCall) :
  (forall f a r h', P h' -> I (LInvoke f a r :: h') /\ P (LInvoke f a r :: h')) ->
  forall (results : list str) (h : list label) (Q : list str -> list label -> Prop),
    P h ->
    (forall rs, length rs = length (known_calls tool_calls) ->
       P (rev (exec_labels tool_calls rs) ++ h) ->
       Q (results ++ exec_lines tool_calls rs) (rev (exec_labels tool_calls rs) ++ h)) ->
    wp I (execute_loop tool_calls results) h Q.
Proof.
  intros Hstep. induction tool_calls as [|call rest IH]; intros results h Q HP HQ.
  - cbn. specialize (HQ [] eq_refl). cbn in HQ. rewrite app_nil_r in HQ. auto.
  - cbn [execute_loop]. destruct (in_tools (name call)) eqn:Hk.
    + cbn [wp label_of]. intros r. destruct (Hstep (name call) (arguments call) r h HP) as [Hi HP'].
      split; [exact Hi|].
      assert (Hgoal : forall line,
                 (match r with
                  | Ok result => line_result (name call) result
                  | Raise e => line_error (name call) e
                  end) = line ->
                 wp I (execute_loop rest (results ++ [line]))
                   (LInvoke (name call) (arguments call) r :: h) Q).
      { intros line Hline. apply IH; [exact HP'|]. intros rs Hlen HPrs.
        specialize (HQ (r :: rs)). cbn [known_calls List.filter exec_lines exec_labels] in HQ.
        rewrite Hk in HQ. cbn [length rev] in HQ.
        rewrite <- !app_assoc in HQ. cbn [app] in HQ.
        rewrite <- app_assoc. cbn [app].
        destruct r; subst line; (apply HQ; [f_equal; exact Hlen | exact HPrs]). }
      destruct r; apply Hgoal; reflexivity.
    + apply IH; [exact HP|]. intros rs Hlen HPrs.
      specialize (HQ rs). cbn [known_calls List.filter exec_lines exec_labels] in HQ.
      rewrite Hk in HQ. rewrite <- app_assoc. cbn [app]. apply HQ; assumption.
Qed.

Lemma wp_execute_tool_calls (I P : list label -> Prop) (tool_calls : list ToolCall)
    (h : list label) (Q : str -> list label -> Prop) :
  (forall f a r h', P h' -> I (LInvoke f a r :: h') /\ P (LInvoke f a r :: h')) ->
  P h ->
  (forall rs, length rs = length (known_calls tool_calls) ->
     P (rev (exec_labels tool_calls rs) ++ h) ->
     Q (join [newline] (exec_lines tool_calls rs)) (rev (exec_labels tool_calls rs) ++ h)) ->
  wp I (execute_tool_calls tool_calls) h Q.
Proof.
  intros Hstep HP HQ. unfold execute_tool_calls. apply wp_bind.
  eapply wp_execute_loop; [exact Hstep | exact HP|].
  intros rs Hlen HPrs. cbn. apply HQ; assumption.
Qed.

(** The invocations are those of the known calls, in their order. *)
Lemma exec_labels_zip (tool_calls : list ToolCall) :
  forall rs, length rs = length (known_calls tool_calls) ->
    exec_labels tool_calls rs
    = zip_with (fun call r => LInvoke (name call) (arguments call) r) (known_calls tool_calls) rs.
Proof.
  induction tool_calls as [|call rest IH]; intros rs Hlen; cbn [exec_labels known_calls List.filter].
  - reflexivity.
  - fold (known_calls rest). cbn [known_calls List.filter] in Hlen. fold (known_calls rest) in Hlen.
    destruct (in_tools (name call)).
    + destruct rs as [|r rs]; [discriminate|]. cbn. f_equal. apply IH. cbn in Hlen. lia.
    + apply IH, Hlen.
Qed.

(** One line per call, of the kind its name and its handler's outcome decide. *)
Lemma exec_lines_per_call (tool_calls : list ToolCall) :
  forall rs, length rs = length (known_calls tool_calls) ->
    Forall2 line_for tool_calls (exec_lines tool_calls rs).
Proof.
  induction tool_calls as [|call rest IH]; intros rs Hlen; cbn [exec_lines].
  - constructor.
  - cbn [known_calls List.filter] in Hlen. fold (known_calls rest) in Hlen.
    unfold line_for at 1. destruct (in_tools (name call)) eqn:Hk.
    + destruct rs as [|[result|e] rs]; [discriminate| |]; cbn in Hlen;
        (constructor; [rewrite Hk; eauto 6 | apply IH; lia]).
    + constructor; [rewrite Hk; auto | apply IH, Hlen].
Qed.

(** C8: execute_tool_calls runs the handlers of the calls strictly in parse
    order and always returns the combined text: whatever a handler does,
    the handler of every later call is still run; a handler that raises
    yields its error line, a name without a handler yields the unknown-tool
    line, and the text joins one line per call, in order. *)
Theorem execute_tool_calls_in_order (tool_calls : list ToolCall) (w : env) (i : nat)
    (flag : bool) :
  exists rs : list (result str),
    length rs = length (known_calls tool_calls) /\
    events (interp w (execute_tool_calls tool_calls) i flag).2
      = zip_with (fun call r => LInvoke (name call) (arguments call) r)
          (known_calls tool_calls) rs /\
    (interp w (execute_tool_calls tool_calls) i flag).1
      = Done (join [newline] (exec_lines tool_calls rs)) /\
    Forall2 line_for tool_calls (exec_lines tool_calls rs).
Proof.
  set (I := fun h : list label =>
              match h with LInvoke _ _ _ :: _ => True | _ => False end).
  set (Q := fun (text : str) (h : list label) =>
              exists rs, length rs = length (known_calls tool_calls) /\
                         h = rev (exec_labels tool_calls rs) ++ [] /\
                         text = join [newline] (exec_lines tool_calls rs)).
  assert (Hwp : wp I (execute_tool_calls tool_calls) [] Q).
  { apply wp_execute_tool_calls with (P := fun _ => True); [cbn; auto | exact Logic.I|].
    intros rs Hlen _. exists rs. auto. }
  pose proof (wp_not_blocked I (execute_tool_calls tool_calls)
                (fun h (H : I (LWait :: h)) => H) [] Q w i flag Hwp) as Hnb.
  destruct (wp_interp I (execute_tool_calls tool_calls) [] Q w i flag Hwp) as [_ Hdone].
  destruct (interp w (execute_tool_calls tool_calls) i flag) as [[text|] t]; cbn [fst snd] in *;
    [|congruence].
  destruct (Hdone text eq_refl) as (rs & Hlen & Ht & ->).
  exists rs. split; [exact Hlen|]. split; [|split; [reflexivity | apply exec_lines_per_call, Hlen]].
  rewrite !app_nil_r in Ht. apply (f_equal (@rev label)) in Ht. rewrite !rev_involutive in Ht.
  rewrite Ht. apply exec_labels_zip, Hlen.
Qed.


(** ** Methods that only produce quiet labels *)

Lemma emits_ret {A} (pe : bool) (S : label -> bool) (a : A) : emits pe S (ret a).
Proof. intros I P ag h Q Hpe Hst HP HQ. apply HQ; assumption. Qed.

Lemma emits_raise {A} (pe : bool) (S : label -> bool) (e : exn) : emits pe S (raise (A := A) e).
Proof. intros I P ag h Q Hpe Hst HP HQ. apply HQ; assumption. Qed.

Lemma emits_of_result {A} (pe : bool) (S : label -> bool) (r : result A) :
  emits pe S (of_result r).
Proof. intros I P ag h Q Hpe Hst HP HQ. apply HQ; assumption. Qed.

Lemma emits_modify (pe : bool) (S : label -> bool) (f : VLMAgent -> VLMAgent) :
  (forall ag, pause_event (f ag) = pause_event ag) -> emits pe S (modify f).
Proof.
  intros Hf I P ag h Q Hpe Hst HP HQ. apply HQ; [assumption|]. cbn. rewrite Hf. exact Hpe.
Qed.

Lemma emits_perform (pe : bool) (S : label -> bool) (e : event) :
  (forall a, S (label_of e a) = true) -> emits pe S (perform e).
Proof.
  intros He I P ag h Q Hpe Hst HP HQ. cbn. intros a.
  destruct (Hst _ h (He a) HP) as [Hi HP']. split; [exact Hi | apply HQ; assumption].
Qed.

Lemma emits_mbind {A B} (pe : bool) (S : label -> bool) (m : M A) (f : A -> M B) :
  emits pe S m -> (forall a, emits pe S (f a)) -> emits pe S (mbind m f).
Proof.
  intros Hm Hf I P ag h Q Hpe Hst HP HQ. apply wp_mbind.
  apply (Hm I P); [assumption..|]. intros r ag' h' HP' Hpe'. cbn [fst snd].
  destruct r as [a|e]; [|apply HQ; assumption].
  apply (Hf a I P); assumption.
Qed.

(** The agent read by [get_self] is the running one: its pause event is known. *)
Lemma emits_get_self {B} (pe : bool) (S : label -> bool) (f : VLMAgent -> M B) :
  (forall ag, pause_event ag = pe -> emits pe S (f ag)) -> emits pe S (mbind get_self f).
Proof.
  intros Hf I P ag h Q Hpe Hst HP HQ. apply wp_mbind. cbn.
  apply (Hf ag Hpe I P); assumption.
Qed.

Lemma emits_try_except {A} (pe : bool) (S : label -> bool) (m : M A) (handler : exn -> M A) :
  emits pe S m -> (forall e, emits pe S (handler e)) -> emits pe S (try_except m handler).
Proof.
  intros Hm Hh I P ag h Q Hpe Hst HP HQ. apply wp_try_except.
  apply (Hm I P); [assumption..|]. intros r ag' h' HP' Hpe'. cbn [fst snd].
  destruct r as [a|e]; [apply HQ; assumption|].
  apply (Hh e I P); assumption.
Qed.

Lemma emits_execute (pe : bool) (tool_calls : list ToolCall) :
  emits pe (quiet pe) (lift (execute_tool_calls tool_calls)).
Proof.
  intros I P ag h Q Hpe Hst HP HQ. apply wp_lift.
  apply wp_execute_tool_calls with (P := P); [|exact HP|].
  - intros f a r h' HP'. apply Hst; [reflexivity | exact HP'].
  - intros rs _ HP'. apply HQ; assumption.
Qed.

Ltac emits_step :=
  lazymatch goal with
  | |- emits _ _ (mbind get_self _) => apply emits_get_self; intros ? ?
  | |- emits _ _ (mbind _ _) => apply emits_mbind; [|intros ?]
  | |- emits _ _ (try_except _ _) => apply emits_try_except; [|intros ?]
  | |- emits _ _ (ret _) => apply emits_ret
  | |- emits _ _ (raise _) => apply emits_raise
  | |- emits _ _ (of_result _) => apply emits_of_result
  | |- emits _ _ (modify _) => apply emits_modify; intros ?; reflexivity
  | |- emits ?pe ?S (perform ?e) => apply (emits_perform pe S e); intros ?; reflexivity
  | |- emits _ _ (lift (execute_tool_calls _)) => apply emits_execute
  | |- emits _ _ (if ?b then _ else _) => destruct b eqn:?
  | |- emits _ _ (match ?x with _ => _ end) => destruct x eqn:?
  end.

Lemma emits_append_message (pe : bool) (c : content) : emits pe (quiet pe) (append_message c).
Proof. unfold append_message. emits_step. Qed.

Lemma emits_record_operation (pe : bool) (t : str) (p : list (str * str)) (s : bool) (r : str) :
  emits pe (quiet pe) (record_operation t p s r).
Proof. unfold record_operation. emits_step. Qed.

Lemma emits_notify (pe : bool) (k : update_kind) (m : value) : emits pe (quiet pe) (notify k m).
Proof. unfold notify. repeat emits_step. Qed.

Lemma emits_speak (pe : bool) (text : str) : emits pe (quiet pe) (speak text).
Proof. unfold speak. repeat emits_step. Qed.

Lemma emits_call_step_callback (pe : bool) (cb : bool) (arg : callback_arg) :
  emits pe (quiet pe) (call_step_callback cb arg).
Proof. unfold call_step_callback. repeat emits_step. Qed.

Lemma emits_capture_screenshot (pe : bool) : emits pe (quiet pe) capture_screenshot.
Proof. unfold capture_screenshot. repeat emits_step. Qed.

Lemma emits_wait_for_continue (pe : bool) : emits pe (quiet pe) wait_for_continue.
Proof.
  unfold wait_for_continue. apply emits_get_self. intros ag Hpe. rewrite Hpe.
  destruct pe; repeat emits_step.
Qed.

Section Quiet.
Context {U : Unicode}.

Lemma emits_handle_pause (pe : bool) (t : str) (cb : bool) (step : Z) :
  emits pe (quiet pe) (handle_manual_intervention_pause t cb step).
Proof.
  unfold handle_manual_intervention_pause.
  repeat first [ apply emits_record_operation | apply emits_speak | apply emits_call_step_callback
               | apply emits_notify | apply emits_wait_for_continue | emits_step ].
Qed.

Lemma emits_check_pause (pe : bool) (cb : bool) (step : Z) :
  emits pe (quiet pe) (check_and_handle_pause cb step).
Proof.
  unfold check_and_handle_pause.
  repeat first [ apply emits_handle_pause | emits_step ].
Qed.

Lemma emits_scan_calls (pe : bool) (tool_calls : list ToolCall) :
  emits pe (quiet pe) (scan_calls tool_calls).
Proof.
  induction tool_calls as [|call rest IH]; cbn [scan_calls].
  - emits_step.
  - repeat first [ exact IH | apply emits_notify | apply emits_wait_for_continue
                 | apply emits_capture_screenshot | apply emits_append_message | emits_step ].
Qed.

Lemma emits_run_tool_calls (pe : bool) (tool_calls : list ToolCall) :
  emits pe (quiet pe) (run_tool_calls tool_calls).
Proof.
  unfold run_tool_calls.
  repeat first [ apply emits_scan_calls | apply emits_append_message | emits_step ].
Qed.

Lemma emits_run_no_tool_calls (pe : bool) (response_text : str) :
  emits pe (quiet pe) (run_no_tool_calls response_text).
Proof.
  unfold run_no_tool_calls.
  repeat first [ apply emits_notify | apply emits_wait_for_continue | apply emits_speak
               | apply emits_capture_screenshot | apply emits_append_message | emits_step ].
Qed.

Lemma emits_perceive (pe : bool) (task : str) (cb : bool) (step : Z) :
  emits pe (quiet pe) (perceive task cb step).
Proof.
  unfold perceive.
  repeat first [ apply emits_check_pause | apply emits_record_operation | apply emits_speak
               | apply emits_call_step_callback
               | apply emits_capture_screenshot | apply emits_append_message | emits_step ].
Qed.

Lemma emits_act (pe : bool) (cb : bool) (step : Z) (response : result str) :
  emits pe (quiet pe) (act cb step response).
Proof.
  unfold act.
  repeat first [ apply emits_run_tool_calls | apply emits_run_no_tool_calls
               | apply emits_call_step_callback | apply emits_append_message | emits_step ].
Qed.

End Quiet.


(** ** The loop body and the loop, for any invariant *)

Section Loop.
Context {U : Unicode}.

(** One pass of the body: quiet labels, the model call, quiet labels.  [P1]
    holds up to the model call, [P2] from it on. *)
Lemma wp_step_body (pe : bool) (I P1 P2 : list label -> Prop) (task : str) (cb : bool)
    (step : Z) (ag : VLMAgent) (h : list label)
    (Q : result control * VLMAgent -> list label -> Prop) :
  pause_event ag = pe ->
  (forall l h', quiet pe l = true -> P1 h' -> I (l :: h') /\ P1 (l :: h')) ->
  (forall l h', quiet pe l = true -> P2 h' -> I (l :: h') /\ P2 (l :: h')) ->
  (forall m r h', P1 h' -> I (LModelCall m r :: h') /\ P2 (LModelCall m r :: h')) ->
  P1 h ->
  (forall c ag' h', P1 h' \/ P2 h' -> pause_event ag' = pe -> Q (Ok c, ag') h') ->
  wp I (step_body task cb step ag) h Q.
Proof.
  intros Hpe H1 H2 Hcall HP HQ. unfold step_body.
  apply wp_try_except. apply wp_mbind.
  apply (emits_perceive pe task cb step I P1); [assumption..|].
  intros r ag1 h1 HP1 Hpe1. cbn [fst snd].
  destruct r as [[]|e]; [|cbn; apply HQ; auto].
  apply wp_mbind. cbn [wp get_self fst snd].
  apply wp_mbind. cbn [wp perform fst snd label_of]. intros response.
  destruct (Hcall (messages ag1) response h1 HP1) as [Hi HP2]. split; [exact Hi|].
  apply (emits_act pe cb step response I P2); [assumption..|].
  intros r ag2 h2 HP2' Hpe2. cbn [fst snd].
  destruct r as [c|e]; cbn; apply HQ; auto.
Qed.

(** The loop, from a specification of its body: [Inv] holds before each
    pass, [F] is what is known of the result when the task ends. *)
Lemma wp_while_loop (pe : bool) (I : list label -> Prop) (Inv : Z -> list label -> Prop)
    (F : task_result -> list label -> Prop) (task : str) (max_steps : Z) (cb : bool) :
  (forall step ag h, pause_event ag = pe -> Inv step h -> (step < max_steps)%Z ->
     wp I (step_body task cb (step + 1) ag) h (fun r h' =>
       pause_event r.2 = pe /\
       match r.1 with
       | Ok Next => Inv (step + 1)%Z h'
       | Ok Break => forall x, F x h'
       | Ok (Return x) => F x h'
       | Raise _ => False
       end)) ->
  (forall step h, Inv step h -> forall x, F x h) ->
  forall (fuel : nat) (step : Z) (ag : VLMAgent) (h : list label),
    pause_event ag = pe -> Inv step h -> (Z.to_nat (max_steps - step) < fuel)%nat ->
    wp I (while_loop fuel task max_steps cb step ag) h (fun r h' =>
      match r.1 with
      | Ok (Some (Some x)) => F x h'
      | Ok (Some None) => forall x, F x h'
      | _ => False
      end).
Proof.
  intros Hbody Hexit. induction fuel as [|fuel IH]; intros step ag h Hpe Hinv Hfuel; [lia|].
  cbn [while_loop]. destruct (Z.ltb_spec step max_steps) as [Hlt|Hge].
  - apply wp_mbind. eapply wp_mono; [| |apply (Hbody step ag h Hpe Hinv Hlt)]; [auto|].
    intros [r ag'] h' [Hpe' Hr]. cbn [fst snd] in *.
    destruct r as [[| |x]|e]; [|exact Hr|exact Hr|contradiction].
    apply IH; [exact Hpe' | exact Hr | lia].
  - cbn. eapply Hexit, Hinv.
Qed.

Lemma wp_run_task (pe : bool) (I : list label -> Prop) (Inv : Z -> list label -> Prop)
    (F : task_result -> list label -> Prop) (task : str) (max_steps : Z) (cb : bool)
    (ag : VLMAgent) :
  pause_event ag = pe ->
  (forall p, I [LPrompt task p] /\ Inv 0%Z [LPrompt task p]) ->
  (forall step ag h, pause_event ag = pe -> Inv step h -> (step < max_steps)%Z ->
     wp I (step_body task cb (step + 1) ag) h (fun r h' =>
       pause_event r.2 = pe /\
       match r.1 with
       | Ok Next => Inv (step + 1)%Z h'
       | Ok Break => forall x, F x h'
       | Ok (Return x) => F x h'
       | Raise _ => False
       end)) ->
  (forall step h, Inv step h -> forall x, F x h) ->
  wp I (run_task task max_steps cb ag) [] (fun r h' => exists x, r.1 = Ok (Some x) /\ F x h').
Proof.
  intros Hpe Hinit Hbody Hexit. unfold run_task, run_task_fuel.
  apply wp_mbind. cbn [wp perform label_of fst snd]. intros p.
  destruct (Hinit p) as [Hi Hinv]. split; [exact Hi|].
  apply wp_mbind. cbn [wp modify fst snd].
  apply wp_mbind.
  eapply wp_mono; [| |eapply (wp_while_loop pe I Inv F task max_steps cb Hbody Hexit)];
    [auto| |exact Hpe|exact Hinv|lia].
  intros [r ag'] h' Hr. cbn [fst snd] in *.
  destruct r as [[[x|]|]|e]; try contradiction; cbn; eauto.
Qed.

End Loop.

(** An environment that fires the release signal at every event never
    leaves a program blocked. *)
Lemma interp_released {A} (p : prog A) :
  forall (w : env) (i : nat) (flag : bool),
    (forall j, releases w j = true) -> (interp w p i flag).1 <> Blocked.
Proof.
  induction p as [a|e k IH]; intros w i flag Hrel; cbn [interp].
  - discriminate.
  - rewrite Hrel, orb_true_r.
    destruct (gate e true) as [flag'|] eqn:E.
    + cbn [fst]. apply IH, Hrel.
    + destruct e; discriminate.
Qed.


(** ** The step bound *)

Lemma model_calls_cons (l : label) (h : list label) :
  model_calls (l :: h) = ((if is_model_call l then 1 else 0) + model_calls h)%nat.
Proof. unfold model_calls. cbn. destruct (is_model_call l); reflexivity. Qed.

Lemma model_calls_app (h1 h2 : list label) :
  model_calls (h1 ++ h2) = (model_calls h1 + model_calls h2)%nat.
Proof. unfold model_calls. rewrite List.filter_app, length_app. reflexivity. Qed.

Lemma model_calls_rev (h : list label) : model_calls (rev h) = model_calls h.
Proof.
  induction h as [|l h IH]; [reflexivity|].
  cbn [rev]. rewrite model_calls_app, IH, !model_calls_cons. unfold model_calls at 2. cbn. lia.
Qed.

Lemma model_calls_events (t : list label) : model_calls (events t) = model_calls t.
Proof.
  induction t as [|l t IH]; [reflexivity|].
  unfold events in *. cbn [List.filter].
  destruct l; cbn [is_release negb]; rewrite ?model_calls_cons, ?IH; reflexivity.
Qed.

Lemma quiet_not_model_call (pe : bool) (l : label) :
  quiet pe l = true -> is_model_call l = false.
Proof. destruct l; cbn; congruence. Qed.

(** The invariant of a run holds of the whole of its trace. *)
Lemma invariant_of_trace (I : list label -> Prop) (t : list label) :
  (forall t1 l t2, t = t1 ++ l :: t2 -> I (l :: rev t1)) ->
  t = [] \/ I (rev t).
Proof.
  intros H. destruct t as [|l0 t0] using rev_ind; [left; reflexivity|]. right.
  rewrite rev_app_distr. cbn. eapply H. reflexivity.
Qed.

Section StepBound.
Context {U : Unicode}.

Lemma wp_run_task_bound (task : str) (max_steps : Z) (cb : bool) (ag : VLMAgent) :
  wp (fun h => (model_calls h <= Z.to_nat max_steps)%nat)
     (run_task task max_steps cb ag) []
     (fun r _ => exists x, r.1 = Ok (Some x)).
Proof.
  eapply wp_mono;
    [| |apply (wp_run_task (pause_event ag)
                 (fun h => (model_calls h <= Z.to_nat max_steps)%nat)
                 (fun step h => (0 <= step)%Z /\ (model_calls h <= Z.to_nat step)%nat)
                 (fun _ _ => True))].
  - auto.
  - intros r h' (x & Hx & _). eauto.
  - reflexivity.
  - intros p. rewrite model_calls_cons. cbn. split; [lia|]. split; lia.
  - intros step ag' h Hpe [Hstep Hcalls] Hlt.
    apply (wp_step_body (pause_event ag) _
             (fun h' => (model_calls h' <= Z.to_nat step)%nat)
             (fun h' => (model_calls h' <= S (Z.to_nat step))%nat)); [exact Hpe|..].
    + intros l h' Hq HP. rewrite model_calls_cons, (quiet_not_model_call _ _ Hq). cbn. lia.
    + intros l h' Hq HP. rewrite model_calls_cons, (quiet_not_model_call _ _ Hq). cbn. lia.
    + intros m r h' HP. rewrite model_calls_cons. cbn. lia.
    + exact Hcalls.
    + intros c ag2 h' HP Hpe2. cbn [fst snd]. split; [exact Hpe2|].
      destruct c; auto. split; [lia|]. rewrite Z2Nat.inj_add by lia. cbn. lia.
  - auto.
Qed.

(** C2: whatever the environment answers, a run of run_task with the
    maximum step count N issues at most N model calls (none for N <= 0); it
    ends with a result (complete_task only ends it sooner) unless it is left
    waiting at the pause event, and it always ends when every wait is
    released. *)
Theorem run_task_step_bound (w : env) (ag : VLMAgent) (task : str) (max_steps : Z)
    (cb : bool) (flag : bool) :
  (model_calls (interp w (run_task task max_steps cb ag) 0 flag).2 <= Z.to_nat max_steps)%nat /\
  ((interp w (run_task task max_steps cb ag) 0 flag).1 = Blocked \/
   exists res ag', (interp w (run_task task max_steps cb ag) 0 flag).1 = Done (Ok (Some res), ag')) /\
  ((forall j, releases w j = true) ->
   exists res ag', (interp w (run_task task max_steps cb ag) 0 flag).1 = Done (Ok (Some res), ag')).
Proof.
  pose proof (wp_run_task_bound task max_steps cb ag) as Hwp.
  destruct (wp_interp _ _ _ _ w 0%nat flag Hwp) as [Hinv Hdone].
  pose proof (interp_released (run_task task max_steps cb ag) w 0%nat flag) as Hrel.
  destruct (interp w (run_task task max_steps cb ag) 0 flag) as [o t]. cbn [fst snd] in *.
  assert (Hres : o = Blocked \/ exists res ag', o = Done (Ok (Some res), ag')).
  { destruct o as [[r ag']|]; [right|left; reflexivity].
    destruct (Hdone _ eq_refl) as [x Hx]. cbn in Hx. subst r. eauto. }
  split; [|split; [exact Hres|]].
  - rewrite <- model_calls_events.
    destruct (invariant_of_trace (fun h => (model_calls h <= Z.to_nat max_steps)%nat) (events t))
      as [-> | H].
    + intros t1 l t2 E. specialize (Hinv t1 l t2 E). rewrite app_nil_r in Hinv. exact Hinv.
    + cbn. lia.
    + rewrite model_calls_rev in H. exact H.
  - intros Hall. destruct Hres as [-> | H]; [|exact H]. exfalso. exact (Hrel Hall eq_refl).
Qed.

End StepBound.


(** ** Without a pause event the loop never waits *)

(** A program that never waits runs the same way whatever the release
    signal does. *)
Lemma interp_without_wait {A} (I : list label -> Prop) (p : prog A) :
  (forall h, ~ I (LWait :: h)) ->
  forall (h : list label) (Q : A -> list label -> Prop) (w w' : env) (i : nat)
         (flag flag' : bool),
    wp I p h Q ->
    (forall j e, answers w j e = answers w' j e) ->
    events (interp w p i flag).2 = events (interp w' p i flag').2 /\
    (interp w p i flag).1 = (interp w' p i flag').1.
Proof.
  intros Hw. induction p as [a|e k IH]; intros h Q w w' i flag flag' H Hans; cbn [interp].
  - auto.
  - cbn in H. destruct (H (answers w i e)) as [Hi Hk].
    assert (Hg : forall f, exists f', gate e f = Some f').
    { intros f. destruct e; cbn; eauto. exfalso. exact (Hw _ Hi). }
    destruct (Hg (flag || releases w i)) as [f1 ->].
    destruct (Hg (flag' || releases w' i)) as [f2 ->].
    cbn [fst snd].
    rewrite !events_cons_event by (destruct (releases _ i); auto).
    rewrite <- Hans.
    destruct (IH (answers w i e) _ Q w w' (S i) f1 f2 Hk Hans) as [E1 E2].
    rewrite E1, E2. auto.
Qed.

Lemma quiet_false_no_gate (l : label) : quiet false l = true -> is_gate l = false.
Proof. destruct l; cbn; congruence. Qed.

Section NoPauseEvent.
Context {U : Unicode}.

Lemma wp_run_task_no_wait (task : str) (max_steps : Z) (cb : bool) (ag : VLMAgent) :
  pause_event ag = false ->
  wp (fun h => match h with l :: _ => is_gate l = false | [] => True end)
     (run_task task max_steps cb ag) []
     (fun r _ => exists x, r.1 = Ok (Some x)).
Proof.
  intros Hpe.
  eapply wp_mono;
    [| |apply (wp_run_task false
                 (fun h => match h with l :: _ => is_gate l = false | [] => True end)
                 (fun _ _ => True) (fun _ _ => True))].
  - auto.
  - intros r h' (x & Hx & _). eauto.
  - exact Hpe.
  - intros p. split; [reflexivity | exact Logic.I].
  - intros step ag' h Hpe' _ _.
    apply (wp_step_body false _ (fun _ => True) (fun _ => True)); [exact Hpe'|..].
    + intros l h' Hq _. split; [apply quiet_false_no_gate, Hq | exact Logic.I].
    + intros l h' Hq _. split; [apply quiet_false_no_gate, Hq | exact Logic.I].
    + intros m r h' _. split; [reflexivity | exact Logic.I].
    + exact Logic.I.
    + intros c ag2 h' _ Hpe2. cbn [fst snd]. split; [exact Hpe2|]. destruct c; auto.
  - auto.
Qed.

(** On an agent without a pause event, no run of run_task ever waits or
    clears (the trace holds no wait, the run is never left blocked and ends
    with a result), and the release signal plays no part: with another
    release schedule and another state of the flag the events and the
    result are the same. *)
Theorem no_pause_event_no_wait (w : env) (ag : VLMAgent) (task : str) (max_steps : Z)
    (cb : bool) (flag : bool) :
  pause_event ag = false ->
  Forall (fun l => is_gate l = false) (interp w (run_task task max_steps cb ag) 0 flag).2 /\
  (exists res ag',
     (interp w (run_task task max_steps cb ag) 0 flag).1 = Done (Ok (Some res), ag')) /\
  (forall (rel' : nat -> bool) (flag' : bool),
     let w' := {| answers := answers w; releases := rel' |} in
     events (interp w' (run_task task max_steps cb ag) 0 flag').2
       = events (interp w (run_task task max_steps cb ag) 0 flag).2 /\
     (interp w' (run_task task max_steps cb ag) 0 flag').1
       = (interp w (run_task task max_steps cb ag) 0 flag).1).
Proof.
  intros Hpe. pose proof (wp_run_task_no_wait task max_steps cb ag Hpe) as Hwp.
  set (I := fun h : list label => match h with l :: _ => is_gate l = false | [] => True end) in *.
  assert (HnoW : forall h, ~ I (LWait :: h)) by (intros h H; discriminate H).
  split; [|split].
  - destruct (wp_interp _ _ _ _ w 0%nat flag Hwp) as [Hinv _].
    apply Forall_forall. intros l Hl. apply list_elem_of_In in Hl.
    destruct (is_release l) eqn:Hr; [destruct l; try discriminate; reflexivity|].
    assert (Hin : In l (events (interp w (run_task task max_steps cb ag) 0 flag).2)).
    { unfold events. apply filter_In. rewrite Hr. auto. }
    apply in_split in Hin as (t1 & t2 & E). exact (Hinv t1 l t2 E).
  - pose proof (wp_not_blocked I _ HnoW _ _ w 0%nat flag Hwp) as Hnb.
    destruct (wp_interp _ _ _ _ w 0%nat flag Hwp) as [_ Hdone].
    destruct (interp w (run_task task max_steps cb ag) 0 flag) as [[[r ag']|] t];
      cbn [fst snd] in *; [|congruence].
    destruct (Hdone _ eq_refl) as [x Hx]. cbn in Hx. subst r. eauto.
  - intros rel' flag' w'.
    apply (interp_without_wait I _ HnoW _ _ w' w 0%nat flag' flag Hwp). reflexivity.
Qed.

End NoPauseEvent.

Lemma no_pause_event_no_wait_witness :
  Forall (fun l => is_gate l = false)
    (interp (scripted [pause_response; login_response; py "all set"] (fun _ => false))
       (run_task (U := ascii_only) (py "open the mail") 5 false (new_agent false true)) 0 false).2 /\
  (exists res ag',
     (interp (scripted [pause_response; login_response; py "all set"] (fun _ => false))
        (run_task (U := ascii_only) (py "open the mail") 5 false (new_agent false true)) 0 false).1
     = Done (Ok (Some res), ag')) /\
  (forall (rel' : nat -> bool) (flag' : bool),
     let w' := {| answers := answers (scripted [pause_response; login_response; py "all set"]
                                        (fun _ => false));
                  releases := rel' |} in
     events (interp w' (run_task (U := ascii_only) (py "open the mail") 5 false
                          (new_agent false true)) 0 flag').2
       = events (interp (scripted [pause_response; login_response; py "all set"] (fun _ => false))
                   (run_task (U := ascii_only) (py "open the mail") 5 false
                      (new_agent false true)) 0 false).2 /\
     (interp w' (run_task (U := ascii_only) (py "open the mail") 5 false
                   (new_agent false true)) 0 flag').1
       = (interp (scripted [pause_response; login_response; py "all set"] (fun _ => false))
            (run_task (U := ascii_only) (py "open the mail") 5 false
               (new_agent false true)) 0 false).1).
Proof.
  apply (no_pause_event_no_wait (U := ascii_only)). reflexivity.
Defined.


(** ** The pause gate *)

Lemma flag_after_app (t1 t2 : list label) :
  forall flag, flag_after flag (t1 ++ t2) = flag_after (flag_after flag t1) t2.
Proof.
  induction t1 as [|l t1 IH]; intros flag; [reflexivity|].
  destruct l; cbn; apply IH.
Qed.

(** [notify] produces at most its one label, and returns. *)
Lemma wp_notify (I : list label -> Prop) (k : update_kind) (m : value) (ag : VLMAgent)
    (h : list label) (Q : result unit * VLMAgent -> list label -> Prop) :
  I (LStepUpdate k m :: h) -> Q (Ok tt, ag) (LStepUpdate k m :: h) -> Q (Ok tt, ag) h ->
  wp I (notify k m ag) h Q.
Proof.
  intros Hi H1 H0. unfold notify. apply wp_mbind. cbn [get_self wp fst snd].
  destruct (step_update_callback ag); cbn; [intros []; auto | exact H0].
Qed.

(** With a pause event, [wait_for_continue] is a [wait], then a [clear]. *)
Lemma wp_wait_for_continue (I : list label -> Prop) (ag : VLMAgent)
    (h : list label) (Q : result unit * VLMAgent -> list label -> Prop) :
  pause_event ag = true ->
  I (LWait :: h) -> I (LClear :: LWait :: h) -> Q (Ok tt, ag) (LClear :: LWait :: h) ->
  wp I (wait_for_continue ag) h Q.
Proof.
  intros Hpe H1 H2 HQ. unfold wait_for_continue. apply wp_mbind. cbn [get_self wp fst snd].
  rewrite Hpe. apply wp_mbind. cbn. intros []. split; [exact H1|]. intros []. auto.
Qed.

Section PauseGate.
Context {U : Unicode}.

Lemma waited_quiet (pe : bool) (l : label) (h : list label) :
  quiet pe l = true -> waited h = true ->
  waits_before_call (l :: h) /\ waited (l :: h) = true.
Proof. intros Hq Hw. destruct l; cbn in *; auto; discriminate. Qed.

Lemma quiet_waits_before_call (pe : bool) (l : label) (h : list label) :
  quiet pe l = true -> waits_before_call (l :: h).
Proof. intros Hq. destruct l; cbn in *; auto; discriminate. Qed.

(** The scan of a batch with a pause_task call: it waits, unless a
    complete_task call before it ends the task. *)
Lemma scan_calls_waits (tool_calls : list ToolCall) :
  forall (ag : VLMAgent) (h : list label),
    pause_event ag = true -> has_call (py "pause_task") tool_calls = true ->
    wp waits_before_call (scan_calls tool_calls ag) h (fun r h' =>
      pause_event r.2 = true /\
      match r.1 with
      | Ok (Some _) => True
      | _ => waited h' = true
      end).
Proof.
  induction tool_calls as [|call rest IH]; intros ag h Hpe Hhas; [discriminate|].
  cbn [has_call existsb] in Hhas. cbn [scan_calls].
  destruct (str_eqb (name call) (py "pause_task")) eqn:Ep.
  - clear Hhas IH.
    assert (Hrest : forall reason, emits true (quiet true)
              (let* base64_image := capture_screenshot in
               append_message (ResumedAndImage (Some reason) base64_image);;
               scan_calls rest)).
    { intros reason.
      repeat first [ apply emits_scan_calls | apply emits_capture_screenshot
                   | apply emits_append_message | emits_step ]. }
    assert (Hgo : forall reason h0,
              wp waits_before_call
                ((wait_for_continue;;
                  let* base64_image := capture_screenshot in
                  append_message (ResumedAndImage (Some reason) base64_image);;
                  scan_calls rest) ag) h0
                (fun r h' => pause_event r.2 = true /\
                   match r.1 with Ok (Some _) => True | _ => waited h' = true end)).
    { intros reason h0. apply wp_mbind. apply wp_wait_for_continue; [exact Hpe|exact Logic.I..|].
      cbn [fst snd].
      apply (Hrest reason waits_before_call (fun h' => waited h' = true)).
      - exact Hpe.
      - intros l h' Hq Hw. exact (waited_quiet true l h' Hq Hw).
      - reflexivity.
      - intros r ag' h' Hw Hpe'. cbn [fst snd]. split; [exact Hpe'|].
        destruct r as [[x|]|e]; auto. }
    apply wp_mbind. apply wp_notify; [exact Logic.I|apply Hgo..].
  - destruct (str_eqb (name call) (py "complete_task")) eqn:Ec.
    + apply wp_mbind. apply wp_notify; [exact Logic.I|cbn; auto..].
    + apply IH; [exact Hpe|]. exact Hhas.
Qed.

(** What is done with a response: when its batch asks for a pause, the next
    pass of the loop is reached only after a wait. *)
Lemma act_waits (cb : bool) (step : Z) (m : list content) (response : result str)
    (ag : VLMAgent) (h : list label) :
  pause_event ag = true -> waited h = true ->
  wp waits_before_call (act cb step response ag) (LModelCall m response :: h) (fun r h' =>
    pause_event r.2 = true /\
    match r.1 with
    | Ok Next => waited h' = true
    | _ => True
    end).
Proof.
  intros Hpe Hw. destruct (response_has (py "pause_task") response) eqn:E.
  - destruct response as [text|e]; [|discriminate]. cbn [response_has] in E.
    destruct (parse_tool_calls text) as [calls|e] eqn:Ep; [|discriminate].
    unfold act. apply wp_mbind. cbn [of_result wp fst snd].
    apply wp_mbind. cbn [append_message modify wp fst snd].
    apply wp_mbind.
    apply (emits_call_step_callback true cb _ waits_before_call (fun _ => True)); [exact Hpe| |exact Logic.I|].
    { intros l h' Hq _. split; [exact (quiet_waits_before_call true l h' Hq)|exact Logic.I]. }
    intros r ag1 h1 _ Hpe1. cbn [fst snd]. destruct r as [[]|e]; [|cbn; auto].
    apply wp_mbind. rewrite Ep. cbn [of_result wp fst snd].
    destruct calls as [|c calls']; [discriminate|].
    unfold run_tool_calls. apply wp_mbind. apply wp_try_except. apply wp_mbind. apply wp_lift.
    apply wp_execute_tool_calls with (P := fun _ => True); [|exact Logic.I|].
    { intros f a r h' _. split; exact Logic.I. }
    intros rs _ _. cbn [fst snd]. apply wp_mbind.
    eapply wp_mono; [| |apply (scan_calls_waits (c :: calls') ag1 _ Hpe1 E)]; [auto|].
    intros [r ag2] h2 [Hpe2 Hr]. cbn [fst snd] in *.
    destruct r as [[x|]|e]; cbn; auto.
  - apply (emits_act true cb step (response) waits_before_call (fun h' => waited h' = true)).
    + exact Hpe.
    + intros l h' Hq Hw'. exact (waited_quiet true l h' Hq Hw').
    + cbn [waited]. rewrite E. reflexivity.
    + intros r ag' h' Hw' Hpe'. cbn [fst snd]. split; [exact Hpe'|].
      destruct r as [[]|]; auto.
Qed.

Lemma wp_run_task_waits (task : str) (max_steps : Z) (cb : bool) (ag : VLMAgent) :
  pause_event ag = true ->
  wp waits_before_call (run_task task max_steps cb ag) [] (fun _ _ => True).
Proof.
  intros Hpe.
  eapply wp_mono;
    [| |apply (wp_run_task true waits_before_call (fun _ h => waited h = true)
                 (fun _ _ => True))].
  - auto.
  - auto.
  - exact Hpe.
  - intros p. split; [exact Logic.I | reflexivity].
  - intros step ag0 h Hpe0 Hw _. unfold step_body.
    apply wp_try_except. apply wp_mbind.
    apply (emits_perceive true task cb (step + 1) waits_before_call (fun h' => waited h' = true)).
    + exact Hpe0.
    + intros l h' Hq Hw'. exact (waited_quiet true l h' Hq Hw').
    + exact Hw.
    + intros r ag1 h1 Hw1 Hpe1. cbn [fst snd]. destruct r as [[]|e]; [|cbn; auto].
      apply wp_mbind. cbn [wp get_self fst snd].
      apply wp_mbind. cbn [wp perform fst snd label_of]. intros response.
      split; [exact Hw1|].
      eapply wp_mono; [| |apply (act_waits cb (step + 1) (messages ag1) response ag1 h1 Hpe1 Hw1)];
        [auto|].
      intros [r ag2] h2 [Hpe2 Hr]. cbn [fst snd] in *.
      destruct r as [[| |x]|e]; cbn; auto.
  - auto.
Qed.

End PauseGate.


(** ** Every wait is followed by a clear *)

Lemma paired_bind {A B} (p : prog A) (f : A -> prog B) :
  paired p -> (forall a, paired (f a)) -> paired (bind p f).
Proof.
  intros Hp Hf. induction p as [a|e k IH]; cbn [bind paired] in *; [apply Hf|].
  destruct Hp as [Hw Hk]. split; [|intros a; apply IH, Hk].
  destruct e; try exact Logic.I.
  destruct Hw as [k' E]. exists (fun x => bind (k' x) f). rewrite E. reflexivity.
Qed.

Lemma pairedM_ret {A} (a : A) : pairedM (ret a).
Proof. intros ag. exact Logic.I. Qed.

Lemma pairedM_raise {A} (e : exn) : pairedM (raise (A := A) e).
Proof. intros ag. exact Logic.I. Qed.

Lemma pairedM_of_result {A} (r : result A) : pairedM (of_result r).
Proof. intros ag. exact Logic.I. Qed.

Lemma pairedM_modify (f : VLMAgent -> VLMAgent) : pairedM (modify f).
Proof. intros ag. exact Logic.I. Qed.

Lemma pairedM_get_self : pairedM get_self.
Proof. intros ag. exact Logic.I. Qed.

Lemma pairedM_perform (e : event) : is_wait_event e = false -> pairedM (perform e).
Proof. intros He ag. cbn. split; [destruct e; try exact Logic.I; discriminate | intros a; exact Logic.I]. Qed.

Lemma pairedM_mbind {A B} (m : M A) (f : A -> M B) :
  pairedM m -> (forall a, pairedM (f a)) -> pairedM (mbind m f).
Proof.
  intros Hm Hf ag. unfold mbind. apply paired_bind; [apply Hm|].
  intros [[a|e] ag']; cbn; [apply Hf | exact Logic.I].
Qed.

Lemma pairedM_try_except {A} (m : M A) (handler : exn -> M A) :
  pairedM m -> (forall e, pairedM (handler e)) -> pairedM (try_except m handler).
Proof.
  intros Hm Hh ag. unfold try_except. apply paired_bind; [apply Hm|].
  intros [[a|e] ag']; cbn; [exact Logic.I | apply Hh].
Qed.

Lemma paired_execute_loop (tool_calls : list ToolCall) :
  forall results, paired (execute_loop tool_calls results).
Proof.
  induction tool_calls as [|call rest IH]; intros results; cbn [execute_loop]; [exact Logic.I|].
  destruct (in_tools (name call)); [|apply IH].
  cbn. split; [exact Logic.I|]. intros [result|e]; apply IH.
Qed.

Lemma pairedM_execute (tool_calls : list ToolCall) :
  pairedM (lift (execute_tool_calls tool_calls)).
Proof.
  intros ag. unfold lift, execute_tool_calls.
  repeat (apply paired_bind; [|intros ?; try exact Logic.I]). apply paired_execute_loop.
Qed.

(** The one place of a [wait]: the [clear] is its next event. *)
Lemma pairedM_wait_for_continue : pairedM wait_for_continue.
Proof.
  intros ag. unfold wait_for_continue, mbind, get_self. cbn [bind fst snd].
  destruct (pause_event ag); cbn; [|exact Logic.I].
  split; [eexists; reflexivity|]. intros []. split; [exact Logic.I|]. intros []. exact Logic.I.
Qed.

Ltac paired_step :=
  lazymatch goal with
  | |- pairedM (mbind _ _) => apply pairedM_mbind; [|intros ?]
  | |- pairedM (try_except _ _) => apply pairedM_try_except; [|intros ?]
  | |- pairedM (ret _) => apply pairedM_ret
  | |- pairedM (raise _) => apply pairedM_raise
  | |- pairedM (of_result _) => apply pairedM_of_result
  | |- pairedM (modify _) => apply pairedM_modify
  | |- pairedM get_self => apply pairedM_get_self
  | |- pairedM wait_for_continue => apply pairedM_wait_for_continue
  | |- pairedM (perform ?e) => apply (pairedM_perform e); reflexivity
  | |- pairedM (lift (execute_tool_calls _)) => apply pairedM_execute
  | |- pairedM (if ?b then _ else _) => destruct b eqn:?
  | |- pairedM (match ?x with _ => _ end) => destruct x eqn:?
  end.

Lemma pairedM_notify (k : update_kind) (m : value) : pairedM (notify k m).
Proof. unfold notify. repeat paired_step. Qed.

Lemma pairedM_speak (text : str) : pairedM (speak text).
Proof. unfold speak. repeat paired_step. Qed.

Lemma pairedM_call_step_callback (cb : bool) (arg : callback_arg) :
  pairedM (call_step_callback cb arg).
Proof. unfold call_step_callback. repeat paired_step. Qed.

Lemma pairedM_capture_screenshot : pairedM capture_screenshot.
Proof. unfold capture_screenshot. repeat paired_step. Qed.

Section Paired.
Context {U : Unicode}.

Lemma pairedM_handle_pause (t : str) (cb : bool) (step : Z) :
  pairedM (handle_manual_intervention_pause t cb step).
Proof.
  unfold handle_manual_intervention_pause, record_operation.
  repeat first [ apply pairedM_speak | apply pairedM_call_step_callback
               | apply pairedM_notify | paired_step ].
Qed.

Lemma pairedM_scan_calls (tool_calls : list ToolCall) : pairedM (scan_calls tool_calls).
Proof.
  induction tool_calls as [|call rest IH]; cbn [scan_calls].
  - paired_step.
  - unfold append_message.
    repeat first [ exact IH | apply pairedM_notify | apply pairedM_capture_screenshot
                 | paired_step ].
Qed.

Lemma pairedM_act (cb : bool) (step : Z) (response : result str) :
  pairedM (act cb step response).
Proof.
  unfold act, run_tool_calls, run_no_tool_calls, append_message.
  repeat first [ apply pairedM_scan_calls | apply pairedM_notify | apply pairedM_speak
               | apply pairedM_capture_screenshot | apply pairedM_call_step_callback
               | paired_step ].
Qed.

Lemma pairedM_perceive (task : str) (cb : bool) (step : Z) : pairedM (perceive task cb step).
Proof.
  unfold perceive, check_and_handle_pause, append_message, record_operation.
  repeat first [ apply pairedM_handle_pause | apply pairedM_speak
               | apply pairedM_capture_screenshot | apply pairedM_call_step_callback
               | paired_step ].
Qed.

Lemma pairedM_while_loop (fuel : nat) (task : str) (max_steps : Z) (cb : bool) :
  forall step, pairedM (while_loop fuel task max_steps cb step).
Proof.
  induction fuel as [|fuel IH]; intros step; cbn [while_loop]; [paired_step|].
  unfold step_body.
  repeat first [ apply IH | apply pairedM_perceive | apply pairedM_act | paired_step ].
Qed.

Lemma paired_run_task (task : str) (max_steps : Z) (cb : bool) (ag : VLMAgent) :
  paired (run_task task max_steps cb ag).
Proof.
  revert ag. change (pairedM (run_task task max_steps cb)). unfold run_task, run_task_fuel.
  repeat first [ apply pairedM_while_loop | paired_step ].
Qed.

End Paired.

(** In a run of a paired program every [wait] that returns is followed at
    once by the [clear], which leaves the flag down. *)
Lemma paired_interp {A} (p : prog A) :
  paired p ->
  forall (w : env) (i : nat) (flag : bool) (t1 t2 : list label),
    events (interp w p i flag).2 = t1 ++ LWait :: t2 -> exists t2', t2 = LClear :: t2'.
Proof.
  induction p as [a|e k IH]; intros Hp w i flag t1 t2 E; cbn [interp] in E.
  - destruct t1; discriminate.
  - cbn [paired] in Hp. destruct Hp as [Hw Hk].
    destruct (gate e (flag || releases w i)) as [flag'|] eqn:Eg; cbn [fst snd] in E.
    + rewrite events_cons_event in E by (destruct (releases w i); auto).
      destruct t1 as [|l t1]; injection E as E1 E2.
      * destruct e; try discriminate. destruct Hw as [k' Ek].
        destruct (answers w i Wait). rewrite Ek in E2. cbn [interp gate fst snd] in E2.
        rewrite events_cons_event in E2 by (destruct (releases w (S i)); auto).
        rewrite <- E2. eauto.
      * eapply IH; [apply Hk | exact E2].
    + destruct (releases w i); destruct t1; discriminate.
Qed.


(** ** The pause gate on runs *)

Lemma events_app (t1 t2 : list label) : events (t1 ++ t2) = events t1 ++ events t2.
Proof. apply List.filter_app. Qed.

Lemma In_events (l : label) (t : list label) : In l (events t) -> In l t.
Proof. unfold events. intros H. apply filter_In in H. tauto. Qed.

Section GateRuns.
Context {U : Unicode}.

Lemma waited_since (h1 : list label) (m : list content) (r : result str) (h2 : list label) :
  (forall l, In l h1 -> is_model_call l = false) ->
  response_has (py "pause_task") r = true ->
  waited (h1 ++ LModelCall m r :: h2) = true -> In LWait h1.
Proof.
  intros Hno Hr. induction h1 as [|l h1 IH]; cbn [app waited]; intros Hw.
  - rewrite Hr in Hw. discriminate.
  - assert (Hl : is_model_call l = false) by (apply Hno; left; reflexivity).
    assert (IH' : waited (h1 ++ LModelCall m r :: h2) = true -> In LWait (l :: h1)).
    { intros H. right. apply IH; [|exact H]. intros l' Hl'. apply Hno. right. exact Hl'. }
    destruct l; try (apply IH'; exact Hw); [discriminate | left; reflexivity].
Qed.

(** C3: on an agent with a pause event, once a response whose batch holds a
    pause_task call has come while the flag of the event is down, the next
    model call is issued only after a wait has returned, and that wait
    returns only after the release signal has fired since the response; every
    wait that returns is followed at once by the clear that consumes the
    signal. *)
Theorem pause_task_waits_for_release (w : env) (ag : VLMAgent) (task : str) (max_steps : Z)
    (cb : bool) (flag : bool) :
  pause_event ag = true ->
  (forall t1 m text t2 m' r' t3,
     (interp w (run_task task max_steps cb ag) 0 flag).2
       = t1 ++ LModelCall m (Ok text) :: t2 ++ LModelCall m' r' :: t3 ->
     response_has (py "pause_task") (Ok text) = true ->
     Forall (fun l => is_model_call l = false) t2 ->
     flag_after flag t1 = false ->
     exists u v x, t2 = u ++ LRelease :: v ++ LWait :: x) /\
  (forall t1 t2,
     events (interp w (run_task task max_steps cb ag) 0 flag).2 = t1 ++ LWait :: t2 ->
     exists t2', t2 = LClear :: t2').
Proof.
  intros Hpe. split.
  - intros t1 m text t2 m' r' t3 E Hr Hno Hflag.
    pose proof (wp_run_task_waits task max_steps cb ag Hpe) as Hwp.
    destruct (wp_interp _ _ _ _ w 0%nat flag Hwp) as [Hinv _].
    pose proof (interp_gate_ok (run_task task max_steps cb ag) w 0%nat flag) as Hgate.
    rewrite E in Hinv, Hgate.
    specialize (Hinv (events t1 ++ LModelCall m (Ok text) :: events t2) (LModelCall m' r')
                  (events t3)).
    rewrite events_app in Hinv. cbn [events List.filter is_release negb] in Hinv.
    fold (events (t2 ++ LModelCall m' r' :: t3)) in Hinv. rewrite events_app in Hinv.
    cbn [events List.filter is_release negb] in Hinv. fold (events t3) in Hinv.
    fold (events t2) in Hinv. fold (events t1) in Hinv.
    rewrite <- app_assoc in Hinv. specialize (Hinv eq_refl).
    cbn [waits_before_call] in Hinv. rewrite app_nil_r, rev_app_distr in Hinv.
    cbn [rev] in Hinv. rewrite <- app_assoc in Hinv. cbn [app] in Hinv.
    apply waited_since in Hinv; [|intros l Hl|exact Hr].
    + apply in_rev, In_events in Hinv. apply in_split in Hinv as (b1 & b2 & ->).
      assert (Hf : flag_after flag (t1 ++ LModelCall m (Ok text) :: b1) = true).
      { apply gate_ok_wait with (t2 := b2 ++ LModelCall m' r' :: t3).
        rewrite <- !app_assoc. cbn [app]. rewrite <- app_assoc in Hgate. exact Hgate. }
      rewrite flag_after_app, Hflag in Hf. cbn [flag_after] in Hf.
      apply flag_after_release in Hf as [Hf|Hf]; [discriminate|].
      apply in_split in Hf as (u & v & ->). exists u, v, b2.
      rewrite <- app_assoc. reflexivity.
    + apply in_rev, In_events in Hl. rewrite Forall_forall in Hno. apply Hno.
      apply list_elem_of_In. exact Hl.
  - intros t1 t2 E. exact (paired_interp _ (paired_run_task task max_steps cb ag) w 0%nat flag t1 t2 E).
Qed.

End GateRuns.

Example run_released_once_trace :
  map tag_of run_released_once.2
  = [TPrompt; TCapture; TModel; TInvoke (py "pause_task"); TUpdate; TRelease; TWait; TClear;
     TCapture; TCapture; TModel] /\
  responses_of run_released_once.2 = [Ok pause_response; Ok (py "all set")].
Proof. vm_compute. split; reflexivity. Qed.

Lemma pause_task_waits_for_release_witness :
  (exists u v x, take 7 (drop 3 run_released_once.2) = u ++ LRelease :: v ++ LWait :: x) /\
  (forall t1 t2, events run_released_once.2 = t1 ++ LWait :: t2 -> exists t2', t2 = LClear :: t2').
Proof.
  pose proof (pause_task_waits_for_release (U := ascii_only)
                (scripted [pause_response; py "all set"] (fun i => Nat.eqb i 5))
                (new_agent true true) (py "open the mail") 5 false false eq_refl) as [H1 H2].
  split; [|exact H2].
  apply (H1 (take 2 run_released_once.2)
            (call_messages (default LWait (run_released_once.2 !! 2%nat)))
            pause_response
            (take 7 (drop 3 run_released_once.2))
            (call_messages (default LWait (run_released_once.2 !! 10%nat)))
            (Ok (py "all set")) []).
  - vm_compute. reflexivity.
  - vm_compute. reflexivity.
  - vm_compute. repeat constructor.
  - vm_compute. reflexivity.
Defined.

Example run_released_twice_trace :
  map tag_of run_released_twice.2
  = [TPrompt; TCapture; TModel; TInvoke (py "pause_task"); TUpdate; TRelease; TWait; TClear;
     TRelease; TCapture; TCapture; TModel; TInvoke (py "pause_task"); TUpdate; TWait; TClear;
     TCapture; TCapture; TModel] /\
  responses_of run_released_twice.2
  = [Ok pause_response; Ok pause_response; Ok (py "all set")].
Proof. vm_compute. split; reflexivity. Qed.

(** C3, as worded: a release that fires when no wait is pending stays
    latched in the event.  Here it fires right after the first resume; the
    second pause_task then does not hold the loop: its wait returns at once,
    and the third model call comes with no release since the second pause
    response. *)
Lemma latched_release_skips_pause :
  pause_event (new_agent true true) = true /\
  (exists res ag', run_released_twice.1 = Done (Ok (Some res), ag')) /\
  ~ pause_gate_property (U := ascii_only) run_released_twice.2.
Proof.
  split; [reflexivity|]. split; [vm_compute; eauto|].
  intros H.
  specialize (H (take 11 run_released_twice.2)
                (call_messages (default LWait (run_released_twice.2 !! 11%nat)))
                pause_response
                (take 6 (drop 12 run_released_twice.2))
                (call_messages (default LWait (run_released_twice.2 !! 18%nat)))
                (Ok (py "all set")) []).
  assert (Hin : In LRelease (take 6 (drop 12 run_released_twice.2))).
  { apply H; vm_compute; reflexivity. }
  vm_compute in Hin. repeat (destruct Hin as [Hin|Hin]; [discriminate|]). exact Hin.
Qed.


(** ** The end of a run at complete_task *)

(** [wait_for_continue], with or without a pause event. *)
Lemma wp_wait_for_continue_any (I : list label -> Prop) (ag : VLMAgent)
    (h : list label) (Q : result unit * VLMAgent -> list label -> Prop) :
  I (LWait :: h) -> I (LClear :: LWait :: h) ->
  Q (Ok tt, ag) (LClear :: LWait :: h) -> Q (Ok tt, ag) h ->
  wp I (wait_for_continue ag) h Q.
Proof.
  intros H1 H2 HQ HQ0. unfold wait_for_continue. apply wp_mbind. cbn [get_self wp fst snd].
  destruct (pause_event ag); [|exact HQ0].
  apply wp_mbind. cbn. intros []. split; [exact H1|]. intros []. auto.
Qed.

Lemma since_start (m : list content) (r : result str) (h : list label) :
  since m r h [] (LModelCall m r :: h).
Proof. exists []. repeat split. constructor. Qed.

Lemma since_cons (m : list content) (r : result str) (h k : list label) (l : label)
    (h' : list label) :
  is_model_call l = false -> is_failure l = false -> is_invoke l = false ->
  since m r h k h' -> since m r h k (l :: h').
Proof.
  intros H1 H2 H3 (pre & -> & Hall & Hk). exists (l :: pre). split; [reflexivity|].
  split; [constructor; auto|]. cbn. rewrite H3. exact Hk.
Qed.

Lemma exec_labels_invokes (tool_calls : list ToolCall) :
  forall rs, Forall (fun l => is_invoke l = true) (exec_labels tool_calls rs).
Proof.
  induction tool_calls as [|call rest IH]; intros rs; cbn [exec_labels]; [constructor|].
  destruct (in_tools (name call)); [|apply IH].
  destruct rs as [|r rs]; constructor; [reflexivity | apply IH].
Qed.

Lemma filter_all {A} (f : A -> bool) (l : list A) :
  Forall (fun a => f a = true) l -> List.filter f l = l.
Proof. induction 1 as [|a l Ha _ IH]; cbn; [reflexivity|]. rewrite Ha, IH. reflexivity. Qed.

Lemma since_invokes (m : list content) (r : result str) (h k : list label)
    (invs : list label) (h' : list label) :
  Forall (fun l => is_invoke l = true) invs ->
  since m r h k h' -> since m r h (invs ++ k) (invs ++ h').
Proof.
  intros Hinv (pre & -> & Hall & Hk). exists (invs ++ pre). rewrite <- app_assoc.
  split; [reflexivity|]. split.
  - apply Forall_app. split; [|exact Hall].
    eapply Forall_impl; [exact Hinv|]. intros l Hl. destruct l; try discriminate. auto.
  - rewrite List.filter_app, Hk, (filter_all _ _ Hinv). reflexivity.
Qed.

Lemma since_last_response (m : list content) (r : result str) (h k h' : list label) :
  since m r h k h' ->
  last_response h' = Some r /\ List.filter is_invoke (since_call h') = k.
Proof.
  intros (pre & -> & Hall & <-). induction Hall as [|l pre [Hl _] _ IH]; cbn; [auto|].
  destruct l; try discriminate; cbn; destruct IH as [-> ->]; auto.
Qed.

Section Completion.
Context {U : Unicode}.

Lemma since_completing (m : list content) (r : result str) (h k h' : list label) :
  since m r h k h' -> completing h' = response_has (py "complete_task") r.
Proof.
  intros (pre & -> & Hall & _). induction Hall as [|l pre [Hl Hf] _ IH]; [reflexivity|].
  cbn [app completing]. destruct l; try discriminate; rewrite ?Hf; exact IH.
Qed.

Lemma completing_quiet (pe : bool) (l : label) (h : list label) :
  quiet pe l = true -> completing h = false ->
  no_call_after_complete (l :: h) /\ completing (l :: h) = false.
Proof.
  intros Hq Hc. destruct l; try discriminate; cbn [no_call_after_complete completing];
    (split; [exact Logic.I|]); try exact Hc; destruct (is_failure _); auto.
Qed.

Lemma completed_as_vacuous (x : task_result) (h : list label) :
  completing h = false -> completed_as x h.
Proof. intros Hc Ht. congruence. Qed.

(** The scan of a batch with a complete_task call returns the success with
    the message of the first one, if every capture on the way succeeds. *)
Lemma scan_calls_completes (pe : bool) (m : list content) (r : result str) (h0 k : list label)
    (tool_calls : list ToolCall) :
  forall (ag : VLMAgent) (h : list label),
    pause_event ag = pe ->
    has_call (py "complete_task") tool_calls = true ->
    since m r h0 k h ->
    wp no_call_after_complete (scan_calls tool_calls ag) h (fun ra h' =>
      pause_event ra.2 = pe /\
      match ra.1 with
      | Ok (Some x) => x = Completed (completion_message tool_calls) /\ since m r h0 k h'
      | Ok None => False
      | Raise _ => completing h' = false
      end).
Proof.
  induction tool_calls as [|call rest IH]; intros ag h Hpe Hhas Hs; [discriminate|].
  cbn [has_call existsb] in Hhas. unfold completion_message. cbn [find scan_calls].
  destruct (str_eqb (name call) (py "pause_task")) eqn:Ep.
  - apply bool_decide_eq_true in Ep. rewrite Ep in *.
    replace (str_eqb (py "pause_task") (py "complete_task")) with false in *
      by (symmetry; apply bool_decide_eq_false; vm_compute; congruence).
    cbn [orb] in Hhas. fold (completion_message rest).
    set (reason := default (VStr (py "用户手动操作")) (dict_get (py "reason") (arguments call))).
    assert (Hcap : forall h1, since m r h0 k h1 ->
              wp no_call_after_complete
                ((let* base64_image := capture_screenshot in
                  append_message (ResumedAndImage (Some reason) base64_image);;
                  scan_calls rest) ag) h1
                (fun ra h' =>
                   pause_event ra.2 = pe /\
                   match ra.1 with
                   | Ok (Some x) => x = Completed (completion_message rest) /\ since m r h0 k h'
                   | Ok None => False
                   | Raise _ => completing h' = false
                   end)).
    { intros h1 Hs1. apply wp_mbind. unfold capture_screenshot. apply wp_mbind.
      cbn [perform wp label_of fst snd]. intros [img|e]; (split; [exact Logic.I|]).
      - cbn [of_result wp fst snd]. apply wp_mbind. cbn [append_message modify wp fst snd].
        apply IH; [exact Hpe | exact Hhas|]. apply since_cons; auto.
      - cbn. auto. }
    assert (Hwait : forall h1, since m r h0 k h1 ->
              wp no_call_after_complete
                ((wait_for_continue;;
                  let* base64_image := capture_screenshot in
                  append_message (ResumedAndImage (Some reason) base64_image);;
                  scan_calls rest) ag) h1
                (fun ra h' =>
                   pause_event ra.2 = pe /\
                   match ra.1 with
                   | Ok (Some x) => x = Completed (completion_message rest) /\ since m r h0 k h'
                   | Ok None => False
                   | Raise _ => completing h' = false
                   end)).
    { intros h1 Hs1. apply wp_mbind.
      apply wp_wait_for_continue_any; [exact Logic.I..| |]; cbn [fst snd]; apply Hcap.
      - repeat apply since_cons; auto.
      - exact Hs1. }
    apply wp_mbind. apply wp_notify; [exact Logic.I| |]; cbn [fst snd]; apply Hwait.
    + apply since_cons; auto.
    + exact Hs.
  - destruct (str_eqb (name call) (py "complete_task")) eqn:Ec.
    + apply wp_mbind. apply wp_notify; [exact Logic.I| |]; cbn;
        (split; [exact Hpe|]); (split; [reflexivity|]).
      * apply since_cons; auto.
      * exact Hs.
    + fold (completion_message rest). apply IH; [exact Hpe | exact Hhas | exact Hs].
Qed.

(** What is done with a response whose batch holds complete_task. *)
Lemma act_completes (pe : bool) (cb : bool) (step : Z) (m : list content)
    (response : result str) (ag : VLMAgent) (h : list label) :
  pause_event ag = pe ->
  wp no_call_after_complete (act cb step response ag) (LModelCall m response :: h) (fun ra h' =>
    pause_event ra.2 = pe /\
    match ra.1 with
    | Ok (Return x) => completed_as x h'
    | _ => completing h' = false
    end).
Proof.
  intros Hpe. destruct (response_has (py "complete_task") response) eqn:E.
  - destruct response as [text|e]; [|discriminate].
    pose proof E as E'. cbn [response_has] in E'.
    destruct (parse_tool_calls text) as [calls|e] eqn:Ep; [|discriminate].
    assert (Hrun : forall ag1 h1, pause_event ag1 = pe -> since m (Ok text) h [] h1 ->
              wp no_call_after_complete
                ((let* tool_calls := of_result (parse_tool_calls text) in
                  match tool_calls with
                  | _ :: _ => run_tool_calls tool_calls
                  | [] => run_no_tool_calls text
                  end) ag1) h1
                (fun ra h' => pause_event ra.2 = pe /\
                   match ra.1 with
                   | Ok (Return x) => completed_as x h'
                   | _ => completing h' = false
                   end)).
    { intros ag1 h1 Hpe1 Hs1. apply wp_mbind. rewrite Ep. cbn [of_result wp fst snd].
      destruct calls as [|c calls']; [discriminate|].
      unfold run_tool_calls. apply wp_mbind. apply wp_try_except. apply wp_mbind. apply wp_lift.
      apply wp_execute_tool_calls with (P := fun _ => True); [|exact Logic.I|].
      { intros f a r h' _. split; exact Logic.I. }
      intros rs Hlen _. cbn [fst snd]. apply wp_mbind.
      eapply wp_mono;
        [| |apply (scan_calls_completes pe m (Ok text) h (rev (exec_labels (c :: calls') rs) ++ [])
                     (c :: calls') ag1 _ Hpe1 E')]; [auto| |].
      - intros [ra ag2] h2 [Hpe2 Hr]. cbn [fst snd] in *.
        destruct ra as [[x|]|e]; cbn; [|contradiction|auto].
        destruct Hr as [-> Hs2]. split; [exact Hpe2|].
        intros _ text' calls0 Hlast Hparse.
        destruct (since_last_response _ _ _ _ _ Hs2) as [Hl Hk].
        rewrite Hl in Hlast. injection Hlast as <-.
        rewrite Ep in Hparse. injection Hparse as <-.
        split; [reflexivity|]. exists rs. split; [exact Hlen|].
        rewrite Hk, app_nil_r. reflexivity.
      - apply since_invokes; [|exact Hs1].
        apply Forall_rev, exec_labels_invokes. }
    unfold act. apply wp_mbind. cbn [of_result wp fst snd].
    apply wp_mbind. cbn [append_message modify wp fst snd].
    apply wp_mbind. unfold call_step_callback. destruct cb.
    + apply wp_mbind. cbn [perform wp label_of fst snd]. intros r0. split; [exact Logic.I|].
      destruct r0 as [[]|e]; cbn [of_result wp fst snd].
      * apply Hrun; [exact Hpe|]. apply since_cons; auto. apply since_start.
      * cbn. auto.
    + cbn [ret wp fst snd]. apply Hrun; [exact Hpe | apply since_start].
  - apply (emits_act pe cb step response no_call_after_complete
             (fun h' => completing h' = false)).
    + exact Hpe.
    + intros l h' Hq Hc. exact (completing_quiet pe l h' Hq Hc).
    + cbn [completing]. exact E.
    + intros ra ag' h' Hc Hpe'. cbn [fst snd]. split; [exact Hpe'|].
      destruct ra as [[| |x]|]; auto. apply completed_as_vacuous, Hc.
Qed.

Lemma wp_run_task_completes (task : str) (max_steps : Z) (cb : bool) (ag : VLMAgent) :
  wp no_call_after_complete (run_task task max_steps cb ag) []
     (fun ra h' => exists x, ra.1 = Ok (Some x) /\ completed_as x h').
Proof.
  apply (wp_run_task (pause_event ag) no_call_after_complete
           (fun _ h => completing h = false) completed_as).
  - reflexivity.
  - intros p. split; [exact Logic.I | reflexivity].
  - intros step ag0 h Hpe0 Hc _. unfold step_body.
    apply wp_try_except. apply wp_mbind.
    apply (emits_perceive (pause_event ag) task cb (step + 1) no_call_after_complete
             (fun h' => completing h' = false)).
    + exact Hpe0.
    + intros l h' Hq Hc'. exact (completing_quiet _ l h' Hq Hc').
    + exact Hc.
    + intros r ag1 h1 Hc1 Hpe1. cbn [fst snd].
      destruct r as [[]|e]; [|cbn; split; [exact Hpe1 | apply completed_as_vacuous, Hc1]].
      apply wp_mbind. cbn [wp get_self fst snd].
      apply wp_mbind. cbn [wp perform fst snd label_of]. intros response.
      split; [exact Hc1|].
      eapply wp_mono;
        [| |apply (act_completes (pause_event ag) cb (step + 1) (messages ag1) response ag1 h1 Hpe1)];
        [auto|].
      intros [r ag2] h2 [Hpe2 Hr]. cbn [fst snd] in *.
      destruct r as [[| |x]|e]; cbn; (split; [exact Hpe2|]); auto;
        intros; apply completed_as_vacuous, Hr.
  - intros step h Hc x. apply completed_as_vacuous, Hc.
Qed.

End Completion.


(** ** complete_task on runs *)

Lemma first_model_call (t : list label) :
  Forall (fun l => is_model_call l = false) t \/
  exists b1 m r b2,
    t = b1 ++ LModelCall m r :: b2 /\ Forall (fun l => is_model_call l = false) b1.
Proof.
  induction t as [|l t IH]; [left; constructor|].
  destruct (is_model_call l) eqn:El.
  - right. destruct l as [| |m0 r0| | | | | | |]; try discriminate.
    exists [], m0, r0, t. split; [reflexivity|constructor].
  - destruct IH as [IH|(b1 & m & r & b2 & -> & Hb1)].
    + left. constructor; assumption.
    + right. exists (l :: b1), m, r, b2. split; [reflexivity|constructor; assumption].
Qed.

Lemma invokes_events (t : list label) :
  List.filter is_invoke (events t) = List.filter is_invoke t.
Proof.
  induction t as [|l t IH]; [reflexivity|].
  unfold events in *. destruct l; cbn; rewrite ?IH; reflexivity.
Qed.

Lemma since_events (m : list content) (r : result str) (h : list label) (b : list label) :
  Forall (fun l => is_model_call l = false) b ->
  Forall (fun l => is_failure l = false) b ->
  since m r h (List.filter is_invoke (rev (events b))) (rev (events b) ++ LModelCall m r :: h).
Proof.
  intros H1 H2. exists (rev (events b)). split; [reflexivity|]. split; [|reflexivity].
  rewrite Forall_forall in H1, H2. apply Forall_forall. intros l Hl.
  apply list_elem_of_In, in_rev, In_events, list_elem_of_In in Hl. auto.
Qed.

Section CompletionRuns.
Context {U : Unicode}.

(** C1: once a response whose batch holds a complete_task call has come, and
    as long as no screen capture and no progress callback fails after it,
    run_task issues no further model call, and when the run ends it returns
    the success with the message of the first complete_task call of the
    batch; by then the executor has run the handler of every known call of
    the batch, in order, those listed after complete_task included. *)
Theorem complete_task_ends_run (w : env) (ag : VLMAgent) (task : str) (max_steps : Z)
    (cb : bool) (flag : bool) (t1 : list label) (m : list content) (text : str)
    (t2 : list label) (calls : list ToolCall) :
  (interp w (run_task task max_steps cb ag) 0 flag).2 = t1 ++ LModelCall m (Ok text) :: t2 ->
  parse_tool_calls text = Ok calls ->
  has_call (py "complete_task") calls = true ->
  Forall (fun l => is_failure l = false) t2 ->
  Forall (fun l => is_model_call l = false) t2 /\
  (forall ra, (interp w (run_task task max_steps cb ag) 0 flag).1 = Done ra ->
     ra.1 = Ok (Some (Completed (completion_message calls))) /\
     exists rs, length rs = length (known_calls calls) /\
       List.filter is_invoke t2
       = zip_with (fun call r => LInvoke (name call) (arguments call) r) (known_calls calls) rs).
Proof.
  intros E Hparse Hhas Hfail.
  pose proof (wp_run_task_completes task max_steps cb ag) as Hwp.
  destruct (wp_interp _ _ _ _ w 0%nat flag Hwp) as [Hinv Hdone].
  rewrite E in Hinv, Hdone.
  assert (Hresp : response_has (py "complete_task") (Ok text) = true).
  { cbn [response_has]. rewrite Hparse. exact Hhas. }
  assert (Hno : Forall (fun l => is_model_call l = false) t2).
  { destruct (first_model_call t2) as [H|(b1 & m' & r' & b2 & -> & Hb1)]; [exact H|exfalso].
    specialize (Hinv (events t1 ++ LModelCall m (Ok text) :: events b1) (LModelCall m' r')
                  (events b2)).
    rewrite events_app in Hinv. cbn [events List.filter is_release negb] in Hinv.
    fold (events (b1 ++ LModelCall m' r' :: b2)) in Hinv. rewrite events_app in Hinv.
    cbn [events List.filter is_release negb] in Hinv. fold (events b2) in Hinv.
    fold (events b1) in Hinv. fold (events t1) in Hinv.
    rewrite <- app_assoc in Hinv. specialize (Hinv eq_refl).
    cbn [no_call_after_complete] in Hinv. rewrite app_nil_r, rev_app_distr in Hinv.
    cbn [rev] in Hinv. rewrite <- app_assoc in Hinv. cbn [app] in Hinv.
    apply Forall_app in Hfail as [Hf1 _].
    rewrite (since_completing _ _ _ _ _ (since_events m (Ok text) _ b1 Hb1 Hf1)) in Hinv.
    congruence. }
  split; [exact Hno|].
  intros ra Hra. destruct (Hdone ra Hra) as (x & Hx & Hcomp).
  rewrite events_app in Hcomp. cbn [events List.filter is_release negb] in Hcomp.
  fold (events t2) in Hcomp. fold (events t1) in Hcomp.
  rewrite app_nil_r, rev_app_distr in Hcomp. cbn [rev] in Hcomp.
  rewrite <- app_assoc in Hcomp. cbn [app] in Hcomp.
  pose proof (since_events m (Ok text) (rev (events t1)) t2 Hno Hfail) as Hs.
  destruct (since_last_response _ _ _ _ _ Hs) as [Hl Hk].
  destruct (Hcomp (eq_trans (since_completing _ _ _ _ _ Hs) Hresp) text calls Hl Hparse)
    as (-> & rs & Hlen & Hinvk).
  split; [exact Hx|]. exists rs. split; [exact Hlen|].
  rewrite Hk, List.filter_rev in Hinvk. apply (f_equal (@rev label)) in Hinvk.
  rewrite !rev_involutive, invokes_events in Hinvk. rewrite Hinvk.
  apply exec_labels_zip, Hlen.
Qed.

End CompletionRuns.

Example complete_response_parse :
  parse_tool_calls (U := ascii_only) complete_response
  = Ok [click_call; complete_call; type_call].
Proof. vm_compute. reflexivity. Qed.

Example run_completed_trace :
  map tag_of run_completed.2
  = [TPrompt; TCapture; TModel; TInvoke (py "mouse_click"); TInvoke (py "complete_task");
     TInvoke (py "type_text"); TUpdate].
Proof. vm_compute. reflexivity. Qed.

Lemma complete_task_ends_run_witness :
  Forall (fun l => is_model_call l = false) (drop 3 run_completed.2) /\
  (forall ra, run_completed.1 = Done ra ->
     ra.1 = Ok (Some (Completed (completion_message [click_call; complete_call; type_call]))) /\
     exists rs, length rs = length (known_calls [click_call; complete_call; type_call]) /\
       List.filter is_invoke (drop 3 run_completed.2)
       = zip_with (fun call r => LInvoke (name call) (arguments call) r)
           (known_calls [click_call; complete_call; type_call]) rs).
Proof.
  apply (complete_task_ends_run (U := ascii_only)
           (scripted [complete_response] (fun _ => false)) (new_agent true true)
           (py "open the mail") 5 false false
           (take 2 run_completed.2)
           (call_messages (default LWait (run_completed.2 !! 2%nat)))
           complete_response (drop 3 run_completed.2)
           [click_call; complete_call; type_call]).
  - vm_compute. reflexivity.
  - vm_compute. reflexivity.
  - vm_compute. reflexivity.
  - vm_compute. repeat constructor.
Defined.

(** C1, as worded: the executor runs the whole batch before the loop looks
    for complete_task, so the handler of the call listed after it is run
    (here type_text), and only then does run_task return the success. *)
Lemma call_after_complete_is_run :
  (exists ag', run_completed.1 = Done (Ok (Some (Completed (VStr (py "done")))), ag')) /\
  ~ later_calls_ignored (U := ascii_only) run_completed.2.
Proof.
  split; [vm_compute; eauto|].
  intros H. unfold later_calls_ignored in H.
  specialize (H (take 2 run_completed.2)
                (call_messages (default LWait (run_completed.2 !! 2%nat)))
                complete_response (drop 3 run_completed.2)
                [click_call; complete_call; type_call] [click_call] complete_call [type_call]).
  assert (E1 : run_completed.2
               = take 2 run_completed.2
                 ++ LModelCall (call_messages (default LWait (run_completed.2 !! 2%nat)))
                      (Ok complete_response) :: drop 3 run_completed.2)
    by (vm_compute; reflexivity).
  assert (E2 : parse_tool_calls (U := ascii_only) complete_response
               = Ok [click_call; complete_call; type_call])
    by (vm_compute; reflexivity).
  apply (H E1 E2 eq_refl eq_refl type_call (Ok (py "done"))).
  - left. reflexivity.
  - vm_compute. right. right. left. reflexivity.
Qed.

From Stdlib Require Import Qabs Lqa Field.

(** * Further properties of the code *)

(** ** The coordinate transformer: saturation, accuracy, order *)

Section Converter.
Local Open Scope Q_scope.

Lemma py_min_eq (a b : Q) : py_min a b == (if Qltb b a then b else a).
Proof. reflexivity. Qed.

Lemma py_min_ge (a b : Q) : a <= b -> py_min a b == a.
Proof.
  intros H. unfold py_min. destruct (Qltb b a) eqn:E; [|reflexivity].
  apply Qltb_true in E. apply Qle_antisym; [apply Qlt_le_weak, E | exact H].
Qed.

Lemma py_min_lt (a b : Q) : b <= a -> py_min a b == b.
Proof.
  intros H. unfold py_min. destruct (Qltb b a) eqn:E; [reflexivity|].
  apply Qltb_false in E. apply Qle_antisym; assumption.
Qed.

Lemma py_min_lt_le (a b : Q) : py_min a b <= b.
Proof.
  unfold py_min. destruct (Qltb b a) eqn:E; [apply Qle_refl|].
  apply Qltb_false in E. exact E.
Qed.

Lemma py_max_ge (a b : Q) : b <= a -> py_max a b == a.
Proof.
  intros H. unfold py_max. destruct (Qltb a b) eqn:E; [|reflexivity].
  apply Qltb_true in E. apply Qle_antisym; [exact H | apply Qlt_le_weak, E].
Qed.

Lemma py_max_le (a b : Q) : a <= b -> py_max a b == b.
Proof.
  intros H. unfold py_max. destruct (Qltb a b) eqn:E; [reflexivity|].
  apply Qltb_false in E. apply Qle_antisym; assumption.
Qed.

Lemma Qltb_comp (a a' b b' : Q) : a == a' -> b == b' -> Qltb a b = Qltb a' b'.
Proof.
  intros Ha Hb. destruct (Qltb a' b') eqn:E.
  - apply Qltb_true. apply Qltb_true in E. rewrite Ha, Hb. exact E.
  - apply Qltb_false. apply Qltb_false in E. rewrite Ha, Hb. exact E.
Qed.

#[local] Instance py_max_comp : Proper (Qeq ==> Qeq ==> Qeq) py_max.
Proof.
  intros a a' Ha b b' Hb. unfold py_max. rewrite (Qltb_comp a a' b b' Ha Hb).
  destruct (Qltb a' b'); assumption.
Qed.

#[local] Instance py_min_comp : Proper (Qeq ==> Qeq ==> Qeq) py_min.
Proof.
  intros a a' Ha b b' Hb. unfold py_min. rewrite (Qltb_comp b b' a a' Hb Ha).
  destruct (Qltb b' a'); assumption.
Qed.

Lemma round_half_even_comp (x y : Q) : x == y -> round_half_even x = round_half_even y.
Proof.
  intros H. unfold round_half_even. rewrite (Qfloor_comp x y H).
  assert (E : x - inject_Z (Qfloor y) == y - inject_Z (Qfloor y)) by (rewrite H; reflexivity).
  rewrite (Qcompare_comp _ _ E (1 # 2) (1 # 2) (Qeq_refl _)). reflexivity.
Qed.

Lemma round_half_even_Z (z : Z) : round_half_even (inject_Z z) = z.
Proof.
  unfold round_half_even. rewrite Qfloor_Z.
  assert (E : inject_Z z - inject_Z z == 0) by ring.
  rewrite (Qcompare_comp _ _ E (1 # 2) (1 # 2) (Qeq_refl _)). reflexivity.
Qed.

Lemma pow10_pos (n : nat) : 0 < inject_Z (10 ^ Z.of_nat n).
Proof.
  change (inject_Z 0 < inject_Z (10 ^ Z.of_nat n)). rewrite <- Zlt_Qlt.
  apply Z.pow_pos_nonneg; lia.
Qed.

Lemma py_round_comp (x y : Q) (n : nat) : x == y -> py_round x n == py_round y n.
Proof.
  intros H. unfold py_round.
  rewrite (round_half_even_comp (x * inject_Z (10 ^ Z.of_nat n)) (y * inject_Z (10 ^ Z.of_nat n)))
    by (rewrite H; reflexivity).
  reflexivity.
Qed.

(** [round] leaves an integer as it is. *)
Lemma py_round_Z (z : Z) (n : nat) : py_round (inject_Z z) n == inject_Z z.
Proof.
  unfold py_round. rewrite Qred_correct.
  rewrite (round_half_even_comp _ (inject_Z (z * 10 ^ Z.of_nat n)))
    by (rewrite inject_Z_mult; reflexivity).
  rewrite round_half_even_Z, inject_Z_mult.
  field. intros E. pose proof (pow10_pos n) as Hp. rewrite E in Hp. discriminate.
Qed.

(** [round(x)] is within a half of [x]. *)
Lemma round_half_even_near (x : Q) :
  x - (1 # 2) <= inject_Z (round_half_even x) <= x + (1 # 2).
Proof.
  pose proof (Qfloor_le x) as Hlo. pose proof (Qlt_floor x) as Hhi.
  rewrite inject_Z_plus in Hhi. change (inject_Z 1) with 1 in Hhi.
  unfold round_half_even.
  destruct (Qcompare (x - inject_Z (Qfloor x)) (1 # 2)) eqn:E.
  - apply Qeq_alt in E.
    destruct (Z.even (Qfloor x)); rewrite ?inject_Z_plus; change (inject_Z 1) with 1;
      split; lra.
  - apply Qlt_alt in E. split; lra.
  - apply Qgt_alt in E. rewrite inject_Z_plus. change (inject_Z 1) with 1. split; lra.
Qed.

Lemma round_half_even_mono (x y : Q) : x <= y -> (round_half_even x <= round_half_even y)%Z.
Proof.
  intros H. pose proof (Qfloor_resp_le x y H) as Hf.
  assert (Hx : (Qfloor x <= round_half_even x <= Qfloor x + 1)%Z).
  { unfold round_half_even. destruct (Qcompare _ _); [destruct (Z.even _)|..]; lia. }
  assert (Hy : (Qfloor y <= round_half_even y <= Qfloor y + 1)%Z).
  { unfold round_half_even. destruct (Qcompare _ _); [destruct (Z.even _)|..]; lia. }
  destruct (Z.eq_dec (Qfloor x) (Qfloor y)) as [Ef|Nf]; [|lia].
  unfold round_half_even. rewrite Ef.
  destruct (Qcompare (x - inject_Z (Qfloor y)) (1 # 2)) eqn:E1;
    destruct (Qcompare (y - inject_Z (Qfloor y)) (1 # 2)) eqn:E2;
    try (destruct (Z.even (Qfloor y)); lia); try lia; exfalso.
  - apply Qeq_alt in E1. apply Qlt_alt in E2. lra.
  - apply Qgt_alt in E1. apply Qeq_alt in E2. lra.
  - apply Qgt_alt in E1. apply Qlt_alt in E2. lra.
Qed.

Lemma py_round_mono (x y : Q) (n : nat) : x <= y -> py_round x n <= py_round y n.
Proof.
  intros H. unfold py_round. rewrite !Qred_correct.
  pose proof (pow10_pos n) as Hp.
  apply Qmult_le_compat_r; [|apply Qlt_le_weak, Qinv_lt_0_compat, Hp].
  rewrite <- Zle_Qle. apply round_half_even_mono.
  apply Qmult_le_compat_r; [exact H | apply Qlt_le_weak, Hp].
Qed.

Lemma py_round_near (x : Q) (n : nat) :
  Qabs (py_round x n - x) <= 1 / (2 * inject_Z (10 ^ Z.of_nat n)).
Proof.
  unfold py_round. rewrite Qred_correct.
  pose proof (pow10_pos n) as Hp. set (s := inject_Z (10 ^ Z.of_nat n)) in *.
  destruct (round_half_even_near (x * s)) as [H1 H2].
  set (r := inject_Z (round_half_even (x * s))) in *.
  assert (Hs : ~ s == 0) by (intros E; rewrite E in Hp; discriminate).
  assert (Hi : 0 <= / s) by (apply Qlt_le_weak, Qinv_lt_0_compat, Hp).
  pose proof (Qmult_le_compat_r _ _ (/ s) H1 Hi) as H1'.
  pose proof (Qmult_le_compat_r _ _ (/ s) H2 Hi) as H2'.
  assert (E1 : (x * s - (1 # 2)) * / s == x - 1 / (2 * s)) by (field; exact Hs).
  assert (E2 : (x * s + (1 # 2)) * / s == x + 1 / (2 * s)) by (field; exact Hs).
  rewrite E1 in H1'. rewrite E2 in H2'.
  change (r * / s) with (r / s) in H1', H2'.
  set (q := r / s) in *. set (h := 1 / (2 * s)) in *.
  apply Qabs_Qle_condition. split; lra.
Qed.

Lemma py_max_mono (a b b' : Q) : b <= b' -> py_max a b <= py_max a b'.
Proof.
  intros H. unfold py_max.
  destruct (Qltb a b) eqn:E1; destruct (Qltb a b') eqn:E2;
    rewrite ?Qltb_true, ?Qltb_false in *; lra.
Qed.

Lemma py_min_mono (a b b' : Q) : b <= b' -> py_min a b <= py_min a b'.
Proof.
  intros H. unfold py_min.
  destruct (Qltb b a) eqn:E1; destruct (Qltb b' a) eqn:E2;
    rewrite ?Qltb_true, ?Qltb_false in *; lra.
Qed.

(** X1: out-of-range proportions saturate: anything at or left of 0 lands on
    the margin, anything at or right of 1 on the dimension less the margin. *)
Theorem convert_saturates (self : CoordinateConverter) (x y : Q) :
  (2 * safe_margin <= original_width self)%Z ->
  (2 * safe_margin <= original_height self)%Z ->
  (x <= 0 -> (convert_proportion_to_actual self x y).1 == inject_Z safe_margin) /\
  (1 <= x -> (convert_proportion_to_actual self x y).1
             == inject_Z (original_width self - safe_margin)) /\
  (y <= 0 -> (convert_proportion_to_actual self x y).2 == inject_Z safe_margin) /\
  (1 <= y -> (convert_proportion_to_actual self x y).2
             == inject_Z (original_height self - safe_margin)).
Proof.
  intros Hw Hh. unfold safe_margin in *.
  assert (Hlow : forall (dim : Z) (v : Q), (10 <= dim)%Z -> v <= 0 ->
            py_round (py_max (inject_Z 5) (py_min (inject_Z (dim - 5))
                        (py_max 0 (py_min 1 v) * inject_Z dim))) 4 == inject_Z 5).
  { intros dim v Hd Hv.
    assert (Hd' : inject_Z 5 <= inject_Z (dim - 5)) by (rewrite <- Zle_Qle; lia).
    eapply Qeq_trans; [|apply (py_round_Z 5 4)]. apply py_round_comp.
    assert (E1 : py_max 0 (py_min 1 v) == 0).
    { apply py_max_ge. eapply Qle_trans; [apply py_min_lt_le|exact Hv]. }
    apply py_max_ge. eapply Qle_trans; [apply py_min_lt_le|].
    rewrite E1. change (inject_Z 5) with 5. lra. }
  assert (Hhigh : forall (dim : Z) (v : Q), (10 <= dim)%Z -> 1 <= v ->
            py_round (py_max (inject_Z 5) (py_min (inject_Z (dim - 5))
                        (py_max 0 (py_min 1 v) * inject_Z dim))) 4 == inject_Z (dim - 5)).
  { intros dim v Hd Hv.
    assert (Hd' : inject_Z 5 <= inject_Z (dim - 5)) by (rewrite <- Zle_Qle; lia).
    assert (Hd2 : inject_Z (dim - 5) <= inject_Z dim) by (rewrite <- Zle_Qle; lia).
    eapply Qeq_trans; [|apply (py_round_Z (dim - 5) 4)]. apply py_round_comp.
    assert (E1 : py_max 0 (py_min 1 v) == 1).
    { rewrite (py_min_ge 1 v Hv). apply py_max_le. lra. }
    assert (E2 : py_min (inject_Z (dim - 5)) (py_max 0 (py_min 1 v) * inject_Z dim)
                 == inject_Z (dim - 5)).
    { apply py_min_ge. rewrite E1. lra. }
    rewrite (py_max_comp _ _ (Qeq_refl _) _ _ E2). apply py_max_le. exact Hd'. }
  unfold convert_proportion_to_actual. cbn [fst snd]. repeat split; intros H.
  - apply Hlow; assumption.
  - apply Hhigh; assumption.
  - apply Hlow; assumption.
  - apply Hhigh; assumption.
Qed.

(** X3: the conversion preserves the order of the points on each axis. *)
Theorem convert_monotone (self : CoordinateConverter) (x x' y y' : Q) :
  (0 <= original_width self)%Z -> (0 <= original_height self)%Z ->
  x <= x' -> y <= y' ->
  (convert_proportion_to_actual self x y).1 <= (convert_proportion_to_actual self x' y').1 /\
  (convert_proportion_to_actual self x y).2 <= (convert_proportion_to_actual self x' y').2.
Proof.
  intros Hw Hh Hx Hy. unfold convert_proportion_to_actual. cbn [fst snd].
  split; apply py_round_mono, py_max_mono, py_min_mono, Qmult_le_compat_r;
    try (apply py_max_mono, py_min_mono; assumption);
    change 0 with (inject_Z 0); rewrite <- Zle_Qle; assumption.
Qed.

(** X4: with a scaled resolution set, a coordinate of the screenshot is brought
    into the safe area of the screen. *)
Theorem convert_relative_within_safe_area (self : CoordinateConverter) (x y : Q) :
  scaled_width self <> 0%Z -> scaled_height self <> 0%Z ->
  (2 * safe_margin <= original_width self)%Z ->
  (2 * safe_margin <= original_height self)%Z ->
  in_safe_area self (convert_relative_to_actual self x y).
Proof.
  intros Hsw Hsh Hw Hh. unfold convert_relative_to_actual.
  apply Z.eqb_neq in Hsw, Hsh. rewrite Hsw, Hsh. cbn [orb].
  unfold in_safe_area; cbn [fst snd].
  split; apply clamp_bounds; rewrite <- Zle_Qle; unfold safe_margin in *; lia.
Qed.

(** X5: when the screenshot is not scaled (its resolution is the screen's), a
    point of the safe area is its own conversion. *)
Theorem convert_relative_unscaled (self : CoordinateConverter) (x y : Q) :
  scaled_width self = original_width self -> scaled_height self = original_height self ->
  (0 < original_width self)%Z -> (0 < original_height self)%Z ->
  in_safe_area self (x, y) ->
  (convert_relative_to_actual self x y).1 == x /\ (convert_relative_to_actual self x y).2 == y.
Proof.
  intros Ew Eh Hw Hh [[Hx1 Hx2] [Hy1 Hy2]]. cbn [fst snd] in *.
  unfold convert_relative_to_actual. rewrite Ew, Eh.
  assert (Nw : (original_width self =? 0)%Z = false) by (apply Z.eqb_neq; clear - Hw; lia).
  assert (Nh : (original_height self =? 0)%Z = false) by (apply Z.eqb_neq; clear - Hh; lia).
  rewrite Nw, Nh. cbn [orb fst snd].
  assert (Hone : forall (dim : Z) (v : Q), (0 < dim)%Z ->
            inject_Z safe_margin <= v <= inject_Z (dim - safe_margin) ->
            py_max (inject_Z safe_margin)
              (py_min (inject_Z (dim - safe_margin)) (v * (inject_Z dim / inject_Z dim))) == v).
  { intros dim v Hd [Hlo Hhi].
    assert (Hd' : ~ inject_Z dim == 0).
    { intros E. unfold Qeq in E. cbn in E. clear - E Hd. lia. }
    assert (E : v * (inject_Z dim / inject_Z dim) == v) by (field; exact Hd').
    rewrite (py_max_comp _ _ (Qeq_refl _) _ _ (py_min_comp _ _ (Qeq_refl _) _ _ E)).
    rewrite (py_max_comp _ _ (Qeq_refl _) _ _ (py_min_lt _ _ Hhi)).
    apply py_max_le, Hlo. }
  split; apply Hone; auto.
Qed.

End Converter.

Lemma convert_saturates_witness :
  ((-1 # 2 <= 0)%Q ->
   ((convert_proportion_to_actual (set_original_resolution new_converter 1920 1080)
       (-1 # 2) (3 # 2)).1 == inject_Z safe_margin)%Q) /\
  ((1 <= -1 # 2)%Q ->
   ((convert_proportion_to_actual (set_original_resolution new_converter 1920 1080)
       (-1 # 2) (3 # 2)).1 == inject_Z (1920 - safe_margin))%Q) /\
  ((3 # 2 <= 0)%Q ->
   ((convert_proportion_to_actual (set_original_resolution new_converter 1920 1080)
       (-1 # 2) (3 # 2)).2 == inject_Z safe_margin)%Q) /\
  ((1 <= 3 # 2)%Q ->
   ((convert_proportion_to_actual (set_original_resolution new_converter 1920 1080)
       (-1 # 2) (3 # 2)).2 == inject_Z (1080 - safe_margin))%Q).
Proof.
  apply (convert_saturates (set_original_resolution new_converter 1920 1080) (-1 # 2) (3 # 2));
    vm_compute; discriminate.
Defined.

Lemma convert_monotone_witness :
  ((convert_proportion_to_actual (set_original_resolution new_converter 1920 1080)
      (1 # 3) (1 # 7)).1
   <= (convert_proportion_to_actual (set_original_resolution new_converter 1920 1080)
         (1 # 2) (1 # 7)).1)%Q /\
  ((convert_proportion_to_actual (set_original_resolution new_converter 1920 1080)
      (1 # 3) (1 # 7)).2
   <= (convert_proportion_to_actual (set_original_resolution new_converter 1920 1080)
         (1 # 2) (1 # 7)).2)%Q.
Proof.
  apply (convert_monotone (set_original_resolution new_converter 1920 1080));
    vm_compute; discriminate.
Defined.

Lemma convert_relative_within_safe_area_witness :
  in_safe_area
    (set_scaled_resolution (set_original_resolution new_converter 2560 1440) 1024 576)
    (convert_relative_to_actual
       (set_scaled_resolution (set_original_resolution new_converter 2560 1440) 1024 576)
       1024 0).
Proof.
  apply convert_relative_within_safe_area; vm_compute; discriminate.
Defined.

Lemma convert_relative_unscaled_witness :
  ((convert_relative_to_actual
      (set_scaled_resolution (set_original_resolution new_converter 1920 1080) 1920 1080)
      (1201 # 2) 300).1 == 1201 # 2)%Q /\
  ((convert_relative_to_actual
      (set_scaled_resolution (set_original_resolution new_converter 1920 1080) 1920 1080)
      (1201 # 2) 300).2 == 300)%Q.
Proof.
  apply convert_relative_unscaled; try reflexivity.
  repeat split; vm_compute; discriminate.
Defined.

(** ** The adapter adjustment stays in the unit square *)

(** X6: apply_adjustment maps a point of the unit square to a point of
    the unit square, whatever adapter, rules and target type it is given. *)
Theorem apply_adjustment_unit_square (self : AdapterUtils) (x y : Q)
    (adapter_id : option value) (target_type : option str) :
  in_unit_square (x, y) ->
  in_unit_square (apply_adjustment self x y adapter_id target_type).
Proof.
  intros Hin. unfold apply_adjustment.
  destruct (falsy adapter_id); [exact Hin|].
  destruct (get_adapter self adapter_id) as [adapter|]; [|exact Hin].
  induction (default [] (adapter_rules adapter)) as [|rule rest IH]; cbn [apply_rules];
    [exact Hin|].
  destruct (opt_str_eqb (rule_type rule) target_type || opt_str_eqb (rule_target rule) target_type);
    [|exact IH].
  split; cbn [fst snd]; apply clamp_bounds; discriminate.
Qed.

Lemma apply_adjustment_unit_square_witness :
  in_unit_square
    (apply_adjustment example_adapters (99 # 100) (1 # 100) (Some (VStr (py "browser")))
       (Some (py "click"))).
Proof.
  apply apply_adjustment_unit_square. repeat split; vm_compute; discriminate.
Defined.


(** ** The operation history *)

Lemma dict_get_set_same {V} (key : str) (v : V) (d : list (str * V)) :
  dict_get key (dict_set key v d) = Some v.
Proof.
  induction d as [|[k' v'] d IH]; cbn.
  - unfold str_eqb. rewrite bool_decide_eq_true_2 by reflexivity. reflexivity.
  - destruct (str_eqb k' key) eqn:E; cbn; rewrite E; [reflexivity | exact IH].
Qed.

Lemma dict_get_set_other {V} (key key' : str) (v : V) (d : list (str * V)) :
  key' <> key -> dict_get key' (dict_set key v d) = dict_get key' d.
Proof.
  intros Hne. induction d as [|[k' v'] d IH]; cbn.
  - unfold str_eqb. rewrite bool_decide_eq_false_2 by congruence. reflexivity.
  - destruct (str_eqb k' key) eqn:E; cbn.
    + apply bool_decide_eq_true in E. subst k'.
      unfold str_eqb. rewrite !bool_decide_eq_false_2 by congruence. reflexivity.
    + destruct (str_eqb k' key'); [reflexivity | exact IH].
Qed.

Lemma last_n_length {A} (n : nat) (l : list A) : (length (last_n n l) <= n)%nat.
Proof. unfold last_n. rewrite length_drop. lia. Qed.

Lemma last_n_snoc {A} (n : nat) (l : list A) (a : A) :
  last (last_n (S n) (l ++ [a])) = Some a.
Proof.
  unfold last_n. rewrite length_app. cbn [length].
  replace (length l + 1 - S n)%nat with (length l - n)%nat by lia.
  rewrite drop_app_le by lia. apply last_snoc.
Qed.

(** X7: record_operation appends one record to the history and produces no
    event; it keeps at most the five latest successful positions of a type,
    the new one last, and a failure or an empty position leaves the
    positions as they are. *)
Theorem record_operation_bounded (ag : VLMAgent) (operation_type : str)
    (position_info : list (str * str)) (success : bool) (result_message : str) :
  positions_bounded ag ->
  exists ag',
    record_operation operation_type position_info success result_message ag = Ret (Ok tt, ag') /\
    positions_bounded ag' /\
    operation_history ag'
    = operation_history ag
      ++ [ {| op_type := operation_type; op_position := position_info;
              op_success := success; op_result := result_message |} ] /\
    (success = true -> position_info <> [] ->
     exists positions,
       dict_get operation_type (last_successful_positions ag') = Some positions /\
       last positions = Some position_info) /\
    (success = false \/ position_info = [] ->
     last_successful_positions ag' = last_successful_positions ag).
Proof.
  intros Hb. eexists. split; [reflexivity|]. cbn [operation_history last_successful_positions set_history].
  destruct success; cbn [andb].
  - destruct (bool_decide (position_info = [])) eqn:E; cbn [negb].
    + apply bool_decide_eq_true in E. repeat split; auto. intros _ H. contradiction.
    + apply bool_decide_eq_false in E. repeat split.
      * intros op l Hl. cbn [last_successful_positions set_history] in Hl.
        destruct (decide (op = operation_type)) as [->|Hne].
        -- rewrite dict_get_set_same in Hl. injection Hl as <-. apply last_n_length.
        -- rewrite dict_get_set_other in Hl by exact Hne. eapply Hb, Hl.
      * intros _ _. eexists. split; [apply dict_get_set_same | apply last_n_snoc].
      * intros [H|H]; [discriminate | contradiction].
  - repeat split; auto. intros H. discriminate.
Qed.

Lemma record_operation_bounded_witness :
  exists ag',
    record_operation (py "mouse_click") [(py "x", py "0.5")] true (py "ok") (new_agent true true)
    = Ret (Ok tt, ag') /\
    positions_bounded ag' /\
    operation_history ag'
    = operation_history (new_agent true true)
      ++ [ {| op_type := py "mouse_click"; op_position := [(py "x", py "0.5")];
              op_success := true; op_result := py "ok" |} ] /\
    (true = true -> [(py "x", py "0.5")] <> [] ->
     exists positions,
       dict_get (py "mouse_click") (last_successful_positions ag') = Some positions /\
       last positions = Some [(py "x", py "0.5")]) /\
    (true = false \/ [(py "x", py "0.5")] = [] ->
     last_successful_positions ag' = last_successful_positions (new_agent true true)).
Proof.
  apply record_operation_bounded. intros op l H. discriminate H.
Defined.

(** ** run_task with no step to make *)

Section NoStep.
Context {U : Unicode}.

(** X8: with a maximum of zero steps (or less) run_task builds the system
    prompt and nothing else: no capture, no model call, and the result is
    the text for a transcript without a reply. *)
Theorem run_task_no_step (w : env) (ag : VLMAgent) (task : str) (max_steps : Z)
    (cb : bool) (flag : bool) :
  (max_steps <= 0)%Z ->
  events (interp w (run_task task max_steps cb ag) 0 flag).2
  = [LPrompt task (answers w 0%nat (BuildSystemPrompt task))] /\
  (interp w (run_task task max_steps cb ag) 0 flag).1
  = Done (Ok (Some NoReply),
          set_messages [SystemPrompt (answers w 0%nat (BuildSystemPrompt task))] ag).
Proof.
  intros Hmax. unfold run_task, run_task_fuel. cbn [while_loop].
  assert (E : (0 <? max_steps)%Z = false) by (apply Z.ltb_ge; exact Hmax). rewrite E.
  cbn. destruct (releases w 0%nat); rewrite ?orb_true_r, ?orb_false_r; cbn; auto.
Qed.

End NoStep.

Lemma run_task_no_step_witness :
  events (interp (scripted [pause_response] (fun _ => false))
            (run_task (U := ascii_only) (py "open the mail") 0 true (new_agent true true)) 0 false).2
  = [LPrompt (py "open the mail")
       (answers (scripted [pause_response] (fun _ => false)) 0%nat
          (BuildSystemPrompt (py "open the mail")))] /\
  (interp (scripted [pause_response] (fun _ => false))
     (run_task (U := ascii_only) (py "open the mail") 0 true (new_agent true true)) 0 false).1
  = Done (Ok (Some NoReply),
          set_messages
            [SystemPrompt (answers (scripted [pause_response] (fun _ => false)) 0%nat
                             (BuildSystemPrompt (py "open the mail")))]
            (new_agent true true)).
Proof.
  apply (run_task_no_step (U := ascii_only)). lia.
Defined.


(** ** A model call that fails ends the task *)

(** A run that is left blocked was about to wait: the invariant holds of
    the history with that wait. *)
Lemma wp_blocked {A} (I : list label -> Prop) (p : prog A) :
  forall (h : list label) (Q : A -> list label -> Prop) (w : env) (i : nat) (flag : bool),
    wp I p h Q -> (interp w p i flag).1 = Blocked ->
    I (LWait :: rev (events (interp w p i flag).2) ++ h).
Proof.
  induction p as [a|e k IH]; intros h Q w i flag H Hb; cbn [interp] in *.
  - discriminate.
  - cbn in H. destruct (H (answers w i e)) as [Hi Hk].
    destruct (gate e (flag || releases w i)) as [flag'|] eqn:E; cbn [fst snd] in *.
    + rewrite events_cons_event by (destruct (releases w i); auto).
      cbn [rev]. rewrite <- app_assoc. cbn [app]. apply (IH _ _ Q w (S i) flag' Hk Hb).
    + destruct e; cbn in E; try discriminate.
      assert (Ev : events (if releases w i then [LRelease] else []) = [])
        by (destruct (releases w i); reflexivity).
      rewrite Ev. exact Hi.
Qed.

Lemma call_failed_app (h1 h2 : list label) :
  call_failed (h1 ++ h2) = call_failed h1 || call_failed h2.
Proof. apply existsb_app. Qed.

Lemma call_failed_rev (h : list label) : call_failed (rev h) = call_failed h.
Proof.
  induction h as [|l h IH]; [reflexivity|].
  cbn [rev]. rewrite call_failed_app, IH. unfold call_failed. cbn [existsb].
  destruct (is_failed_call l), (existsb is_failed_call h); reflexivity.
Qed.

Lemma call_failed_quiet (pe : bool) (l : label) (h : list label) :
  quiet pe l = true -> call_failed h = false ->
  nothing_after_failed_call (l :: h) /\ call_failed (l :: h) = false.
Proof. intros Hq Hc. split; [exact Hc|]. destruct l; try discriminate; exact Hc. Qed.

Section FailedCall.
Context {U : Unicode}.

Lemma wp_run_task_failed_call (task : str) (max_steps : Z) (cb : bool) (ag : VLMAgent) :
  wp nothing_after_failed_call (run_task task max_steps cb ag) []
     (fun ra h' => exists x, ra.1 = Ok (Some x) /\ (call_failed h' = true -> x = Failed)).
Proof.
  apply (wp_run_task (pause_event ag) nothing_after_failed_call
           (fun _ h => call_failed h = false)
           (fun x h => call_failed h = true -> x = Failed)).
  - reflexivity.
  - intros p. split; reflexivity.
  - intros step ag0 h Hpe0 Hc _. unfold step_body.
    apply wp_try_except. apply wp_mbind.
    apply (emits_perceive (pause_event ag) task cb (step + 1) nothing_after_failed_call
             (fun h' => call_failed h' = false)).
    + exact Hpe0.
    + intros l h' Hq Hc'. exact (call_failed_quiet _ l h' Hq Hc').
    + exact Hc.
    + intros r ag1 h1 Hc1 Hpe1. cbn [fst snd].
      destruct r as [[]|e]; [|cbn; split; [exact Hpe1 | congruence]].
      apply wp_mbind. cbn [wp get_self fst snd].
      apply wp_mbind. cbn [wp perform fst snd label_of]. intros response.
      split; [exact Hc1|].
      destruct response as [text|e].
      * apply (emits_act (pause_event ag) cb (step + 1) (Ok text) nothing_after_failed_call
                 (fun h' => call_failed h' = false)).
        -- exact Hpe1.
        -- intros l h' Hq Hc'. exact (call_failed_quiet _ l h' Hq Hc').
        -- exact Hc1.
        -- intros r ag2 h2 Hc2 Hpe2. cbn [fst snd].
           destruct r as [[| |x]|e]; cbn; (split; [exact Hpe2|]); auto; congruence.
      * cbn. auto.
  - intros step h Hc x. congruence.
Qed.

(** X9: when the model call raises (no quota, no network), run_task does
    nothing more: the failed call is the last event of the run, the run is
    not left waiting, and the result is the failure text. *)
Theorem failed_model_call_ends_task (w : env) (ag : VLMAgent) (task : str) (max_steps : Z)
    (cb : bool) (flag : bool) (t1 : list label) (m : list content) (e : exn) (t2 : list label) :
  (interp w (run_task task max_steps cb ag) 0 flag).2 = t1 ++ LModelCall m (Raise e) :: t2 ->
  events t2 = [] /\
  exists ag', (interp w (run_task task max_steps cb ag) 0 flag).1 = Done (Ok (Some Failed), ag').
Proof.
  intros E.
  pose proof (wp_run_task_failed_call task max_steps cb ag) as Hwp.
  destruct (wp_interp _ _ _ _ w 0%nat flag Hwp) as [Hinv Hdone].
  pose proof (wp_blocked _ _ _ _ w 0%nat flag Hwp) as Hblk.
  rewrite E in Hinv, Hdone, Hblk.
  rewrite events_app in Hinv, Hdone, Hblk.
  cbn [events List.filter is_release negb] in Hinv, Hdone, Hblk.
  fold (events t2) in Hinv, Hdone, Hblk. fold (events t1) in Hinv, Hdone, Hblk.
  assert (Hfail : forall rest, call_failed (rev (events t1 ++ LModelCall m (Raise e) :: rest)) = true).
  { intros rest. rewrite call_failed_rev, call_failed_app. cbn. apply orb_true_r. }
  assert (Ht2 : events t2 = []).
  { destruct (events t2) as [|l rest] eqn:Et; [reflexivity|exfalso].
    specialize (Hinv (events t1 ++ [LModelCall m (Raise e)]) l rest).
    rewrite <- app_assoc in Hinv. specialize (Hinv eq_refl).
    cbn [nothing_after_failed_call] in Hinv. rewrite app_nil_r in Hinv.
    rewrite call_failed_rev, call_failed_app in Hinv. cbn in Hinv.
    rewrite orb_true_r in Hinv. discriminate. }
  split; [exact Ht2|].
  destruct (interp w (run_task task max_steps cb ag) 0 flag).1 as [[r ag']|].
  - destruct (Hdone _ eq_refl) as (x & Hx & Hf). cbn in Hx. subst r.
    rewrite app_nil_r, Hfail in Hf. rewrite (Hf eq_refl). eauto.
  - specialize (Hblk eq_refl). cbn [nothing_after_failed_call] in Hblk.
    rewrite app_nil_r, Hfail in Hblk. discriminate.
Qed.

End FailedCall.


Lemma failed_model_call_ends_task_witness :
  events (drop 3 run_out_of_quota.2) = [] /\
  exists ag', run_out_of_quota.1 = Done (Ok (Some Failed), ag').
Proof.
  apply (failed_model_call_ends_task (U := ascii_only)
           (scripted [] (fun _ => false)) (new_agent true true) (py "open the mail") 5 false false
           (take 2 run_out_of_quota.2)
           (call_messages (default LWait (run_out_of_quota.2 !! 2%nat)))
           (Error (py "insufficient quota"))).
  vm_compute. reflexivity.
Defined.


(** ** Properties of the agent and the history together *)

Section Keeps.
Context {U : Unicode}.
Variable J : VLMAgent -> list label -> Prop.

Lemma keeps_ret {A} (a : A) : keeps J (ret a).
Proof. intros I ag h Q HJ Hst HQ. apply HQ; assumption. Qed.

Lemma keeps_raise {A} (e : exn) : keeps J (raise (A := A) e).
Proof. intros I ag h Q HJ Hst HQ. apply HQ; assumption. Qed.

Lemma keeps_of_result {A} (r : result A) : keeps J (of_result r).
Proof. intros I ag h Q HJ Hst HQ. apply HQ; assumption. Qed.

Lemma keeps_modify (f : VLMAgent -> VLMAgent) :
  (forall ag h, J ag h -> J (f ag) h) -> keeps J (modify f).
Proof. intros Hf I ag h Q HJ Hst HQ. apply HQ. apply Hf, HJ. Qed.

Lemma keeps_perform (e : event) :
  (forall a, quiet true (label_of e a) = true) -> keeps J (perform e).
Proof.
  intros He I ag h Q HJ Hst HQ. cbn. intros a.
  destruct (Hst _ ag h (He a) HJ) as [Hi HJ']. split; [exact Hi | apply HQ; assumption].
Qed.

Lemma keeps_mbind {A B} (m : M A) (f : A -> M B) :
  keeps J m -> (forall a, keeps J (f a)) -> keeps J (mbind m f).
Proof.
  intros Hm Hf I ag h Q HJ Hst HQ. apply wp_mbind.
  apply (Hm I); [assumption..|]. intros r ag' h' HJ'. cbn [fst snd].
  destruct r as [a|e]; [|apply HQ; assumption].
  apply (Hf a I); assumption.
Qed.

Lemma keeps_get_self {B} (f : VLMAgent -> M B) :
  (forall ag, keeps J (f ag)) -> keeps J (mbind get_self f).
Proof.
  intros Hf I ag h Q HJ Hst HQ. apply wp_mbind. cbn.
  apply (Hf ag I); assumption.
Qed.

Lemma keeps_try_except {A} (m : M A) (handler : exn -> M A) :
  keeps J m -> (forall e, keeps J (handler e)) -> keeps J (try_except m handler).
Proof.
  intros Hm Hh I ag h Q HJ Hst HQ. apply wp_try_except.
  apply (Hm I); [assumption..|]. intros r ag' h' HJ'. cbn [fst snd].
  destruct r as [a|e]; [apply HQ; assumption|].
  apply (Hh e I); assumption.
Qed.

Lemma keeps_execute (tool_calls : list ToolCall) :
  keeps J (lift (execute_tool_calls tool_calls)).
Proof.
  intros I ag h Q HJ Hst HQ. apply wp_lift.
  apply wp_execute_tool_calls with (P := J ag); [|exact HJ|].
  - intros f a r h' HJ'. apply Hst; [reflexivity | exact HJ'].
  - intros rs _ HJ'. apply HQ; assumption.
Qed.

Ltac keeps_step :=
  lazymatch goal with
  | |- keeps _ (mbind get_self _) => apply keeps_get_self; intros ?
  | |- keeps _ (mbind _ _) => apply keeps_mbind; [|intros ?]
  | |- keeps _ (try_except _ _) => apply keeps_try_except; [|intros ?]
  | |- keeps _ (ret _) => apply keeps_ret
  | |- keeps _ (raise _) => apply keeps_raise
  | |- keeps _ (of_result _) => apply keeps_of_result
  | |- keeps _ (perform ?e) => apply (keeps_perform e); intros ?; reflexivity
  | |- keeps _ (lift (execute_tool_calls _)) => apply keeps_execute
  | |- keeps _ (if ?b then _ else _) => destruct b eqn:?
  | |- keeps _ (match ?x with _ => _ end) => destruct x eqn:?
  end.

Lemma keeps_notify (k : update_kind) (m : value) : keeps J (notify k m).
Proof. unfold notify. repeat keeps_step. Qed.

Lemma keeps_speak (text : str) : keeps J (speak text).
Proof. unfold speak. repeat keeps_step. Qed.

Lemma keeps_call_step_callback (cb : bool) (arg : callback_arg) :
  keeps J (call_step_callback cb arg).
Proof. unfold call_step_callback. repeat keeps_step. Qed.

Lemma keeps_capture_screenshot : keeps J capture_screenshot.
Proof. unfold capture_screenshot. repeat keeps_step. Qed.

Lemma keeps_wait_for_continue : keeps J wait_for_continue.
Proof. unfold wait_for_continue. repeat keeps_step. Qed.

(** What the assignments to the fields of the agent must preserve. *)
Hypothesis H_history : forall ag h hist pos, J ag h -> J (set_history hist pos ag) h.
Hypothesis H_detected : forall ag h b s, J ag h -> J (set_detected b s ag) h.

Lemma keeps_record_operation (t : str) (p : list (str * str)) (s : bool) (r : str) :
  keeps J (record_operation t p s r).
Proof. unfold record_operation. apply keeps_modify. intros ag h HJ. apply H_history, HJ. Qed.

Section Paused.
Hypothesis H_paused : forall ag h b s, J ag h -> J (set_paused b s ag) h.

Lemma keeps_handle_pause (t : str) (cb : bool) (step : Z) :
  keeps J (handle_manual_intervention_pause t cb step).
Proof.
  unfold handle_manual_intervention_pause.
  repeat first [ apply keeps_record_operation | apply keeps_speak | apply keeps_call_step_callback
               | apply keeps_notify | apply keeps_wait_for_continue
               | apply keeps_modify; intros ? ? ?; apply H_paused; assumption
               | keeps_step ].
Qed.

End Paused.

Hypothesis H_handle : forall t cb step, keeps J (handle_manual_intervention_pause t cb step).
Hypothesis H_messages :
  forall ag h c, is_reply c = false -> J ag h -> J (set_messages (messages ag ++ [c]) ag) h.

Lemma keeps_append_message (c : content) : is_reply c = false -> keeps J (append_message c).
Proof.
  intros Hc. unfold append_message. apply keeps_modify. intros ag h HJ. apply H_messages; assumption.
Qed.

Lemma keeps_check_pause (cb : bool) (step : Z) : keeps J (check_and_handle_pause cb step).
Proof.
  unfold check_and_handle_pause.
  repeat first [ apply H_handle
               | apply keeps_modify; intros ? ? ?; apply H_detected; assumption
               | keeps_step ].
Qed.

Lemma keeps_scan_calls (tool_calls : list ToolCall) : keeps J (scan_calls tool_calls).
Proof.
  induction tool_calls as [|call rest IH]; cbn [scan_calls].
  - keeps_step.
  - repeat first [ exact IH | apply keeps_notify | apply keeps_wait_for_continue
                 | apply keeps_capture_screenshot | apply keeps_append_message; reflexivity
                 | keeps_step ].
Qed.

Lemma keeps_run_tool_calls (tool_calls : list ToolCall) : keeps J (run_tool_calls tool_calls).
Proof.
  intros I ag h Q HJ Hst HQ. unfold run_tool_calls.
  assert (Hfail : forall e ag' h', J ag' h' ->
            wp I (ret (inl (ToolFailure e) : content + task_result) ag') h'
              (fun ra h'' =>
                 match ra.1 with
                 | Ok a =>
                     wp I (match a with
                           | inr res => ret (Return res)
                           | inl tool_result => append_message tool_result;; ret Next
                           end ra.2) h'' Q
                 | Raise e' => Q (Raise e', ra.2) h''
                 end)).
  { intros e ag' h' HJ'. cbn. apply HQ. apply H_messages; [reflexivity | exact HJ']. }
  apply wp_mbind. apply wp_try_except. apply wp_mbind.
  apply (keeps_execute tool_calls I); [exact HJ | exact Hst|].
  intros r ag1 h1 HJ1. cbn [fst snd]. destruct r as [tool_result|e]; [|apply Hfail, HJ1].
  apply wp_mbind. apply (keeps_scan_calls tool_calls I); [exact HJ1 | exact Hst|].
  intros r ag2 h2 HJ2. cbn [fst snd]. destruct r as [[res|]|e]; [| |apply Hfail, HJ2].
  - cbn. apply HQ, HJ2.
  - cbn. apply HQ. apply H_messages; [reflexivity | exact HJ2].
Qed.

Lemma keeps_run_no_tool_calls (response_text : str) : keeps J (run_no_tool_calls response_text).
Proof.
  unfold run_no_tool_calls.
  repeat first [ apply keeps_notify | apply keeps_wait_for_continue | apply keeps_speak
               | apply keeps_capture_screenshot | apply keeps_append_message; reflexivity
               | apply keeps_modify; intros ? ? ?; apply H_detected; assumption
               | keeps_step ].
Qed.

Lemma keeps_perceive (task : str) (cb : bool) (step : Z) : keeps J (perceive task cb step).
Proof.
  unfold perceive.
  repeat first [ apply keeps_check_pause | apply keeps_record_operation | apply keeps_speak
               | apply keeps_call_step_callback | apply keeps_capture_screenshot
               | apply keeps_append_message; first [reflexivity | destruct (step =? 1)%Z; reflexivity]
               | keeps_step ].
Qed.

(** What is done with a response once it is in the transcript. *)
Lemma keeps_act_tail (cb : bool) (step : Z) (response_text : str) :
  keeps J (call_step_callback cb (CbStep response_text step);;
           let* tool_calls := of_result (parse_tool_calls response_text) in
           match tool_calls with
           | _ :: _ => run_tool_calls tool_calls
           | [] => run_no_tool_calls response_text
           end).
Proof.
  repeat first [ apply keeps_run_tool_calls | apply keeps_run_no_tool_calls
               | apply keeps_call_step_callback | keeps_step ].
Qed.

(** One pass of the body.  [Jp] is what the first part establishes; the
    model call turns it into [J] again, the response appended if there is
    one. *)
Lemma wp_step_body_keeps (I : list label -> Prop) (Jp : VLMAgent -> list label -> Prop)
    (task : str) (cb : bool) (step : Z) (ag : VLMAgent) (h : list label)
    (Q : result control * VLMAgent -> list label -> Prop) :
  (forall l ag' h', quiet true l = true -> J ag' h' -> I (l :: h') /\ J ag' (l :: h')) ->
  wp I (perceive task cb step ag) h (fun r h' =>
    match r.1 with Ok _ => Jp r.2 h' | Raise _ => J r.2 h' end) ->
  (forall ag' h' r, Jp ag' h' ->
     I (LModelCall (messages ag') r :: h') /\
     match r with
     | Ok response_text =>
         J (set_messages (messages ag' ++ [Reply response_text]) ag')
           (LModelCall (messages ag') r :: h')
     | Raise _ => J ag' (LModelCall (messages ag') r :: h')
     end) ->
  (forall c ag' h', J ag' h' -> Q (Ok c, ag') h') ->
  wp I (step_body task cb step ag) h Q.
Proof.
  intros Hst Hp Hcall HQ. unfold step_body.
  apply wp_try_except. apply wp_mbind.
  eapply wp_mono; [| |exact Hp]; [auto|].
  intros [r ag1] h1 Hr. cbn [fst snd] in *.
  destruct r as [[]|e]; [|cbn; apply HQ, Hr].
  apply wp_mbind. cbn [wp get_self fst snd].
  apply wp_mbind. cbn [wp perform fst snd label_of]. intros response.
  destruct (Hcall ag1 h1 response Hr) as [Hi HJ]. split; [exact Hi|].
  destruct response as [text|e].
  - unfold act. apply wp_mbind. cbn [of_result wp fst snd].
    apply wp_mbind. cbn [append_message modify wp fst snd].
    apply (keeps_act_tail cb step text I); [exact HJ | exact Hst|].
    intros r ag2 h2 HJ2. cbn [fst snd]. destruct r as [c|e]; cbn; apply HQ, HJ2.
  - cbn. apply HQ, HJ.
Qed.

(** The loop and the task: [J] holds when the task ends, [FR] of a result
    returned from inside the loop; otherwise the result is the last reply
    of the transcript. *)
Lemma wp_while_loop_keeps (I : list label -> Prop) (FR : task_result -> Prop)
    (task : str) (max_steps : Z) (cb : bool) :
  (forall step ag h, J ag h ->
     wp I (step_body task cb step ag) h (fun r h' =>
       match r.1 with
       | Ok (Return x) => J r.2 h' /\ FR x
       | Ok _ => J r.2 h'
       | Raise _ => False
       end)) ->
  forall (fuel : nat) (step : Z) (ag : VLMAgent) (h : list label),
    J ag h -> (Z.to_nat (max_steps - step) < fuel)%nat ->
    wp I (while_loop fuel task max_steps cb step ag) h (fun r h' =>
      J r.2 h' /\
      match r.1 with
      | Ok (Some (Some x)) => FR x
      | Ok (Some None) => True
      | _ => False
      end).
Proof.
  intros Hbody. induction fuel as [|fuel IH]; intros step ag h HJ Hfuel; [lia|].
  cbn [while_loop]. destruct (Z.ltb_spec step max_steps) as [Hlt|Hge].
  - apply wp_mbind. eapply wp_mono; [| |apply (Hbody (step + 1)%Z ag h HJ)]; [auto|].
    intros [r ag'] h' Hr. cbn [fst snd] in *.
    destruct r as [[| |x]|e]; [|cbn; auto..|contradiction].
    apply IH; [exact Hr | lia].
  - cbn. auto.
Qed.

Lemma wp_run_task_keeps (I : list label -> Prop) (FR : task_result -> Prop)
    (task : str) (max_steps : Z) (cb : bool) (ag : VLMAgent) :
  (forall p, I [LPrompt task p] /\ J (set_messages [SystemPrompt p] ag) [LPrompt task p]) ->
  (forall step ag h, J ag h ->
     wp I (step_body task cb step ag) h (fun r h' =>
       match r.1 with
       | Ok (Return x) => J r.2 h' /\ FR x
       | Ok _ => J r.2 h'
       | Raise _ => False
       end)) ->
  wp I (run_task task max_steps cb ag) [] (fun r h' =>
    J r.2 h' /\ exists x, r.1 = Ok (Some x) /\ (FR x \/ x = last_reply (messages r.2))).
Proof.
  intros Hinit Hbody. unfold run_task, run_task_fuel.
  apply wp_mbind. cbn [wp perform label_of fst snd]. intros p.
  destruct (Hinit p) as [Hi HJ]. split; [exact Hi|].
  apply wp_mbind. cbn [wp modify fst snd].
  apply wp_mbind.
  eapply wp_mono; [| |eapply (wp_while_loop_keeps I FR task max_steps cb Hbody)];
    [auto| |exact HJ|lia].
  intros [r ag'] h' [HJ' Hr]. cbn [fst snd] in *.
  destruct r as [[[x|]|]|e]; try contradiction; cbn; eauto.
Qed.

End Keeps.

(** ** What a method returns *)

Lemma wp_conj {A} (I1 I2 : list label -> Prop) (p : prog A) :
  forall (h : list label) (Q1 Q2 : A -> list label -> Prop),
    wp I1 p h Q1 -> wp I2 p h Q2 ->
    wp (fun h' => I1 h' /\ I2 h') p h (fun a h' => Q1 a h' /\ Q2 a h').
Proof.
  induction p as [a|e k IH]; intros h Q1 Q2 H1 H2; cbn in *; [auto|].
  intros a. destruct (H1 a) as [Hi1 Hk1]. destruct (H2 a) as [Hi2 Hk2]. auto.
Qed.

Lemma wp_trivial {A} (p : prog A) (h : list label) :
  wp (fun _ => True) p h (fun _ _ => True).
Proof. revert h. induction p as [a|e k IH]; intros h; cbn; auto. Qed.


Lemma returns_any {A} (m : M A) : returns (fun _ => True) m.
Proof.
  intros ag h. eapply wp_mono; [| |apply wp_trivial]; [auto|].
  intros [[a|e] ag'] h' _; exact Logic.I.
Qed.

Lemma returns_ret {A} (R : A -> Prop) (a : A) : R a -> returns R (ret a).
Proof. intros Ha ag h. exact Ha. Qed.

Lemma returns_raise {A} (R : A -> Prop) (e : exn) : returns R (raise (A := A) e).
Proof. intros ag h. exact Logic.I. Qed.

Lemma returns_mbind {A B} (R1 : A -> Prop) (R : B -> Prop) (m : M A) (f : A -> M B) :
  returns R1 m -> (forall a, R1 a -> returns R (f a)) -> returns R (mbind m f).
Proof.
  intros Hm Hf ag h. apply wp_mbind. eapply wp_mono; [| |apply Hm]; [auto|].
  intros [[a|e] ag'] h' Hr; cbn [fst snd] in *; [apply Hf, Hr | exact Logic.I].
Qed.

Lemma returns_seq {A B} (R : B -> Prop) (m : M A) (f : A -> M B) :
  (forall a, returns R (f a)) -> returns R (mbind m f).
Proof. intros Hf. apply (returns_mbind (fun _ => True)); [apply returns_any | auto]. Qed.

Lemma returns_try_except {A} (R : A -> Prop) (m : M A) (handler : exn -> M A) :
  returns R m -> (forall e, returns R (handler e)) -> returns R (try_except m handler).
Proof.
  intros Hm Hh ag h. apply wp_try_except. eapply wp_mono; [| |apply Hm]; [auto|].
  intros [[a|e] ag'] h' Hr; cbn [fst snd] in *; [exact Hr | apply Hh].
Qed.

(** A method that keeps [J] and returns values of [R]. *)
Lemma keeps_returns {A} (J : VLMAgent -> list label -> Prop) (R : A -> Prop) (m : M A) :
  keeps J m -> returns R m ->
  forall (I : list label -> Prop) (ag : VLMAgent) (h : list label)
         (Q : result A * VLMAgent -> list label -> Prop),
    J ag h ->
    (forall l ag' h', quiet true l = true -> J ag' h' -> I (l :: h') /\ J ag' (l :: h')) ->
    (forall r ag' h', J ag' h' -> match r with Ok a => R a | Raise _ => True end ->
                      Q (r, ag') h') ->
    wp I (m ag) h Q.
Proof.
  intros Hk Hr I ag h Q HJ Hst HQ.
  eapply wp_mono;
    [| |apply (wp_conj I (fun _ => True) (m ag) h
                 (fun ra h' => J ra.2 h')
                 (fun ra _ => match ra.1 with Ok a => R a | Raise _ => True end))].
  - intros h' [Hi _]. exact Hi.
  - intros [r ag'] h' [HJ' HR]. cbn [fst snd] in *. apply HQ; assumption.
  - apply (Hk I); [exact HJ | exact Hst|]. intros r ag' h' HJ'. exact HJ'.
  - apply Hr.
Qed.

Section Returns.
Context {U : Unicode}.

Lemma returns_scan_calls (tool_calls : list ToolCall) :
  returns (fun r => match r with Some x => is_return_result x | None => True end)
    (scan_calls tool_calls).
Proof.
  induction tool_calls as [|call rest IH]; cbn [scan_calls].
  - apply returns_ret. exact Logic.I.
  - destruct (str_eqb (name call) (py "pause_task")).
    + repeat (apply returns_seq; intros ?). exact IH.
    + destruct (str_eqb (name call) (py "complete_task")); [|exact IH].
      apply returns_seq. intros _. apply returns_ret. left. eauto.
Qed.

Lemma returns_run_tool_calls (tool_calls : list ToolCall) :
  returns (fun c => match c with Return x => is_return_result x | _ => True end)
    (run_tool_calls tool_calls).
Proof.
  unfold run_tool_calls.
  apply (returns_mbind
           (fun r : content + task_result =>
              match r with inr x => is_return_result x | inl _ => True end)).
  - apply returns_try_except.
    + apply returns_seq. intros tool_result.
      eapply returns_mbind; [apply returns_scan_calls|].
      intros [x|] Hx; apply returns_ret; [exact Hx | exact Logic.I].
    + intros e. apply returns_ret. exact Logic.I.
  - intros [tool_result|x] Hx.
    + apply returns_seq. intros _. apply returns_ret. exact Logic.I.
    + apply returns_ret. exact Hx.
Qed.

Lemma returns_run_no_tool_calls (response_text : str) :
  returns (fun c => match c with Return x => is_return_result x | _ => True end)
    (run_no_tool_calls response_text).
Proof.
  unfold run_no_tool_calls.
  destruct (detect_manual_intervention_required response_text).
  - repeat (apply returns_seq; intros ?). apply returns_ret. exact Logic.I.
  - destruct (existsb _ _).
    + repeat (apply returns_seq; intros ?). apply returns_ret. exact Logic.I.
    + apply returns_seq; intros ?. apply returns_ret. exact Logic.I.
Qed.

(** A pass of the body returns from the task only with the success of
    complete_task or with the failure. *)
Lemma returns_step_body (task : str) (cb : bool) (step : Z) :
  returns (fun c => match c with Return x => is_return_result x | _ => True end)
    (step_body task cb step).
Proof.
  unfold step_body. apply returns_try_except.
  - repeat (apply returns_seq; intros ?). unfold act.
    repeat (apply returns_seq; intros ?).
    match goal with
    | |- returns _ (match ?l with _ => _ end) => destruct l
    end; [apply returns_run_no_tool_calls | apply returns_run_tool_calls].
  - intros e. apply returns_ret. right. reflexivity.
Qed.

End Returns.


(** ** What the model is shown *)

Lemma starts_with_prompt_app (msgs : list content) (c : content) :
  starts_with_prompt msgs -> starts_with_prompt (msgs ++ [c]).
Proof. intros (p & rest & ->). exists p, (rest ++ [c]). reflexivity. Qed.

Section Screen.
Context {U : Unicode}.

Lemma returns_capture_handler (A : Type) (cb : bool) (step : Z) (e : exn) :
  returns (fun _ : A => False)
    (match e with
     | PermissionError _ =>
         speak (py "屏幕截图失败，任务已暂停。请手动处理后继续。");;
         record_operation (py "screenshot") [(py "error", exn_str e)] false
           (py "屏幕截图失败，任务暂停");;
         call_step_callback cb (CbCaptureFailed step);;
         raise e
     | _ =>
         record_operation (py "screenshot") [(py "error", exn_str e)] false
           (py "屏幕截图其他错误");;
         raise e
     end).
Proof.
  destruct e; repeat (apply returns_seq; intros ?); apply returns_raise.
Qed.

(** The first part of the body leaves a fresh capture as the latest event,
    its image in the last message. *)
Lemma perceive_sees_screen (task : str) (cb : bool) (step : Z) (ag : VLMAgent) (h : list label) :
  starts_with_prompt (messages ag) ->
  wp sees_current_screen (perceive task cb step ag) h (fun r h' =>
    starts_with_prompt (messages r.2) /\
    match r.1 with
    | Ok _ => exists img h'', h' = LCapture (Ok img) :: h'' /\
                exists c, last (messages r.2) = Some c /\ image_of c = Some img
    | Raise _ => True
    end).
Proof.
  intros Hsp.
  set (J := fun (a : VLMAgent) (_ : list label) => starts_with_prompt (messages a)).
  assert (Hst : forall l ag' h', quiet true l = true -> J ag' h' ->
                                 sees_current_screen (l :: h') /\ J ag' (l :: h')).
  { intros l ag' h' Hq HJ. split; [|exact HJ]. destruct l; try exact Logic.I. discriminate. }
  assert (Hfresh : forall ag1 h1 c img, starts_with_prompt (messages ag1) ->
            image_of c = Some img ->
            wp sees_current_screen (ret tt (set_messages (messages ag1 ++ [c]) ag1))
              (LCapture (Ok img) :: h1)
              (fun r h' =>
                 starts_with_prompt (messages r.2) /\
                 match r.1 with
                 | Ok _ => exists img h'', h' = LCapture (Ok img) :: h'' /\
                             exists c, last (messages r.2) = Some c /\ image_of c = Some img
                 | Raise _ => True
                 end)).
  { intros ag1 h1 c img Hs Hc. cbn. split; [apply starts_with_prompt_app, Hs|].
    exists img, h1. split; [reflexivity|]. exists c. split; [apply last_snoc | exact Hc]. }
  unfold perceive. apply wp_mbind. apply wp_try_except.
  unfold capture_screenshot at 1. apply wp_mbind. cbn [perform wp label_of fst snd].
  intros r. split; [exact Logic.I|]. destruct r as [img|e]; cbn [of_result wp fst snd].
  - (* the capture succeeded *)
    apply wp_mbind. cbn [append_message modify wp fst snd].
    set (c0 := if (step =? 1)%Z then TaskAndImage task img else ScreenAndImage img).
    assert (Hc0 : image_of c0 = Some img) by (unfold c0; destruct (step =? 1)%Z; reflexivity).
    apply wp_mbind. unfold check_and_handle_pause. apply wp_mbind. cbn [get_self wp fst snd].
    cbn [manual_intervention_detected pause_reason set_messages].
    destruct (manual_intervention_detected ag).
    + apply wp_mbind. cbn [modify wp fst snd]. apply wp_mbind.
      apply (keeps_handle_pause J); unfold J.
      * intros; assumption.
      * intros; assumption.
      * cbn. apply starts_with_prompt_app, Hsp.
      * exact Hst.
      * intros r ag1 h1 HJ1. cbn [fst snd]. destruct r as [[]|e]; [|cbn; auto].
        cbn [ret wp fst snd]. apply wp_mbind. unfold capture_screenshot. apply wp_mbind.
        cbn [perform wp label_of fst snd]. intros r2. split; [exact Logic.I|].
        destruct r2 as [img2|e]; cbn [of_result wp fst snd]; [|cbn; auto].
        apply (Hfresh ag1 h1 (ResumedAndImage None img2) img2 HJ1 eq_refl).
    + cbn [ret wp fst snd].
      apply (Hfresh ag h c0 img Hsp Hc0).
  - (* the capture failed: the handler raises again *)
    apply (keeps_returns J (fun _ => False)).
    + destruct e; unfold record_operation;
        repeat first [ apply keeps_speak | apply keeps_call_step_callback | apply keeps_raise
                     | apply keeps_modify; intros ? ? H; exact H
                     | apply keeps_mbind; [|intros ?] ].
    + apply returns_capture_handler.
    + exact Hsp.
    + exact Hst.
    + intros r ag1 h1 HJ1 Hr. destruct r as [a|e1]; [contradiction|]. cbn. auto.
Qed.

Lemma wp_run_task_sees_screen (task : str) (max_steps : Z) (cb : bool) (ag : VLMAgent) :
  wp sees_current_screen (run_task task max_steps cb ag) [] (fun _ _ => True).
Proof.
  pose (J := fun (a : VLMAgent) (_ : list label) => starts_with_prompt (messages a)).
  assert (Hst : forall l ag' h', quiet true l = true -> J ag' h' ->
                                 sees_current_screen (l :: h') /\ J ag' (l :: h')).
  { intros l ag' h' Hq HJ. split; [|exact HJ]. destruct l; try exact Logic.I. discriminate. }
  eapply wp_mono;
    [| |apply (wp_run_task_keeps J sees_current_screen (fun _ => True) task max_steps cb ag)];
    [auto|auto| |].
  - intros p. split; [exact Logic.I|]. exists p, []. reflexivity.
  - intros step ag0 h HJ.
    apply (wp_step_body_keeps J)
      with (Jp := fun a h' =>
                    starts_with_prompt (messages a) /\
                    exists img h'', h' = LCapture (Ok img) :: h'' /\
                      exists c, last (messages a) = Some c /\ image_of c = Some img).
    + intros a h' b s HJ'. exact HJ'.
    + intros a h' c Hc HJ'. apply starts_with_prompt_app, HJ'.
    + exact Hst.
    + eapply wp_mono; [| |apply (perceive_sees_screen task cb step ag0 h HJ)]; [auto|].
      intros [r ag1] h1 [Hs Hr]. cbn [fst snd] in *. destruct r; auto.
    + intros ag1 h1 r [Hs Himg]. split; [split; assumption|].
      destruct r; [apply starts_with_prompt_app, Hs | exact Hs].
    + intros c ag1 h1 HJ1. cbn [fst snd]. destruct c; auto.
Qed.

(** X10: every model call of a run is handed a transcript that begins with the
    system prompt and ends with a user message carrying a screenshot, and
    that screenshot was captured by the event just before the call: no tool
    runs, and nothing waits, between the capture and the call. *)
Theorem model_call_sees_current_screen (w : env) (ag : VLMAgent) (task : str) (max_steps : Z)
    (cb : bool) (flag : bool) :
  Forall (fun l => match l with LModelCall msgs _ => starts_with_prompt msgs | _ => True end)
    (interp w (run_task task max_steps cb ag) 0 flag).2 /\
  forall t1 msgs r t2,
    events (interp w (run_task task max_steps cb ag) 0 flag).2 = t1 ++ LModelCall msgs r :: t2 ->
    exists t0 img c,
      t1 = t0 ++ [LCapture (Ok img)] /\ last msgs = Some c /\ image_of c = Some img.
Proof.
  pose proof (wp_run_task_sees_screen task max_steps cb ag) as Hwp.
  destruct (wp_interp _ _ _ _ w 0%nat flag Hwp) as [Hinv _].
  assert (Hcall : forall t1 msgs r t2,
            events (interp w (run_task task max_steps cb ag) 0 flag).2
            = t1 ++ LModelCall msgs r :: t2 ->
            starts_with_prompt msgs /\
            exists t0 img c,
              t1 = t0 ++ [LCapture (Ok img)] /\ last msgs = Some c /\ image_of c = Some img).
  { intros t1 msgs r t2 E. specialize (Hinv t1 _ t2 E). cbn [sees_current_screen] in Hinv.
    destruct Hinv as (Hs & img & h'' & Hh & c & Hl & Hc). split; [exact Hs|].
    rewrite app_nil_r in Hh. apply (f_equal (@rev label)) in Hh.
    rewrite rev_involutive in Hh. cbn [rev] in Hh. eauto 6. }
  split.
  - apply Forall_forall. intros l Hl. destruct l as [| |msgs r| | | | | | |]; try exact Logic.I.
    apply list_elem_of_In in Hl.
    assert (Hin : In (LModelCall msgs r)
                    (events (interp w (run_task task max_steps cb ag) 0 flag).2)).
    { unfold events. apply filter_In. auto. }
    apply in_split in Hin as (t1 & t2 & E). apply (Hcall _ _ _ _ E).
  - intros t1 msgs r t2 E. apply (Hcall _ _ _ _ E).
Qed.

(** ** The result of a task *)

Lemma last_reply_app (msgs : list content) (c : content) :
  last_reply (msgs ++ [c])
  = match c with Reply response_text => LastReply response_text | _ => last_reply msgs end.
Proof. unfold last_reply. rewrite rev_app_distr. destruct c; reflexivity. Qed.

Lemma reply_result_quiet (l : label) (h : list label) :
  quiet true l = true -> reply_result (l :: h) = reply_result h.
Proof. intros Hq. destruct l; try discriminate; reflexivity. Qed.

Lemma wp_run_task_result (task : str) (max_steps : Z) (cb : bool) (ag : VLMAgent) :
  wp (fun _ => True) (run_task task max_steps cb ag) [] (fun r h' =>
    exists x, r.1 = Ok (Some x) /\ (is_return_result x \/ x = reply_result h')).
Proof.
  pose (J := fun (a : VLMAgent) (h : list label) => last_reply (messages a) = reply_result h).
  assert (Hst : forall l ag' h', quiet true l = true -> J ag' h' ->
                                 True /\ J ag' (l :: h')).
  { intros l ag' h' Hq HJ. split; [exact Logic.I|]. unfold J.
    rewrite reply_result_quiet by exact Hq. exact HJ. }
  eapply wp_mono;
    [| |apply (wp_run_task_keeps J (fun _ => True) is_return_result task max_steps cb ag)].
  - auto.
  - intros [r ag'] h' (HJ & x & Hx & Hor). exists x. split; [exact Hx|].
    destruct Hor as [H|H]; [left; exact H | right]. rewrite H. exact HJ.
  - intros p. split; [exact Logic.I | reflexivity].
  - intros step ag0 h HJ.
    eapply wp_mono;
      [| |apply (wp_conj (fun _ => True) (fun _ => True) (step_body task cb step ag0) h
                   (fun ra h' => J ra.2 h' /\ exists c, ra.1 = Ok c)
                   (fun ra _ => match ra.1 with
                                | Ok (Return x) => is_return_result x
                                | _ => True
                                end))].
    + auto.
    + intros [r ag1] h1 [[HJ1 [c Hc]] Hr]. cbn [fst snd] in *. subst r. destruct c; auto.
    + apply (wp_step_body_keeps J) with (Jp := J).
      * intros a h' b s HJ'. exact HJ'.
      * intros a h' c Hc HJ'. unfold J in *. cbn [messages set_messages].
        rewrite last_reply_app. destruct c; try exact HJ'. discriminate.
      * exact Hst.
      * apply (keeps_perceive J).
        -- intros a h' hist pos HJ'. exact HJ'.
        -- intros a h' b s HJ'. exact HJ'.
        -- intros t c s. apply keeps_handle_pause; intros a h' ? ? HJ'; exact HJ'.
        -- intros a h' c Hc HJ'. unfold J in *. cbn [messages set_messages].
           rewrite last_reply_app. destruct c; try exact HJ'. discriminate.
        -- exact HJ.
        -- exact Hst.
        -- intros r ag1 h1 HJ1. cbn [fst snd]. destruct r; exact HJ1.
      * intros ag1 h1 r HJ1. split; [exact Logic.I|]. unfold J in *.
        destruct r as [text|e]; cbn [messages set_messages].
        -- rewrite last_reply_app. reflexivity.
        -- exact HJ1.
      * intros c ag1 h1 HJ1. cbn [fst snd]. eauto.
    + eapply wp_mono; [| |apply (returns_step_body task cb step ag0 h)]; [auto|].
      intros [r ag1] h1 Hr. cbn [fst snd] in *. destruct r as [[| |x]|e]; auto.
Qed.

(** X11: a run that is not left waiting ends with a result: the success of a
    complete_task call, the failure text, or else the text of the last
    response the model gave (the no-reply text when it gave none). *)
Theorem run_task_result (w : env) (ag : VLMAgent) (task : str) (max_steps : Z)
    (cb : bool) (flag : bool) :
  (interp w (run_task task max_steps cb ag) 0 flag).1 = Blocked \/
  exists x ag',
    (interp w (run_task task max_steps cb ag) 0 flag).1 = Done (Ok (Some x), ag') /\
    (is_return_result x \/
     x = reply_result (rev (events (interp w (run_task task max_steps cb ag) 0 flag).2))).
Proof.
  pose proof (wp_run_task_result task max_steps cb ag) as Hwp.
  destruct (wp_interp _ _ _ _ w 0%nat flag Hwp) as [_ Hdone].
  destruct (interp w (run_task task max_steps cb ag) 0 flag).1 as [[r ag']|]; [right|left; reflexivity].
  destruct (Hdone _ eq_refl) as (x & Hx & Hor). cbn in Hx. subst r.
  rewrite app_nil_r in Hor. eauto.
Qed.

End Screen.


(** ** The parser: what it extracts, and when it raises *)

Local Open Scope N_scope.

Lemma dict_set_keys {V} (key : str) (v : V) (d : list (str * V)) :
  map fst (dict_set key v d) = map fst d \/
  (~ In key (map fst d) /\ map fst (dict_set key v d) = map fst d ++ [key]).
Proof.
  induction d as [|[k' v'] d IH]; cbn.
  - right. auto.
  - destruct (str_eqb k' key) eqn:E; cbn; [left; reflexivity|].
    apply bool_decide_eq_false in E.
    destruct IH as [IH|[Hn IH]]; [left; congruence|right].
    split; [intros [H|H]; auto | congruence].
Qed.

Lemma dict_set_keys_ok {V} (P : str -> Prop) (key : str) (v : V) (d : list (str * V)) :
  P key -> NoDup (map fst d) -> Forall P (map fst d) ->
  NoDup (map fst (dict_set key v d)) /\ Forall P (map fst (dict_set key v d)).
Proof.
  intros Hk Hnd Hall. destruct (dict_set_keys key v d) as [->|[Hn ->]]; [auto|].
  split.
  - apply NoDup_app. split; [exact Hnd|]. split; [|repeat constructor; apply not_elem_of_nil].
    intros x Hx Hx'. apply list_elem_of_In in Hx. apply list_elem_of_singleton in Hx'. subst x.
    exact (Hn Hx).
  - apply Forall_app. split; [exact Hall | repeat constructor; exact Hk].
Qed.

Section ParserMore.
Context {U : Unicode}.

Lemma value_alternatives_groups (u rest : str) (g g' : groups) :
  matched (Alts [Seq [Lit [quote]; Star not_quote; Lit [quote]];
                 Seq [Plus is_decimal; Lit (py "."); Plus is_decimal];
                 Plus is_decimal;
                 Plus is_word]) u rest g g' ->
  g' = g.
Proof. cbn -[py quote]. intros [H|[H|[H|H]]]; break_matched; reflexivity. Qed.

(** A match of the argument pattern: the name is an identifier, the value
    is a part of the matched text. *)
Lemma arg_pattern_shape (u rest : str) (g : groups) :
  matched arg_pattern u rest [] g ->
  is_identifier (group 1 g) /\ exists pre post, u = pre ++ group 2 g ++ post.
Proof.
  intros H. unfold arg_pattern in H. cbn -[py quote Alts] in H. break_matched.
  match goal with
  | H : matched (Alts _) _ _ _ _ |- _ => apply value_alternatives_groups in H; subst
  end.
  cbn [group find fst snd Nat.eqb]. split.
  - eexists _, _. split; [reflexivity|]. split; assumption.
  - match goal with
    | |- context [?a ++ ?b ++ ?c ++ py "=" ++ ?d ++ ?v ++ ?e] =>
        exists (a ++ b ++ c ++ py "=" ++ d), e
    end.
    rewrite <- !app_assoc. reflexivity.
Qed.

Lemma parse_args_keys (ms : list groups) :
  forall (acc args : list (str * value)),
    parse_args ms acc = Ok args ->
    Forall (fun g => is_identifier (group 1 g)) ms ->
    NoDup (map fst acc) -> Forall is_identifier (map fst acc) ->
    NoDup (map fst args) /\ Forall is_identifier (map fst args).
Proof.
  induction ms as [|g ms IH]; intros acc args H Hms Hnd Hall; cbn in H.
  - injection H as <-. auto.
  - destruct (coerce (group 2 g)) as [v|e]; [|discriminate].
    apply Forall_cons in Hms as [Hg Hms].
    destruct (dict_set_keys_ok is_identifier (group 1 g) v acc Hg Hnd Hall) as [Hnd' Hall'].
    eapply IH; eassumption.
Qed.

Lemma findall_arg_names (args_str : str) :
  Forall (fun g => is_identifier (group 1 g)) (findall arg_pattern args_str).
Proof.
  apply Forall_forall. intros g Hg. apply list_elem_of_In in Hg.
  apply findall_sound in Hg as (pre & u & rest & _ & Hm).
  apply arg_pattern_shape in Hm. tauto.
Qed.

(** X12: every call the parser extracts is well formed: its name is an
    identifier, its argument names are identifiers, and no argument name
    stands twice (a repeated name keeps its first place and its last value). *)
Theorem parsed_calls_well_formed (response_text : str) (calls : list ToolCall) (c : ToolCall) :
  parse_tool_calls response_text = Ok calls -> In c calls ->
  is_identifier (name c) /\
  NoDup (map fst (arguments c)) /\
  Forall is_identifier (map fst (arguments c)).
Proof.
  intros Hp Hc. destruct (parse_matches_In _ _ _ Hp Hc) as (m & _ & Hm).
  unfold parse_match in Hm.
  destruct (re_match function_pattern m) as [g|] eqn:Eg; [|discriminate].
  assert (Hname : is_identifier (group 1 g)).
  { apply re_match_sound in Eg as (u & rest & _ & Hmt).
    apply function_pattern_shape in Hmt as (ws1 & f & ws2 & a & ws3 & _ & Hf & _ & _ & -> & _).
    exact Hf. }
  destruct (strip (group 2 g)).
  - injection Hm as <-. cbn. repeat split; [exact Hname | constructor | constructor].
  - destruct (parse_args _ _) as [args|] eqn:Ea; [|discriminate]. injection Hm as <-. cbn.
    split; [exact Hname|].
    eapply parse_args_keys; [exact Ea | apply findall_arg_names | constructor | constructor].
Qed.

(** Every span the parser considers is a part of the response text. *)
Lemma all_matches_substring (text m : str) :
  In m (all_matches text) -> exists pre rest, text = pre ++ m ++ rest.
Proof.
  intros H. apply all_matches_In in H as [H|[H|H]].
  - apply matches1_shape in H as (pre & rest & ->). exists (pre ++ marker), (marker ++ rest).
    rewrite <- !app_assoc. reflexivity.
  - apply matches2_shape in H as (_ & pre & ws & rest & ->). exists pre, (ws ++ marker ++ rest).
    reflexivity.
  - unfold matches3 in H. destruct (map (group 1) (findall pattern3 text)); [contradiction|].
    apply in_map_iff in H as (g & <- & Hg).
    apply findall_sound in Hg as (pre & u & rest & -> & Hm).
    unfold full_pattern3 in Hm. cbn [Seq matched] in Hm.
    destruct Hm as (u1 & u2 & g1 & -> & (g2 & Hspan & ->) & Hend).
    apply bare_end_groups in Hend as [-> ->].
    cbn [group find fst snd Nat.eqb]. exists pre, rest. rewrite app_nil_r. reflexivity.
Qed.

Lemma function_pattern_paren (m : str) (g : groups) :
  re_match function_pattern m = Some g ->
  In (chr "(") m /\ exists pre rest, m = pre ++ group 2 g ++ rest.
Proof.
  intros Eg. apply re_match_sound in Eg as (u & rest & -> & Hmt).
  apply function_pattern_shape in Hmt as (ws1 & f & ws2 & a & ws3 & _ & _ & _ & -> & _ & ->).
  change (py "(") with [chr "("]. split.
  - rewrite !in_app_iff. cbn. tauto.
  - exists (ws1 ++ f ++ ws2 ++ [chr "("]), (py ")" ++ ws3 ++ rest).
    rewrite <- !app_assoc. reflexivity.
Qed.

(** X13: a text without an opening parenthesis holds no tool call: plain prose,
    and the empty text, parse to the empty list. *)
Theorem parse_without_parenthesis (response_text : str) :
  ~ In (chr "(") response_text -> parse_tool_calls response_text = Ok [].
Proof.
  intros Hno. unfold parse_tool_calls.
  assert (Hall : forall m, In m (all_matches response_text) -> parse_match m = Ok None).
  { intros m Hm. unfold parse_match.
    destruct (re_match function_pattern m) as [g|] eqn:Eg; [exfalso|reflexivity].
    apply function_pattern_paren in Eg as [Hin _].
    apply all_matches_substring in Hm as (pre & rest & E).
    apply Hno. rewrite E, !in_app_iff. tauto. }
  induction (all_matches response_text) as [|m l IH]; [reflexivity|].
  cbn [parse_matches]. rewrite (Hall m) by (left; reflexivity).
  rewrite IH by (intros m' Hm'; apply Hall; right; exact Hm'). reflexivity.
Qed.

(** On ASCII characters [isdigit] and [int] agree. *)
Lemma int_digits_ascii (s : str) :
  forall acc, Forall (fun c => c < 128) s -> forallb is_digit s = true ->
              exists n, int_digits acc s = Some n.
Proof.
  induction s as [|c s IH]; intros acc Ha Hd; cbn; [eauto|].
  apply Forall_cons in Ha as [Hc Ha]. cbn in Hd. apply andb_true_iff in Hd as [Hdc Hd].
  unfold is_digit, is_decimal in Hdc. apply N.ltb_lt in Hc as Hc'.
  unfold decimal_value in *. rewrite Hc' in *. rewrite orb_false_r in Hdc.
  destruct (is_09 c); [|discriminate]. apply IH; assumption.
Qed.

Lemma coerce_ascii (arg_value : str) :
  Forall (fun c => c < 128) arg_value -> exists v, coerce arg_value = Ok v.
Proof.
  intros Ha. unfold coerce.
  destruct (_ && _); [eauto|].
  destruct (existsb _ _); [destruct (py_float arg_value); eauto|].
  destruct (isdigit arg_value) eqn:Ed; [|eauto].
  unfold isdigit in Ed. unfold py_int. destruct arg_value as [|c s]; [discriminate|].
  destruct (int_digits_ascii (c :: s) 0 Ha Ed) as [n ->]. eauto.
Qed.

Lemma parse_args_ascii (ms : list groups) :
  forall acc, Forall (fun g => Forall (fun c => c < 128) (group 2 g)) ms ->
              exists args, parse_args ms acc = Ok args.
Proof.
  induction ms as [|g ms IH]; intros acc Hms; cbn; [eauto|].
  apply Forall_cons in Hms as [Hg Hms].
  destruct (coerce_ascii _ Hg) as [v ->]. apply IH, Hms.
Qed.

(** X14: the parser raises on no ASCII text of at most 4300 characters: a
    value [int()] rejects although [isdigit()] accepts it needs a digit from
    beyond ASCII, or more digits than the interpreter converts (4300 by
    default), which so short a text cannot hold. *)
Theorem parse_ascii_never_raises (response_text : str) :
  Forall (fun c => c < 128) response_text ->
  (length response_text <= 4300)%nat ->
  exists calls, parse_tool_calls response_text = Ok calls.
Proof.
  intros Ha _. unfold parse_tool_calls.
  assert (Hall : forall m, In m (all_matches response_text) -> exists o, parse_match m = Ok o).
  { intros m Hm. apply all_matches_substring in Hm as (pre & rest & E).
    assert (Hma : Forall (fun c => c < 128) m).
    { rewrite E in Ha. apply Forall_app in Ha as [_ Ha]. apply Forall_app in Ha as [Ha _]. exact Ha. }
    unfold parse_match. destruct (re_match function_pattern m) as [g|] eqn:Eg; [|eauto].
    apply function_pattern_paren in Eg as [_ (p1 & r1 & E1)].
    assert (Hargs : Forall (fun c => c < 128) (group 2 g)).
    { rewrite E1 in Hma. apply Forall_app in Hma as [_ Hma].
      apply Forall_app in Hma as [Hma _]. exact Hma. }
    destruct (strip (group 2 g)); [eauto|].
    destruct (parse_args_ascii (findall arg_pattern (group 2 g)) []) as [args ->]; [|eauto].
    apply Forall_forall. intros g' Hg'. apply list_elem_of_In in Hg'.
    apply findall_sound in Hg' as (p2 & u & r2 & E2 & Hm').
    apply arg_pattern_shape in Hm' as [_ (p3 & r3 & ->)].
    rewrite E2 in Hargs. apply Forall_app in Hargs as [_ Hargs].
    apply Forall_app in Hargs as [Hargs _]. apply Forall_app in Hargs as [_ Hargs].
    apply Forall_app in Hargs as [Hargs _]. exact Hargs. }
  induction (all_matches response_text) as [|m l IH]; cbn [parse_matches]; [eauto|].
  destruct (Hall m) as [o ->]; [left; reflexivity|].
  destruct IH as [calls ->]; [intros m' Hm'; apply Hall; right; exact Hm'|]. eauto.
Qed.

(** X15: of the calls the bare form can give, exactly those named clear_input
    have no handler in the executor's registry. *)
Theorem bare_call_without_handler (response_text : str) (calls : list ToolCall) (c : ToolCall) :
  contains marker response_text = false ->
  parse_tool_calls response_text = Ok calls -> In c calls ->
  (in_tools (name c) = false <-> name c = py "clear_input").
Proof.
  intros Hno Hparse Hc.
  destruct (parse_matches_In _ _ _ Hparse Hc) as (m & Hm & Hp).
  apply all_matches_In in Hm.
  destruct (no_marker_no_matches _ Hno) as [E1 E2]. rewrite E1, E2 in Hm.
  destruct Hm as [[]|[[]|Hm]].
  pose proof (bare_span_name _ _ _ Hm Hp) as Hn.
  unfold bare_names in Hn. cbn [In] in Hn.
  repeat (destruct Hn as [<-|Hn]; [vm_compute; split; congruence|]).
  contradiction.
Qed.

End ParserMore.

Lemma parsed_calls_well_formed_witness :
  is_identifier (name {| name := py "f"; arguments := [(py "x", VInt 1)] |}) /\
  NoDup (map fst (arguments {| name := py "f"; arguments := [(py "x", VInt 1)] |})) /\
  Forall is_identifier (map fst (arguments {| name := py "f"; arguments := [(py "x", VInt 1)] |})).
Proof.
  apply (parsed_calls_well_formed (U := ascii_only) one_line_text
           [ {| name := py "f"; arguments := [(py "x", VInt 1)] |} ]).
  - vm_compute. reflexivity.
  - left. reflexivity.
Defined.

Lemma parse_without_parenthesis_witness :
  parse_tool_calls (U := ascii_only) (py "The window is open. Shall I go on?") = Ok [].
Proof.
  apply (parse_without_parenthesis (U := ascii_only)).
  intros H.
  assert (E : existsb (N.eqb (chr "(")) (py "The window is open. Shall I go on?") = true).
  { apply existsb_exists. exists (chr "("). split; [exact H | reflexivity]. }
  discriminate E.
Defined.

Lemma parse_ascii_never_raises_witness :
  exists calls, parse_tool_calls (U := ascii_only) complete_response = Ok calls.
Proof.
  apply (parse_ascii_never_raises (U := ascii_only)).
  - apply Forall_forall. intros c Hc. apply list_elem_of_In in Hc.
    assert (Hall : forallb (fun c => c <? 128) complete_response = true) by reflexivity.
    rewrite forallb_forall in Hall. apply N.ltb_lt, Hall, Hc.
  - apply Nat.leb_le. vm_compute. reflexivity.
Defined.

Lemma bare_call_without_handler_witness :
  in_tools (name {| name := py "wait"; arguments := [(py "seconds", VInt 2)] |}) = false <->
  name {| name := py "wait"; arguments := [(py "seconds", VInt 2)] |} = py "clear_input".
Proof.
  apply (bare_call_without_handler (U := ascii_only) bare_text
           [ {| name := py "wait"; arguments := [(py "seconds", VInt 2)] |} ]).
  - vm_compute. reflexivity.
  - vm_compute. reflexivity.
  - left. reflexivity.
Defined.


(** ** mouse_click on any target *)

Section Click.
Local Open Scope Q_scope.

Lemma Qabs'_le (x b : Q) : - b <= x <= b -> Qabs' x <= b.
Proof.
  intros [H1 H2]. unfold Qabs'. destruct (Qltb x 0); lra.
Qed.

(** [int(q)] is less than one away from [q]. *)
Lemma py_trunc_near (q : Q) : Qabs' (inject_Z (py_trunc q) - q) <= 1.
Proof.
  apply Qabs'_le. unfold py_trunc. destruct (Qle_bool 0 q).
  - pose proof (Qfloor_le q). pose proof (Qlt_floor q) as H1.
    rewrite inject_Z_plus in H1. change (inject_Z 1) with 1 in H1. lra.
  - pose proof (Qle_ceiling q). pose proof (Qceiling_lt q) as H1.
    unfold Z.sub in H1. rewrite inject_Z_plus in H1.
    assert (E : inject_Z (- (1)) == - (1)) by reflexivity. rewrite E in H1. lra.
Qed.

Lemma py_trunc_bounds (q : Q) (lo hi : Z) :
  (0 <= lo)%Z -> inject_Z lo <= q <= inject_Z hi -> (lo <= py_trunc q <= hi)%Z.
Proof.
  intros Hlo [H1 H2]. unfold py_trunc.
  assert (H0 : 0 <= q).
  { eapply Qle_trans; [|exact H1]. change 0 with (inject_Z 0). rewrite <- Zle_Qle. exact Hlo. }
  apply Qle_bool_iff in H0. rewrite H0. split.
  - rewrite <- (Qfloor_Z lo). apply Qfloor_resp_le, H1.
  - rewrite <- (Qfloor_Z hi). apply Qfloor_resp_le, H2.
Qed.

Lemma no_error_after_move (q : Q) : Qltb 2 (Qabs' (inject_Z (py_trunc q) - q)) = false.
Proof. apply Qltb_false. pose proof (py_trunc_near q). lra. Qed.

(** With [move_first] set the try block moves the pointer to the target
    (cut to whole pixels), clicks once there, and raises nothing. *)
Lemma mouse_click_try_moved (actual_x actual_y : Q) (button : str) (clicks : Z) (d : Device) :
  (exists text, (mouse_click_try actual_x actual_y button clicks true d).2 = Ok text) /\
  exists moves, Forall (fun ev => is_click ev = false) moves /\
    input_log (mouse_click_try actual_x actual_y button clicks true d).1
    = input_log d ++ moves ++ [Clicked (py_trunc actual_x) (py_trunc actual_y) button clicks].
Proof.
  unfold mouse_click_try. cbn [orb].
  set (c := (Qltb 10 _ || Qltb 10 _)%bool).
  set (d1 := if c then _ else d).
  assert (Hd1 : exists m1, Forall (fun ev => is_click ev = false) m1
                           /\ input_log d1 = input_log d ++ m1).
  { subst d1. destruct c.
    - eexists [_]. split; [|reflexivity]. repeat constructor.
    - exists []. split; [constructor|]. symmetry; apply app_nil_r. }
  destruct Hd1 as (m1 & Hm1 & Hlog1).
  cbn [moveTo pointer fst snd]. rewrite !no_error_after_move.
  cbn [orb fst snd click pointer input_log moveTo].
  split; [eexists; reflexivity|].
  exists (m1 ++ [Moved (py_trunc actual_x) (py_trunc actual_y)]). split.
  - apply Forall_app. split; [exact Hm1 | repeat constructor].
  - rewrite Hlog1, <- !app_assoc. reflexivity.
Qed.

Lemma mouse_click_unfold (adapter_utils : AdapterUtils) (coordinate_converter : CoordinateConverter)
    (x y : Q) (button : str) (clicks : Z) (adapter_id : option value) (move_first : bool)
    (d : Device) :
  (mouse_click adapter_utils coordinate_converter x y button clicks adapter_id move_first d).1
  = let t := click_target adapter_utils coordinate_converter x y adapter_id d in
    match mouse_click_try t.1 t.2 button clicks move_first d with
    | (d', Ok _) => d'
    | (d', Raise _) =>
        click_at (round_half_even t.1) (round_half_even t.2) button clicks d'
    end.
Proof.
  unfold mouse_click, click_target.
  destruct (apply_adjustment _ _ _ _ _) as [adjusted_x adjusted_y].
  destruct (convert_proportion_to_actual _ _ _) as [actual_x actual_y].
  destruct (screen_size d) as [screen_width screen_height]. cbn [fst snd].
  destruct (mouse_click_try _ _ _ _ _ _) as [d' [text|e]]; reflexivity.
Qed.

Lemma click_target_bounds (adapter_utils : AdapterUtils) (coordinate_converter : CoordinateConverter)
    (x y : Q) (adapter_id : option value) (d : Device) :
  (2 * safe_margin <= (screen_size d).1)%Z -> (2 * safe_margin <= (screen_size d).2)%Z ->
  inject_Z safe_margin <= (click_target adapter_utils coordinate_converter x y adapter_id d).1
    <= inject_Z ((screen_size d).1 - safe_margin) /\
  inject_Z safe_margin <= (click_target adapter_utils coordinate_converter x y adapter_id d).2
    <= inject_Z ((screen_size d).2 - safe_margin).
Proof.
  unfold click_target.
  destruct (apply_adjustment _ _ _ _ _) as [adjusted_x adjusted_y].
  destruct (convert_proportion_to_actual _ _ _) as [actual_x actual_y].
  destruct (screen_size d) as [screen_width screen_height]. cbn [fst snd].
  intros Hw Hh. split; apply clamp_bounds; rewrite <- Zle_Qle; unfold safe_margin in *; lia.
Qed.

(** X16: called with move_first (the default), from a pointer that rests in
    no corner and with an overshoot point that keeps the margin (so that no
    move can trip pyautogui's fail-safe), mouse_click moves the pointer and
    then clicks exactly once, with the button and the count it was given, at
    a pixel no more than one away from its target; on a screen of at least
    ten pixels each way that pixel keeps the margin of five from every edge,
    whatever coordinates, adapter and converter it is given. *)
Theorem mouse_click_once_within_margin (adapter_utils : AdapterUtils)
    (coordinate_converter : CoordinateConverter) (x y : Q) (button : str) (clicks : Z)
    (adapter_id : option value) (d : Device) :
  let t := click_target adapter_utils coordinate_converter x y adapter_id d in
  (2 * safe_margin <= (screen_size d).1)%Z -> (2 * safe_margin <= (screen_size d).2)%Z ->
  at_corner d (pointer d) = false ->
  within_margins d (overshoot_point d t) ->
  exists moves click_x click_y,
    Forall (fun ev => is_click ev = false) moves /\
    input_log (mouse_click adapter_utils coordinate_converter x y button clicks adapter_id true d).1
    = input_log d ++ moves ++ [Clicked click_x click_y button clicks] /\
    Qabs' (inject_Z click_x - t.1) <= 1 /\ Qabs' (inject_Z click_y - t.2) <= 1 /\
    (safe_margin <= click_x <= (screen_size d).1 - safe_margin)%Z /\
    (safe_margin <= click_y <= (screen_size d).2 - safe_margin)%Z.
Proof.
  intros t Hw Hh _ _. rewrite mouse_click_unfold. cbv zeta. fold t.
  destruct (click_target_bounds adapter_utils coordinate_converter x y adapter_id d Hw Hh)
    as [Hx Hy]. fold t in Hx, Hy.
  destruct (mouse_click_try_moved t.1 t.2 button clicks d) as [[text Htext] (moves & Hmoves & Hlog)].
  destruct (mouse_click_try t.1 t.2 button clicks true d) as [d' r]. cbn [fst snd] in *. subst r.
  exists moves, (py_trunc t.1), (py_trunc t.2).
  split; [exact Hmoves|]. split; [exact Hlog|].
  split; [apply py_trunc_near|]. split; [apply py_trunc_near|].
  split; apply (py_trunc_bounds _ safe_margin); try assumption; unfold safe_margin; lia.
Qed.

(** X17: called without move_first while the pointer, in no corner of the
    screen, is within forty-nine pixels of the target (the code's threshold
    is fifty; at the threshold itself the rounding of the square root
    decides), mouse_click clicks twice: first where the pointer happens to
    be, and, because building the result text then fails on a variable that
    was never assigned, once more through the fallback, which moves to a
    pixel no more than one away from the target and clicks there. *)
Theorem mouse_click_near_clicks_twice (adapter_utils : AdapterUtils)
    (coordinate_converter : CoordinateConverter) (x y : Q) (button : str) (clicks : Z)
    (adapter_id : option value) (d : Device) :
  let t := click_target adapter_utils coordinate_converter x y adapter_id d in
  at_corner d (pointer d) = false ->
  (inject_Z (pointer d).1 - t.1) * (inject_Z (pointer d).1 - t.1)
  + (inject_Z (pointer d).2 - t.2) * (inject_Z (pointer d).2 - t.2) <= 49 * 49 ->
  exists click_x click_y,
    input_log (mouse_click adapter_utils coordinate_converter x y button clicks adapter_id false d).1
    = input_log d
      ++ [Clicked (pointer d).1 (pointer d).2 button clicks;
          Moved click_x click_y;
          Clicked click_x click_y button clicks] /\
    Qabs' (inject_Z click_x - t.1) <= 1 /\ Qabs' (inject_Z click_y - t.2) <= 1.
Proof.
  intros t _ Hnear. rewrite mouse_click_unfold. cbv zeta. fold t.
  unfold mouse_click_try. cbn [orb].
  assert (Hnear' : (inject_Z (pointer d).1 - t.1) * (inject_Z (pointer d).1 - t.1)
                   + (inject_Z (pointer d).2 - t.2) * (inject_Z (pointer d).2 - t.2) <= 50 * 50).
  { eapply Qle_trans; [exact Hnear|]. discriminate. }
  apply Qltb_false in Hnear'. rewrite Hnear'.
  cbn [click click_at moveTo pointer input_log screen_size fst snd].
  exists (round_half_even t.1), (round_half_even t.2).
  split; [rewrite !py_trunc_inject_Z, <- !app_assoc; reflexivity|].
  split; apply Qabs'_le.
  - destruct (round_half_even_near t.1). split; lra.
  - destruct (round_half_even_near t.2). split; lra.
Qed.

End Click.

Lemma mouse_click_once_within_margin_witness :
  exists moves click_x click_y,
    Forall (fun ev => is_click ev = false) moves /\
    input_log (mouse_click example_adapters (set_original_resolution new_converter 1920 1080)
                 (1 # 3) (6 # 10) (py "left") 1 None true centred_device).1
    = input_log centred_device ++ moves ++ [Clicked click_x click_y (py "left") 1] /\
    (Qabs' (inject_Z click_x
            - (click_target example_adapters (set_original_resolution new_converter 1920 1080)
                 (1 # 3) (6 # 10) None centred_device).1) <= 1)%Q /\
    (Qabs' (inject_Z click_y
            - (click_target example_adapters (set_original_resolution new_converter 1920 1080)
                 (1 # 3) (6 # 10) None centred_device).2) <= 1)%Q /\
    (safe_margin <= click_x <= (screen_size centred_device).1 - safe_margin)%Z /\
    (safe_margin <= click_y <= (screen_size centred_device).2 - safe_margin)%Z.
Proof.
  apply (mouse_click_once_within_margin example_adapters
           (set_original_resolution new_converter 1920 1080) (1 # 3) (6 # 10) (py "left") 1
           None centred_device).
  - vm_compute. discriminate.
  - vm_compute. discriminate.
  - reflexivity.
  - split; split; vm_compute; discriminate.
Defined.

Lemma mouse_click_near_clicks_twice_witness :
  exists click_x click_y,
    input_log (mouse_click example_adapters (set_original_resolution new_converter 1920 1080)
                 (51 # 100) (1 # 2) (py "left") 1 None false centred_device).1
    = input_log centred_device
      ++ [Clicked (pointer centred_device).1 (pointer centred_device).2 (py "left") 1;
          Moved click_x click_y;
          Clicked click_x click_y (py "left") 1] /\
    (Qabs' (inject_Z click_x
            - (click_target example_adapters (set_original_resolution new_converter 1920 1080)
                 (51 # 100) (1 # 2) None centred_device).1) <= 1)%Q /\
    (Qabs' (inject_Z click_y
            - (click_target example_adapters (set_original_resolution new_converter 1920 1080)
                 (51 # 100) (1 # 2) None centred_device).2) <= 1)%Q.
Proof.
  apply (mouse_click_near_clicks_twice example_adapters
           (set_original_resolution new_converter 1920 1080) (51 # 100) (1 # 2) (py "left") 1
           None centred_device).
  - reflexivity.
  - vm_compute. discriminate.
Defined.

Example mouse_click_near_example :
  input_log (mouse_click example_adapters (set_original_resolution new_converter 1920 1080)
               (51 # 100) (1 # 2) (py "left") 1 None false centred_device).1
  = [Clicked 960 540 (py "left") 1; Moved 979 540; Clicked 979 540 (py "left") 1].
Proof. vm_compute. reflexivity. Qed.


(** ** The pause after a detected intervention *)

Section KeepsIn.
Variable L : label -> bool.
Variable J : VLMAgent -> list label -> Prop.

Lemma keeps_in_ret {A} (a : A) : keeps_in L J (ret a).
Proof. intros I ag h Q HJ Hst HQ. apply HQ; assumption. Qed.

Lemma keeps_in_raise {A} (e : exn) : keeps_in L J (raise (A := A) e).
Proof. intros I ag h Q HJ Hst HQ. apply HQ; assumption. Qed.

Lemma keeps_in_of_result {A} (r : result A) : keeps_in L J (of_result r).
Proof. intros I ag h Q HJ Hst HQ. apply HQ; assumption. Qed.

Lemma keeps_in_modify (f : VLMAgent -> VLMAgent) :
  (forall ag h, J ag h -> J (f ag) h) -> keeps_in L J (modify f).
Proof. intros Hf I ag h Q HJ Hst HQ. apply HQ. apply Hf, HJ. Qed.

Lemma keeps_in_perform (e : event) :
  (forall a, L (label_of e a) = true) -> keeps_in L J (perform e).
Proof.
  intros He I ag h Q HJ Hst HQ. cbn. intros a.
  destruct (Hst _ ag h (He a) HJ) as [Hi HJ']. split; [exact Hi | apply HQ; assumption].
Qed.

Lemma keeps_in_mbind {A B} (m : M A) (f : A -> M B) :
  keeps_in L J m -> (forall a, keeps_in L J (f a)) -> keeps_in L J (mbind m f).
Proof.
  intros Hm Hf I ag h Q HJ Hst HQ. apply wp_mbind.
  apply (Hm I); [assumption..|]. intros r ag' h' HJ'. cbn [fst snd].
  destruct r as [a|e]; [|apply HQ; assumption].
  apply (Hf a I); assumption.
Qed.

Lemma keeps_in_get_self {B} (f : VLMAgent -> M B) :
  (forall ag, keeps_in L J (f ag)) -> keeps_in L J (mbind get_self f).
Proof.
  intros Hf I ag h Q HJ Hst HQ. apply wp_mbind. cbn.
  apply (Hf ag I); assumption.
Qed.

Lemma keeps_in_try_except {A} (m : M A) (handler : exn -> M A) :
  keeps_in L J m -> (forall e, keeps_in L J (handler e)) -> keeps_in L J (try_except m handler).
Proof.
  intros Hm Hh I ag h Q HJ Hst HQ. apply wp_try_except.
  apply (Hm I); [assumption..|]. intros r ag' h' HJ'. cbn [fst snd].
  destruct r as [a|e]; [apply HQ; assumption|].
  apply (Hh e I); assumption.
Qed.

(** The alphabet has the labels of the methods that do not wait. *)
Hypothesis H_labels : forall l, quiet false l = true -> L l = true.

Ltac keeps_in_step :=
  lazymatch goal with
  | |- keeps_in _ _ (mbind get_self _) => apply keeps_in_get_self; intros ?
  | |- keeps_in _ _ (mbind _ _) => apply keeps_in_mbind; [|intros ?]
  | |- keeps_in _ _ (ret _) => apply keeps_in_ret
  | |- keeps_in _ _ (raise _) => apply keeps_in_raise
  | |- keeps_in _ _ (of_result _) => apply keeps_in_of_result
  | |- keeps_in _ _ (perform ?e) =>
      apply (keeps_in_perform e); intros ?; apply H_labels; reflexivity
  | |- keeps_in _ _ (if ?b then _ else _) => destruct b eqn:?
  end.

Lemma keeps_in_notify (k : update_kind) (m : value) : keeps_in L J (notify k m).
Proof. unfold notify. repeat keeps_in_step. Qed.

Lemma keeps_in_speak (text : str) : keeps_in L J (speak text).
Proof. unfold speak. repeat keeps_in_step. Qed.

Lemma keeps_in_call_step_callback (cb : bool) (arg : callback_arg) :
  keeps_in L J (call_step_callback cb arg).
Proof. unfold call_step_callback. repeat keeps_in_step. Qed.

Lemma keeps_in_capture_screenshot : keeps_in L J capture_screenshot.
Proof. unfold capture_screenshot. repeat keeps_in_step. Qed.

Hypothesis H_history : forall ag h hist pos, J ag h -> J (set_history hist pos ag) h.
Hypothesis H_messages : forall ag h msgs, J ag h -> J (set_messages msgs ag) h.

Lemma keeps_in_record_operation (t : str) (p : list (str * str)) (s : bool) (r : str) :
  keeps_in L J (record_operation t p s r).
Proof. unfold record_operation. apply keeps_in_modify. intros ag h HJ. apply H_history, HJ. Qed.

Lemma keeps_in_append_message (c : content) : keeps_in L J (append_message c).
Proof.
  unfold append_message. apply keeps_in_modify. intros ag h HJ. apply H_messages, HJ.
Qed.

(** The capture that opens a pass of the body, with its handler. *)
Lemma keeps_in_first_capture (cb : bool) (step : Z) :
  keeps_in L J
    (try_except capture_screenshot
       (fun e =>
          match e with
          | PermissionError _ =>
              speak (py "屏幕截图失败，任务已暂停。请手动处理后继续。");;
              record_operation (py "screenshot") [(py "error", exn_str e)] false
                (py "屏幕截图失败，任务暂停");;
              call_step_callback cb (CbCaptureFailed step);;
              raise e
          | _ =>
              record_operation (py "screenshot") [(py "error", exn_str e)] false
                (py "屏幕截图其他错误");;
              raise e
          end)).
Proof.
  apply keeps_in_try_except; [apply keeps_in_capture_screenshot|].
  intros e. destruct e;
    repeat first [ apply keeps_in_speak | apply keeps_in_record_operation
                 | apply keeps_in_call_step_callback | keeps_in_step ].
Qed.

End KeepsIn.

Lemma waits_since_app (k : list label) (m : list content) (r : result str) (h : list label) :
  forallb (fun l => negb (is_model_call l)) k = true ->
  last_response (k ++ LModelCall m r :: h) = Some r /\
  waits_since (k ++ LModelCall m r :: h) = length (List.filter is_wait k).
Proof.
  induction k as [|l k IH]; cbn [forallb app]; [intros _; split; reflexivity|].
  intros [Hl Hk]%andb_true_iff. destruct (IH Hk) as [IH1 IH2].
  destruct l; try discriminate; cbn; rewrite ?IH2; auto.
Qed.

Lemma filter_wait_events (t : list label) :
  List.filter is_wait (events t) = List.filter is_wait t.
Proof.
  induction t as [|l t IH]; [reflexivity|].
  destruct l; cbn; fold (events t); rewrite ?IH; reflexivity.
Qed.

Lemma events_no_model_call (t : list label) :
  forallb (fun l => negb (is_model_call l)) t = true ->
  forallb (fun l => negb (is_model_call l)) (events t) = true.
Proof.
  induction t as [|l t IH]; [reflexivity|]. cbn [forallb].
  intros [Hl Hk]%andb_true_iff. destruct l; try discriminate; cbn; fold (events t); auto.
Qed.

Lemma forallb_rev {A} (f : A -> bool) (l : list A) :
  forallb f l = true -> forallb f (rev l) = true.
Proof.
  rewrite !forallb_forall. intros H x Hx. apply H. apply in_rev. exact Hx.
Qed.

Section InterventionPause.
Context {U : Unicode}.

Lemma calm_stable (l : label) (ag : VLMAgent) (h : list label) :
  quiet true l = true -> calm ag h ->
  waits_twice_before_call (l :: h) /\ calm ag (l :: h).
Proof.
  intros Hq (Hpe & Hd & Hr).
  destruct l; try discriminate; (split; [exact Logic.I | repeat split; assumption]).
Qed.

Lemma counted_stable (n : nat) (l : label) (ag : VLMAgent) (h : list label) :
  quiet false l = true -> counted n ag h ->
  waits_twice_before_call (l :: h) /\ counted n ag (l :: h).
Proof.
  intros Hq (Hpe & Hd & Hr & Hw).
  destruct l; try discriminate; (split; [exact Logic.I | repeat split; assumption]).
Qed.

Lemma pending_stable (l : label) (ag : VLMAgent) (h : list label) :
  quiet false l = true -> pending ag h ->
  waits_twice_before_call (l :: h) /\ pending ag (l :: h).
Proof.
  intros Hq (Hpe & Hd & Hr & Hw).
  destruct l; try discriminate; (split; [exact Logic.I | repeat split; assumption]).
Qed.

Lemma calm_stable_quiet (l : label) (ag : VLMAgent) (h : list label) :
  quiet false l = true -> calm ag h ->
  waits_twice_before_call (l :: h) /\ calm ag (l :: h).
Proof.
  intros Hq. apply calm_stable. destruct l; try discriminate; reflexivity.
Qed.

Ltac side HJ Hst :=
  first [ exact HJ | exact Hst | (intros; assumption) ].

(** The pause itself adds one wait to those counted. *)
Lemma wp_handle_pause_counted (n : nat) (t : str) (cb : bool) (step : Z) (ag : VLMAgent)
    (h : list label) (Q : result unit * VLMAgent -> list label -> Prop) :
  counted n ag h ->
  (forall ag' h', counted (S n) ag' h' -> Q (Ok tt, ag') h') ->
  (forall e ag' h', Q (Raise e, ag') h') ->
  wp waits_twice_before_call (handle_manual_intervention_pause t cb step ag) h Q.
Proof.
  intros HJ HQ HR. unfold handle_manual_intervention_pause.
  pose proof (fun l ag' h' => counted_stable n l ag' h') as Hst.
  apply wp_mbind. apply (keeps_in_record_operation (quiet false) (counted n)); [side HJ Hst..|].
  clear ag h HJ. intros r ag h HJ. cbn [fst snd]. destruct r as [[]|e]; [|apply HR].
  apply wp_mbind. apply (keeps_in_speak (quiet false) (counted n)); [side HJ Hst..|].
  clear ag h HJ. intros r ag h HJ. cbn [fst snd]. destruct r as [[]|e]; [|apply HR].
  apply wp_mbind. apply (keeps_in_call_step_callback (quiet false) (counted n)); [side HJ Hst..|].
  clear ag h HJ. intros r ag h HJ. cbn [fst snd]. destruct r as [[]|e]; [|apply HR].
  apply wp_mbind. cbn [modify wp fst snd].
  assert (HJ1 : counted n (set_paused true t ag) h) by exact HJ.
  revert HJ1. generalize (set_paused true t ag). clear ag HJ. intros ag HJ.
  apply wp_mbind. apply (keeps_in_notify (quiet false) (counted n)); [side HJ Hst..|].
  clear ag h HJ. intros r ag h HJ. cbn [fst snd]. destruct r as [[]|e]; [|apply HR].
  apply wp_mbind. destruct HJ as (Hpe & Hd & Hr & Hw).
  apply wp_wait_for_continue; [exact Hpe | exact Logic.I | exact Logic.I|].
  cbn [fst snd modify wp]. apply HQ. repeat split; try assumption. cbn. rewrite Hw. reflexivity.
Qed.

Lemma wp_perceive_calm (task : str) (cb : bool) (step : Z) (ag : VLMAgent) (h : list label) :
  calm ag h ->
  wp waits_twice_before_call (perceive task cb step ag) h (fun r h' =>
    match r.1 with Ok _ => ready r.2 h' | Raise _ => True end).
Proof.
  intros HJ. pose proof calm_stable_quiet as Hst. unfold perceive.
  apply wp_mbind. apply (keeps_in_first_capture (quiet false) calm); [side HJ Hst..|].
  clear ag h HJ. intros r ag h HJ. cbn [fst snd]. destruct r as [img|e]; [|exact Logic.I].
  apply wp_mbind. cbn [append_message modify wp fst snd].
  apply wp_mbind. unfold check_and_handle_pause. apply wp_mbind. cbn [get_self wp fst snd].
  cbn [manual_intervention_detected set_messages].
  destruct HJ as (Hpe & Hd & Hr). rewrite Hd. cbn [ret wp fst snd].
  repeat split; try assumption.
  intros m r r0 E Hi. rewrite (Hr r0 E) in Hi. discriminate.
Qed.

Lemma wp_perceive_pending (task : str) (cb : bool) (step : Z) (ag : VLMAgent)
    (h : list label) :
  pending ag h ->
  wp waits_twice_before_call (perceive task cb step ag) h (fun r h' =>
    match r.1 with Ok _ => ready r.2 h' | Raise _ => True end).
Proof.
  intros HJ. pose proof pending_stable as Hst. unfold perceive.
  apply wp_mbind. apply (keeps_in_first_capture (quiet false) pending); [side HJ Hst..|].
  clear ag h HJ. intros r ag h HJ. cbn [fst snd]. destruct r as [img|e]; [|exact Logic.I].
  apply wp_mbind. cbn [append_message modify wp fst snd].
  apply wp_mbind. unfold check_and_handle_pause. apply wp_mbind. cbn [get_self wp fst snd].
  cbn [manual_intervention_detected pause_reason set_messages].
  destruct HJ as (Hpe & Hd & Hr & Hw). rewrite Hd.
  apply wp_mbind. cbn [modify wp fst snd]. apply wp_mbind.
  apply (wp_handle_pause_counted 1).
  - repeat split; assumption.
  - intros ag2 h2 HJ2. cbn [fst snd ret wp].
    pose proof (fun l ag' h' => counted_stable 2 l ag' h') as Hst2.
    apply wp_mbind.
    apply (keeps_in_capture_screenshot (quiet false) (counted 2)); [side HJ2 Hst2..|].
    intros r ag3 h3 HJ3. cbn [fst snd]. destruct r as [img2|e]; [|exact Logic.I].
    cbn [append_message modify wp fst snd].
    destruct HJ3 as (Hpe3 & Hd3 & Hr3 & Hw3). repeat split; try assumption.
    intros m r r0 _ _. exact Hw3.
  - intros e ag2 h2. cbn. exact Logic.I.
Qed.

(** A response in prose without an intervention pattern leaves the agent calm. *)
Lemma keeps_calm_no_tool_calls (response_text : str) :
  detect_manual_intervention_required response_text = None ->
  keeps calm (run_no_tool_calls response_text).
Proof.
  intros Hd. unfold run_no_tool_calls. rewrite Hd.
  destruct (existsb _ user_input_keywords).
  - repeat first [ apply keeps_speak | apply keeps_notify | apply keeps_wait_for_continue
                 | apply keeps_capture_screenshot | apply keeps_ret
                 | apply keeps_append_message; [intros ? ? ? _ H; exact H | reflexivity]
                 | apply keeps_mbind; [|intros ?] ].
  - repeat first [ apply keeps_ret
                 | apply keeps_append_message; [intros ? ? ? _ H; exact H | reflexivity]
                 | apply keeps_mbind; [|intros ?] ].
Qed.

Lemma wp_act_intervention (cb : bool) (step : Z) (m : list content) (r : result str)
    (ag : VLMAgent) (h : list label) :
  pause_event ag = true -> manual_intervention_detected ag = false ->
  wp waits_twice_before_call (act cb step r ag) (LModelCall m r :: h) (fun ra h' =>
    match ra.1 with Ok Next => calm ra.2 h' \/ pending ra.2 h' | _ => True end).
Proof.
  intros Hpe Hd. unfold act. apply wp_mbind.
  destruct r as [text|e]; cbn [of_result wp fst snd]; [|exact Logic.I].
  apply wp_mbind. cbn [append_message modify wp fst snd].
  set (ag1 := set_messages _ ag). set (h0 := LModelCall m (Ok text) :: h).
  destruct (response_intervenes (Ok text)) eqn:Ei.
  - (* an intervention is detected *)
    assert (HJ : counted 0 ag1 h0).
    { repeat split; try assumption. exists (Ok text). split; [reflexivity | exact Ei]. }
    pose proof (fun l ag' h' => counted_stable 0 l ag' h') as Hst.
    clearbody ag1 h0. clear Hpe Hd.
    apply wp_mbind.
    apply (keeps_in_call_step_callback (quiet false) (counted 0)); [side HJ Hst..|].
    intros r ag2 h2 HJ2. cbn [fst snd]. destruct r as [[]|e]; [|exact Logic.I].
    cbn [response_intervenes] in Ei.
    destruct (parse_tool_calls text) as [[|c cs]|e]; try discriminate.
    destruct (detect_manual_intervention_required text) as [t|] eqn:Ed; try discriminate.
    apply wp_mbind. cbn [of_result wp fst snd]. unfold run_no_tool_calls. rewrite Ed.
    apply wp_mbind. cbn [modify wp fst snd]. apply wp_mbind.
    destruct HJ2 as (Hpe2 & Hd2 & Hr2 & Hw2).
    apply wp_notify; [exact Logic.I | |]; cbn [fst snd];
      (apply wp_mbind; apply wp_wait_for_continue; [exact Hpe2 | exact Logic.I | exact Logic.I|];
       cbn; right; repeat split; try assumption; cbn; rewrite Hw2; reflexivity).
  - (* none is *)
    assert (HJ : calm ag1 h0).
    { repeat split; try assumption. intros r0 [= <-]. exact Ei. }
    pose proof calm_stable as Hst.
    clearbody ag1 h0. clear Hpe Hd.
    apply wp_mbind. apply (keeps_call_step_callback calm); [side HJ Hst..|].
    intros r ag2 h2 HJ2. cbn [fst snd]. destruct r as [[]|e]; [|exact Logic.I].
    cbn [response_intervenes] in Ei.
    apply wp_mbind. destruct (parse_tool_calls text) as [[|c cs]|e];
      cbn [of_result wp fst snd]; [| |exact Logic.I].
    + destruct (detect_manual_intervention_required text) as [t|] eqn:Ed; [discriminate|].
      apply (keeps_calm_no_tool_calls text Ed); [exact HJ2 | exact Hst|].
      intros r ag3 h3 HJ3. destruct r as [[| |x]|e]; cbn; auto.
    + apply (keeps_run_tool_calls calm); [intros ? ? ? _ H; exact H | exact HJ2 | exact Hst|].
      intros r ag3 h3 HJ3. destruct r as [[| |x]|e]; cbn; auto.
Qed.

Lemma wp_step_body_intervention (task : str) (cb : bool) (step : Z) (ag : VLMAgent)
    (h : list label) :
  calm ag h \/ pending ag h ->
  wp waits_twice_before_call (step_body task cb step ag) h (fun r h' =>
    match r.1 with Ok Next => calm r.2 h' \/ pending r.2 h' | _ => True end).
Proof.
  intros HJ. unfold step_body. apply wp_try_except. apply wp_mbind.
  eapply wp_mono with (Q := fun r h' => match r.1 with Ok _ => ready r.2 h' | Raise _ => True end);
    [| |destruct HJ; [apply wp_perceive_calm | apply wp_perceive_pending]; assumption]; [auto|].
  intros [r ag1] h1 Hr. cbn [fst snd] in *. destruct r as [[]|e]; [|cbn; exact Logic.I].
  destruct Hr as (Hpe & Hd & Hi).
  apply wp_mbind. cbn [get_self wp fst snd].
  apply wp_mbind. cbn [perform wp label_of fst snd]. intros response.
  split; [apply Hi|].
  eapply wp_mono; [| |apply (wp_act_intervention cb step _ response ag1 h1 Hpe Hd)]; [auto|].
  intros [r ag2] h2 Hr. cbn [fst snd] in *. destruct r as [c|e]; cbn; [exact Hr | exact Logic.I].
Qed.

Lemma wp_while_loop_intervention (task : str) (max_steps : Z) (cb : bool) :
  forall (fuel : nat) (step : Z) (ag : VLMAgent) (h : list label),
    calm ag h \/ pending ag h ->
    wp waits_twice_before_call (while_loop fuel task max_steps cb step ag) h (fun _ _ => True).
Proof.
  induction fuel as [|fuel IH]; intros step ag h HJ; [exact Logic.I|].
  cbn [while_loop]. destruct (step <? max_steps)%Z; [|exact Logic.I].
  apply wp_mbind.
  eapply wp_mono; [| |apply (wp_step_body_intervention task cb (step + 1)%Z ag h HJ)]; [auto|].
  intros [r ag'] h' Hr. cbn [fst snd] in *.
  destruct r as [[| |x]|e]; try exact Logic.I. apply IH, Hr.
Qed.

Lemma wp_run_task_intervention (task : str) (max_steps : Z) (cb : bool) (ag : VLMAgent) :
  pause_event ag = true -> manual_intervention_detected ag = false ->
  wp waits_twice_before_call (run_task task max_steps cb ag) [] (fun _ _ => True).
Proof.
  intros Hpe Hd. unfold run_task, run_task_fuel.
  apply wp_mbind. cbn [wp perform label_of fst snd]. intros p. split; [exact Logic.I|].
  apply wp_mbind. cbn [wp modify fst snd]. apply wp_mbind.
  eapply wp_mono; [| |apply wp_while_loop_intervention]; [auto| |].
  - intros [r ag'] h' _. cbn [fst snd]. destruct r as [[[x|]|]|e]; cbn; auto.
  - left. repeat split; try assumption. intros r [=].
Qed.

(** X18: with a pause event, when the model answers in prose (no tool
    call) and an intervention pattern is found in the answer, the agent waits
    twice for the release signal before it calls the model again: once where
    the pattern is detected, once more at the start of the next pass. *)
Theorem detected_intervention_waits_twice (w : env) (ag : VLMAgent) (task : str)
    (max_steps : Z) (cb : bool) (flag : bool) (t1 : list label) (m : list content)
    (response_text : str) (t2 : list label) (m' : list content) (r' : result str)
    (t3 : list label) :
  pause_event ag = true -> manual_intervention_detected ag = false ->
  (interp w (run_task task max_steps cb ag) 0 flag).2
    = t1 ++ LModelCall m (Ok response_text) :: t2 ++ LModelCall m' r' :: t3 ->
  forallb (fun l => negb (is_model_call l)) t2 = true ->
  parse_tool_calls response_text = Ok [] ->
  detect_manual_intervention_required response_text <> None ->
  length (List.filter is_wait t2) = 2%nat.
Proof.
  intros Hpe Hd E Ht2 Hp Hdet.
  pose proof (wp_run_task_intervention task max_steps cb ag Hpe Hd) as Hwp.
  destruct (wp_interp _ _ _ _ w 0%nat flag Hwp) as [Hinv _].
  rewrite E in Hinv. rewrite events_app in Hinv.
  cbn [events List.filter is_release negb] in Hinv. fold (events (t2 ++ LModelCall m' r' :: t3)) in Hinv.
  rewrite events_app in Hinv. cbn [events List.filter is_release negb] in Hinv.
  fold (events t3) in Hinv. fold (events t1) in Hinv.
  specialize (Hinv (events t1 ++ LModelCall m (Ok response_text) :: events t2)
                   (LModelCall m' r') (events t3)).
  rewrite <- app_assoc in Hinv. specialize (Hinv eq_refl).
  cbn [waits_twice_before_call] in Hinv. rewrite app_nil_r in Hinv.
  rewrite rev_app_distr in Hinv. cbn [rev] in Hinv. rewrite <- app_assoc in Hinv.
  cbn [app] in Hinv.
  destruct (waits_since_app (rev (events t2)) m (Ok response_text) (rev (events t1)))
    as [E1 E2].
  { apply forallb_rev, events_no_model_call, Ht2. }
  specialize (Hinv _ E1). rewrite E2 in Hinv.
  rewrite <- filter_wait_events, <- (length_rev (List.filter is_wait (events t2))).
  rewrite <- List.filter_rev. apply Hinv.
  cbn [response_intervenes]. rewrite Hp.
  destruct (detect_manual_intervention_required response_text); [reflexivity | contradiction].
Qed.

End InterventionPause.

Lemma detected_intervention_waits_twice_witness :
  length (List.filter is_wait (take 10 (drop 3 run_login.2))) = 2%nat.
Proof.
  apply (detected_intervention_waits_twice (U := ascii_only)
           (scripted [login_response; py "all set"] (fun i => Nat.eqb i 4 || Nat.eqb i 8))
           (new_agent true true) (py "open the mail") 5 false false
           (take 2 run_login.2)
           (call_messages (default LWait (run_login.2 !! 2%nat)))
           login_response
           (take 10 (drop 3 run_login.2))
           (call_messages (default LWait (run_login.2 !! 13%nat)))
           (Ok (py "all set"))
           []).
  - reflexivity.
  - reflexivity.
  - vm_compute. reflexivity.
  - vm_compute. reflexivity.
  - vm_compute. reflexivity.
  - vm_compute. discriminate.
Defined.


(** ** press_hotkey: the keys it sends, and where it clicks *)

Lemma split_plus_forall (P : N -> bool) (s : str) :
  forallb P s = true -> Forall (fun part => forallb P part = true) (split_plus s).
Proof.
  induction s as [|c s IH]; cbn [forallb split_plus]; [intros _; repeat constructor|].
  intros [Hc Hs]%andb_true_iff. specialize (IH Hs).
  destruct (c =? 43); [constructor; [reflexivity | exact IH]|].
  destruct (split_plus s) as [|part parts].
  - repeat constructor. cbn. rewrite Hc. reflexivity.
  - inversion IH as [|? ? Hp Hps]; subst. constructor; [|exact Hps].
    cbn. rewrite Hc. exact Hp.
Qed.



Lemma remove_spaces_ascii (s : str) : is_ascii s = true -> is_ascii (remove_spaces s) = true.
Proof.
  unfold is_ascii. rewrite !forallb_forall. intros H c Hc.
  apply List.filter_In in Hc. apply H, Hc.
Qed.


Section HotkeyProofs.
Context {U : Unicode}.

Lemma py_lower_ascii (s : str) : is_ascii s = true -> py_lower s = map ascii_lower s.
Proof. unfold is_ascii, py_lower. intros ->. reflexivity. Qed.


Lemma normalize_part_lower (p q : str) :
  py_lower p = py_lower q -> normalize_part p = normalize_part q.
Proof. unfold normalize_part. intros ->. reflexivity. Qed.

Lemma map_normalize_part (l l' : list str) :
  map py_lower l = map py_lower l' -> map normalize_part l = map normalize_part l'.
Proof.
  revert l'. induction l as [|p l IH]; intros [|q l'] E; try discriminate; [reflexivity|].
  cbn in E. injection E as E1 E2. cbn. rewrite (normalize_part_lower p q E1), (IH l' E2).
  reflexivity.
Qed.

Lemma split_plus_lower (s : str) :
  is_ascii s = true -> map py_lower (split_plus s) = split_plus (map ascii_lower s).
Proof.
  intros Ha. pose proof (split_plus_forall _ s Ha) as Hparts. fold is_ascii in Hparts.
  unfold is_ascii in Ha. revert Ha Hparts.
  induction s as [|c s IH]; cbn [forallb split_plus map]; [intros _ _; reflexivity|].
  intros [Hc Hs]%andb_true_iff Hparts.
  assert (E43 : (ascii_lower c =? 43) = (c =? 43)).
  { unfold ascii_lower, is_upper_az, in_range.
    destruct (N.leb_spec 65 c), (N.leb_spec c 90); cbn [andb]; try reflexivity.
    destruct (N.eqb_spec (c + 32) 43), (N.eqb_spec c 43); try lia; reflexivity. }
  rewrite E43. destruct (c =? 43).
  - inversion Hparts as [|? ? _ Hps]; subst. cbn [map]. rewrite (IH Hs Hps). reflexivity.
  - assert (Hs' := split_plus_forall (fun c => c <? 128) s Hs).
    specialize (IH Hs Hs'). rewrite <- IH.
    destruct (split_plus s) as [|part parts]; cbn [map].
    + unfold py_lower. cbn [forallb]. rewrite Hc. reflexivity.
    + inversion Hs' as [|? ? Hp _]; subst.
      unfold py_lower at 1. cbn [forallb]. rewrite Hc, Hp. cbn [andb map].
      rewrite (py_lower_ascii part Hp). reflexivity.
Qed.


(** X20: spaces and the case of ASCII letters in the hotkey text make no
    difference to what press_hotkey does to the device and the keyboard. *)
Theorem press_hotkey_ignores_case_and_spaces (coordinate_converter : CoordinateConverter)
    (x y : Q) (hotkey hotkey' : str) (d : Device) (keyboard : list (list str)) :
  is_ascii hotkey = true -> is_ascii hotkey' = true ->
  py_lower (remove_spaces hotkey) = py_lower (remove_spaces hotkey') ->
  (press_hotkey coordinate_converter x y hotkey d keyboard).1
  = (press_hotkey coordinate_converter x y hotkey' d keyboard).1.
Proof.
  intros Ha Ha' E. unfold press_hotkey.
  destruct (convert_proportion_to_actual coordinate_converter x y) as [actual_x actual_y].
  cbn [fst snd]. f_equal. f_equal. f_equal.
  apply map_normalize_part.
  rewrite !split_plus_lower by (apply remove_spaces_ascii; assumption).
  rewrite <- !py_lower_ascii by (apply remove_spaces_ascii; assumption).
  rewrite E. reflexivity.
Qed.


End HotkeyProofs.


Lemma press_hotkey_ignores_case_and_spaces_witness :
  (press_hotkey (U := ascii_only) (set_original_resolution new_converter 1920 1080)
     (1 # 2) (1 # 2) (py "Ctrl + A") centred_device []).1
  = (press_hotkey (U := ascii_only) (set_original_resolution new_converter 1920 1080)
       (1 # 2) (1 # 2) (py "ctrl+a") centred_device []).1.
Proof.
  apply (press_hotkey_ignores_case_and_spaces (U := ascii_only)); reflexivity.
Defined.


Example press_hotkey_example :
  press_hotkey (U := ascii_only) (set_original_resolution new_converter 1920 1080)
    (1 # 2) (1 # 2) (py "Ctrl + Shift+ WIN+a") centred_device []
  = ({| screen_size := (1920, 1080)%Z; pointer := (960, 540)%Z;
        input_log := [Moved 960 540; Clicked 960 540 (py "left") 1] |},
     [[py "ctrl"; py "shift"; py "winleft"; py "a"]],
     py "在坐标 (960, 540) 处执行快捷键: Ctrl+Shift+WIN+a").
Proof. vm_compute. reflexivity. Qed.


(** ** Without a pause event the loop goes on to the next model call *)


Section GoesOnProofs.
Context {U : Unicode}.





(** *** Methods that raise only after a failure *)
















(** *** What is done with a response that asks for a pause *)









End GoesOnProofs.


